(** * A growable array with strong exception safety: [vector<T>]

    Shallow embedding of [src/vector.h].  The container is a C++ object with
    three fields ([data_], [size_], [capacity_]) that owns a block of raw
    storage.  Its methods allocate, construct elements in place, destroy
    them and release the block, and any element construction may throw.

    The embedding therefore threads a [world] through every method:
    - [heap]   : the blocks obtained from [operator new]; a block is a list
                 of slots, a slot is raw ([None]) or holds a live element;
    - [objs]   : the [vector] objects themselves, by address, so that
                 [&other == this] and temporaries are modelled as written;
    - [plan]   : the fault-injection plan: each operation that may throw
                 consumes one entry and throws when the entry is [true];
    - [log]    : the allocation, construction and destruction events;
    - [leaked] : elements whose storage was released while they were live.

    [size_t] is a 64-bit unsigned integer: a [Z] reduced by [wrap].
    Storage is counted in slots: [operator new(sizeof(T) * n)] is the
    allocation of [n] raw slots.  That is what the source's request is
    as long as its byte count [sizeof(T) * n] is a [size_t] value
    ([fits n]); beyond it the product wraps in the source and the block
    is shorter than [n] elements, which the slot count does not show.
    The count is the caller's choice in [reserve] only, whose contract
    ([pre]) and whose theorem therefore ask for [fits n].

    Elements change places in two ways.  [erase] calls the qualified
    [std::swap], which is a move construction and two move assignments
    ([std_swap]), each of which may throw and leaves a moved-from element
    behind; [insert] calls [std::iter_swap], which uses the element
    type's own [swap] when it has one ([iter_swap]). *)

From stdpp Require Import gmap list.
From Stdlib Require Import ZArith Lia.

Local Open Scope Z_scope.

(** ** Machine integers and pointers *)

Definition size_t_bits : Z := 64.
Definition SIZE_MOD : Z := 2 ^ size_t_bits.

(** Arithmetic on [size_t] is modulo [2^64]. *)
Definition wrap (z : Z) : Z := z mod SIZE_MOD.

Abbreviation block := nat (only parsing).
Abbreviation loc := nat (only parsing).

(** A [T*]: the block it points into ([None] for the null block) and the
    slot offset inside the block. *)
Record pointer := Ptr { blk : option block; off : Z }.

Definition nullptr : pointer := Ptr None 0.

Global Instance pointer_eq_dec : EqDecision pointer.
Proof. solve_decision. Defined.

(** [p + k] *)
Definition ptr_add (p : pointer) (k : Z) : pointer := Ptr (blk p) (off p + k).

(** The three fields of a [vector<T>] object. *)
Record vec := Vec { data_ : pointer; size_ : Z; capacity_ : Z }.

Global Instance vec_eq_dec : EqDecision vec.
Proof. solve_decision. Defined.

(** Default member initialisers: [data_{nullptr}, size_{0}, capacity_{0}]. *)
Definition vec_default : vec := Vec nullptr 0 0.

Inductive event :=
| EvNew (b : block) (n : Z)
| EvDelete (b : block)
| EvConstruct (b : block) (i : nat)
| EvDestroy (b : block) (i : nat).

(** Why an execution has no defined result. *)
Inductive reason :=
| OutOfBounds   (* access outside the block *)
| NotLive       (* use of a slot that holds no element *)
| NotRaw        (* construction over a live element *)
| BadPointer    (* dereference of a null or dangling pointer *)
| BadFree       (* release of something operator new did not return *)
| NoObject      (* use of a vector object that does not exist *)
| NoFuel.       (* recursion budget exhausted *)

(** What the container needs to know of the element type: [sizeof(T)],
    whether its move constructor and its move assignment are [noexcept]
    ([std::is_nothrow_move_constructible], [std::is_nothrow_move_assignable]),
    whether it has a [swap] of its own, which is then [noexcept], and the
    state a move leaves its source in.  Copy construction may always
    throw; destructors never do. *)
Class Element (T : Type) := {
  size_of : Z;
  size_of_pos : 0 < size_of;
  nothrow_move : bool;
  nothrow_move_assign : bool;
  own_swap : bool;
  moved_from : T -> T
}.

(** [std::is_nothrow_swappable]: the type's own [swap], or else the
    generic [std::swap], which is [noexcept] when both moves are. *)
Definition nothrow_swap {T : Type} `{Element T} : bool :=
  own_swap || (nothrow_move && nothrow_move_assign).

(** The byte count [sizeof(T) * n] of [n] elements is a [size_t] value. *)
Definition fits {T : Type} `{Element T} (n : Z) : Prop :=
  size_of * n < SIZE_MOD.

Section Memory.
Context {T : Type}.

Record world := World {
  heap : gmap block (list (option T));
  objs : gmap loc vec;
  plan : list bool;
  log : list event;
  leaked : nat
}.

Definition set_heap (h : gmap block (list (option T))) (w : world) : world :=
  World h (objs w) (plan w) (log w) (leaked w).
Definition set_objs (o : gmap loc vec) (w : world) : world :=
  World (heap w) o (plan w) (log w) (leaked w).
Definition set_plan (p : list bool) (w : world) : world :=
  World (heap w) (objs w) p (log w) (leaked w).
Definition add_log (e : event) (w : world) : world :=
  World (heap w) (objs w) (plan w) (log w ++ [e]) (leaked w).
Definition add_leaked (n : nat) (w : world) : world :=
  World (heap w) (objs w) (plan w) (log w) (leaked w + n)%nat.

(** ** Computations: return, throw, or no defined behaviour *)

Inductive outcome (A : Type) :=
| Ret (a : A) (w : world)
| Throw (w : world)
| Abort (r : reason).
Global Arguments Ret {A} a w.
Global Arguments Throw {A} w.
Global Arguments Abort {A} r.

Definition M (A : Type) : Type := world -> outcome A.

Definition ret {A} (a : A) : M A := fun w => Ret a w.
Definition throw {A} : M A := fun w => Throw w.
Definition abort {A} (r : reason) : M A := fun _ => Abort r.

Definition bind {A B} (m : M A) (k : A -> M B) : M B := fun w =>
  match m w with
  | Ret a w' => k a w'
  | Throw w' => Throw w'
  | Abort r => Abort r
  end.

(** [try { m } catch (...) { h }] *)
Definition catch {A} (m : M A) (h : M A) : M A := fun w =>
  match m w with
  | Throw w' => h w'
  | o => o
  end.

Definition emit (e : event) : M unit := fun w => Ret tt (add_log e w).

(** A point where the fault-injection plan may make the operation throw. *)
Definition fault_point : M unit := fun w =>
  match plan w with
  | [] => Ret tt w
  | f :: fs => if f : bool then Throw (set_plan fs w) else Ret tt (set_plan fs w)
  end.
End Memory.

Global Arguments world : clear implicits.
Global Arguments outcome : clear implicits.
Global Arguments M : clear implicits.

Declare Scope cpp_scope.
Delimit Scope cpp_scope with cpp.
Notation "x <- m ;; k" := (bind m (fun x => k))
  (at level 100, m at next level, k at level 200, right associativity) : cpp_scope.
Notation "m ;; k" := (bind m (fun _ => k))
  (at level 100, k at level 200, right associativity) : cpp_scope.
Local Open Scope cpp_scope.

Section Primitives.
Context {T : Type} `{Element T}.
Local Abbreviation M := (M T).

(** *** Vector objects *)

Definition get_obj (this : loc) : M vec := fun w =>
  match objs w !! this with
  | Some v => Ret v w
  | None => Abort NoObject
  end.

Definition put_obj (this : loc) (v : vec) : M unit := fun w =>
  match objs w !! this with
  | Some _ => Ret tt (set_objs (<[this := v]> (objs w)) w)
  | None => Abort NoObject
  end.

(** Storage for a new object, with the default member initialisers. *)
Definition new_obj : M loc := fun w =>
  let l := fresh (dom (objs w)) in
  Ret l (set_objs (<[l := vec_default]> (objs w)) w).

(** The end of an object's storage. *)
Definition del_obj (this : loc) : M unit := fun w =>
  Ret tt (set_objs (delete this (objs w)) w).

(** *** Raw storage *)

Definition live_count (s : list (option T)) : nat :=
  length (filter is_Some s).

(** [operator new(sizeof(T) * n)], for a count [n] that [fits]: a block
    of [n] raw slots; may throw [std::bad_alloc]. *)
Definition operator_new (n : Z) : M pointer :=
  fault_point ;;
  fun w =>
    let b := fresh (dom (heap w)) in
    Ret (Ptr (Some b) 0)
        (add_log (EvNew b n)
           (set_heap (<[b := replicate (Z.to_nat n) None]> (heap w)) w)).

(** [operator delete(p)]: nothing for a null pointer. *)
Definition operator_delete (p : pointer) : M unit := fun w =>
  match blk p with
  | None => if off p =? 0 then Ret tt w else Abort BadFree
  | Some b =>
      match heap w !! b with
      | Some s =>
          if off p =? 0
          then Ret tt (add_log (EvDelete b)
                         (add_leaked (live_count s)
                            (set_heap (delete b (heap w)) w)))
          else Abort BadFree
      | None => Abort BadFree
      end
  end.

(** The block, slot index and block contents a pointer designates. *)
Definition locate (p : pointer) : M (block * nat * list (option T)) := fun w =>
  match blk p with
  | None => Abort BadPointer
  | Some b =>
      match heap w !! b with
      | None => Abort BadPointer
      | Some s =>
          if off p <? 0 then Abort OutOfBounds
          else if (Z.to_nat (off p) <? length s)%nat
               then Ret (b, Z.to_nat (off p), s) w
               else Abort OutOfBounds
      end
  end.

Definition set_slot (b : block) (i : nat) (o : option T) : M unit := fun w =>
  match heap w !! b with
  | Some s => Ret tt (set_heap (<[b := <[i := o]> s]> (heap w)) w)
  | None => Abort BadPointer
  end.

(** Read the element [*p]. *)
Definition load (p : pointer) : M T :=
  bis <- locate p ;;
  match bis.2 !! bis.1.2 with
  | Some (Some x) => ret x
  | _ => abort NotLive
  end.

(** Assign to the element [*p]. *)
Definition store (p : pointer) (x : T) : M unit :=
  bis <- locate p ;;
  match bis.2 !! bis.1.2 with
  | Some (Some _) => set_slot bis.1.1 bis.1.2 (Some x)
  | _ => abort NotLive
  end.

(** Placement new of an element that has been obtained: [new (p) T(...)]
    once the constructor has run. *)
Definition construct_at (p : pointer) (x : T) : M unit :=
  bis <- locate p ;;
  match bis.2 !! bis.1.2 with
  | Some None => set_slot bis.1.1 bis.1.2 (Some x) ;; emit (EvConstruct bis.1.1 bis.1.2)
  | _ => abort NotRaw
  end.

(** [p->~T()]; never throws. *)
Definition destroy_at (p : pointer) : M unit :=
  bis <- locate p ;;
  match bis.2 !! bis.1.2 with
  | Some (Some _) => set_slot bis.1.1 bis.1.2 None ;; emit (EvDestroy bis.1.1 bis.1.2)
  | _ => abort NotLive
  end.

(** *** Element operations *)

(** A [const T&]: the element in a slot of the heap, or an object that
    lives outside it (a local of the caller), given by its value. *)
Inductive cref :=
| RefSlot (p : pointer)
| RefLocal (x : T).

Definition read (r : cref) : M T :=
  match r with
  | RefSlot p => load p
  | RefLocal x => ret x
  end.

(** [T(r)]: the copy constructor reads [r] and may throw. *)
Definition copy_T (r : cref) : M T :=
  x <- read r ;; fault_point ;; ret x.

(** [T(std::move(value))]: may throw unless the move is [noexcept]. *)
Definition move_T (value : T) : M T :=
  (if nothrow_move then ret tt else fault_point) ;; ret value.

(** [T tmp(std::move( *p ))]: may throw unless the move constructor is
    [noexcept], and then has changed nothing; when it returns, [*p] is
    left moved from. *)
Definition move_from (p : pointer) : M T :=
  x <- load p ;;
  (if nothrow_move then ret tt else fault_point) ;;
  store p (moved_from x) ;;
  ret x.

(** [*p = std::move( *q )]: may throw unless the move assignment is
    [noexcept], and then has changed nothing; when it returns, [*q] is
    left moved from. *)
Definition move_assign (p q : pointer) : M unit :=
  y <- load q ;;
  (if nothrow_move_assign then ret tt else fault_point) ;;
  store p y ;;
  store q (moved_from y).

(** [*q = std::move(tmp)] for the local [tmp]. *)
Definition move_assign_local (q : pointer) (tmp : T) : M unit :=
  (if nothrow_move_assign then ret tt else fault_point) ;;
  store q tmp.

(** The generic [std::swap( *p, *q )]:
    [T tmp(std::move( *p )); *p = std::move( *q ); *q = std::move(tmp);].
    Each of the three steps may throw, and the steps before it stay
    done. *)
Definition std_swap (p q : pointer) : M unit :=
  tmp <- move_from p ;;
  move_assign p q ;;
  move_assign_local q tmp.

(** [std::iter_swap(p, q)], that is [swap( *p, *q )] with the element
    type's own [swap] when it has one, which exchanges the two elements
    and cannot throw, and the generic [std::swap] otherwise. *)
Definition iter_swap (p q : pointer) : M unit :=
  if own_swap then
    x <- load p ;;
    y <- load q ;;
    store p y ;;
    store q x
  else std_swap p q.

(** [q - p] for pointers into the same block. *)
Definition ptr_diff (q p : pointer) : M Z :=
  if bool_decide (blk q = blk p) then ret (off q - off p) else abort BadPointer.

(** *** Loops *)

(** [for (size_t i = i0; i < i0 + count; i++) body(i)] *)
Fixpoint for_loop (count : nat) (i : Z) (body : Z -> M unit) : M unit :=
  match count with
  | O => ret tt
  | S c => body i ;; for_loop c (wrap (i + 1)) body
  end.

(** [for (size_t i = 0; i < n; i++) body(i)], [n] not changed by [body]. *)
Definition for_upto (n : Z) (body : Z -> M unit) : M unit :=
  for_loop (Z.to_nat n) 0 body.

(** [for (size_t j = i; j > 0; --j) body(j)] *)
Fixpoint for_down (j : nat) (body : Z -> M unit) : M unit :=
  match j with
  | O => ret tt
  | S j' => body (Z.of_nat j) ;; for_down j' body
  end.
End Primitives.

Global Arguments cref : clear implicits.

(** ** The methods of [vector<T>] *)

Module vector.
Section Methods.
Context {T : Type} `{Element T}.
Local Abbreviation M := (M T).

(** [size()] *)
Definition size (this : loc) : M Z :=
  v <- get_obj this ;; ret (size_ v).

(** [capacity()] *)
Definition capacity (this : loc) : M Z :=
  v <- get_obj this ;; ret (capacity_ v).

(** [data()] *)
Definition data (this : loc) : M pointer :=
  v <- get_obj this ;; ret (data_ v).

(** [empty()] *)
Definition empty (this : loc) : M bool :=
  sz <- size this ;; ret (sz =? 0).

(** [begin()] *)
Definition begin (this : loc) : M pointer :=
  v <- get_obj this ;; ret (data_ v).

(** [end()] *)
Definition end_ (this : loc) : M pointer :=
  v <- get_obj this ;; ret (ptr_add (data_ v) (size_ v)).

(** [operator[](index)]: the reference [data_[index]]. *)
Definition subscript (this : loc) (index : Z) : M pointer :=
  v <- get_obj this ;; ret (ptr_add (data_ v) index).

(** [front()]: the reference [*begin()]. *)
Definition front (this : loc) : M pointer := begin this.

(** [back()]: the reference [*(end() - 1)]. *)
Definition back (this : loc) : M pointer :=
  e <- end_ this ;; ret (ptr_add e (-1)).

Definition set_data_ (this : loc) (p : pointer) : M unit :=
  v <- get_obj this ;; put_obj this (Vec p (size_ v) (capacity_ v)).
Definition set_size_ (this : loc) (n : Z) : M unit :=
  v <- get_obj this ;; put_obj this (Vec (data_ v) n (capacity_ v)).
Definition set_capacity_ (this : loc) (n : Z) : M unit :=
  v <- get_obj this ;; put_obj this (Vec (data_ v) (size_ v) n).

(** [vector() noexcept = default] *)
Definition vector_default (this : loc) : M unit := ret tt.

(** The body of the loop of the private constructor:
    [try { new (data_ + i) T(other[i]); }
     catch (...) { for (size_t j = i; j > 0; --j) data_[j - 1].~T();
                   operator delete(data_); throw; }] *)
Definition copy_element (this other : loc) (i : Z) : M unit :=
  catch
    (src <- subscript other i ;;
     x <- copy_T (RefSlot src) ;;
     d <- data this ;;
     construct_at (ptr_add d i) x)
    (for_down (Z.to_nat i) (fun j =>
       d <- data this ;;
       destroy_at (ptr_add d (j - 1))) ;;
     d <- data this ;;
     operator_delete d ;;
     throw).

(** The private [vector(const vector& other, size_t new_capacity)]. *)
Definition vector_copy_cap (this other : loc) (new_capacity : Z) : M unit :=
  if (new_capacity =? 0) || bool_decide (other = this) then ret tt
  else
    p <- operator_new new_capacity ;;
    set_data_ this p ;;
    n <- size other ;;
    for_upto n (copy_element this other) ;;
    set_capacity_ this new_capacity ;;
    n' <- size other ;;
    set_size_ this n'.

(** [vector(const vector& other) : vector(other, other.size())] *)
Definition vector_copy (this other : loc) : M unit :=
  n <- size other ;;
  vector_copy_cap this other n.

(** [vector(vector&& other)] *)
Definition vector_move (this other : loc) : M unit :=
  o <- get_obj other ;;
  put_obj other (Vec nullptr (size_ o) (capacity_ o)) ;;
  set_data_ this (data_ o) ;;
  o <- get_obj other ;;
  put_obj other (Vec (data_ o) 0 (capacity_ o)) ;;
  set_size_ this (size_ o) ;;
  o <- get_obj other ;;
  put_obj other (Vec (data_ o) (size_ o) 0) ;;
  set_capacity_ this (capacity_ o).

(** [swap(other)] *)
Definition swap (this other : loc) : M unit :=
  a <- get_obj this ;; b <- get_obj other ;;
  set_data_ this (data_ b) ;; set_data_ other (data_ a) ;;
  a <- get_obj this ;; b <- get_obj other ;;
  set_size_ this (size_ b) ;; set_size_ other (size_ a) ;;
  a <- get_obj this ;; b <- get_obj other ;;
  set_capacity_ this (capacity_ b) ;; set_capacity_ other (capacity_ a).

(** [pop_back()] *)
Definition pop_back (this : loc) : M unit :=
  b <- back this ;;
  destroy_at b ;;
  sz <- size this ;;
  set_size_ this (wrap (sz - 1)).

(** [clear()] *)
Definition clear (this : loc) : M unit :=
  sz <- size this ;;
  for_upto sz (fun _ => pop_back this) ;;
  set_size_ this 0.

(** [~vector()] *)
Definition destructor (this : loc) : M unit :=
  clear this ;;
  d <- data this ;;
  operator_delete d ;;
  set_data_ this nullptr.

(** A temporary or local [vector]: its storage, its constructor, the code
    that uses it, its destructor.  A constructor that throws leaves no
    object, so no destructor runs; an exception in [body] unwinds through
    the destructor. *)
Definition with_temp {A} (ctor : loc -> M unit) (body : loc -> M A) : M A :=
  tmp <- new_obj ;;
  catch (ctor tmp) (del_obj tmp ;; throw) ;;
  r <- catch (body tmp) (destructor tmp ;; del_obj tmp ;; throw) ;;
  destructor tmp ;;
  del_obj tmp ;;
  ret r.

(** A declaration [vector<T> v(...)]: storage for the object, then the
    constructor.  When the constructor throws there is no object. *)
Definition declare (ctor : loc -> M unit) : M loc :=
  this <- new_obj ;;
  catch (ctor this) (del_obj this ;; throw) ;;
  ret this.

(** The end of the lifetime of a declared vector. *)
Definition destroy (this : loc) : M unit :=
  destructor this ;;
  del_obj this.

(** [push_back(T value)]: [value] is the parameter, already constructed
    by the caller.  The recursion of the source ([tmp.push_back]) is
    bounded by [fuel]. *)
Fixpoint push_back (fuel : nat) (this : loc) (value : T) : M unit :=
  sz <- size this ;;
  cap <- capacity this ;;
  if sz <? cap then
    d <- data this ;;
    x <- move_T value ;;
    construct_at (ptr_add d sz) x ;;
    sz' <- size this ;;
    set_size_ this (wrap (sz' + 1))
  else
    let new_capacity := if cap =? 0 then 1 else wrap (cap * 2 + 1) in
    with_temp
      (fun tmp => vector_copy_cap tmp this new_capacity)
      (fun tmp =>
         match fuel with
         | O => abort NoFuel
         | S fuel' =>
             arg <- move_T value ;;
             push_back fuel' tmp arg
         end ;;
         swap this tmp).

(** The call [v.push_back(r)] with an lvalue: the parameter is
    copy-constructed from [r] before the body runs. *)
Definition push_back_lvalue (fuel : nat) (this : loc) (r : cref T) : M unit :=
  value <- copy_T r ;;
  push_back fuel this value.

(** [reserve(new_capacity)] *)
Definition reserve (this : loc) (new_capacity : Z) : M unit :=
  cap <- capacity this ;;
  if new_capacity >? cap then
    with_temp (fun tmp => vector_copy_cap tmp this new_capacity)
              (fun tmp => swap tmp this)
  else ret tt.

(** [shrink_to_fit()] *)
Definition shrink_to_fit (this : loc) : M unit :=
  sz <- size this ;;
  cap <- capacity this ;;
  if negb (sz =? cap) then
    sz' <- size this ;;
    with_temp (fun tmp => vector_copy_cap tmp this sz')
              (fun tmp => swap tmp this)
  else ret tt.

(** [operator=(const vector& other)] *)
Definition assign_copy (this other : loc) : M unit :=
  if bool_decide (other = this) then ret tt
  else with_temp (fun tmp => vector_copy tmp other)
                 (fun tmp => swap tmp this).

(** [operator=(vector&& other)] *)
Definition assign_move (this other : loc) : M unit :=
  if bool_decide (other = this) then ret tt
  else
    with_temp vector_default (fun tmp => swap tmp this) ;;
    swap other this.

(** The loop of [insert]:
    [for (ptr = end() - 1; ptr != data() + index; ptr--) iter_swap(ptr, ptr - 1)].
    [ptr] moves down, and below offset 0 the swap has no defined
    behaviour, so [n] iterations with [n] above the offset of [ptr] are
    all the loop can make. *)
Fixpoint insert_loop (n : nat) (ptr target : pointer) : M unit :=
  if bool_decide (ptr = target) then ret tt
  else match n with
       | O => abort NoFuel
       | S n' =>
           iter_swap ptr (ptr_add ptr (-1)) ;;
           insert_loop n' (ptr_add ptr (-1)) target
       end.

(** [insert(pos, value)] *)
Definition insert (fuel : nat) (this : loc) (pos : pointer) (value : cref T) : M pointer :=
  b <- begin this ;;
  index <- ptr_diff pos b ;;
  let index := wrap index in
  push_back_lvalue fuel this value ;;
  e <- end_ this ;;
  d <- data this ;;
  insert_loop (S (Z.to_nat (off e))) (ptr_add e (-1)) (ptr_add d index) ;;
  d <- data this ;;
  ret (ptr_add d index).

(** The body of the first loop of [erase]:
    [std::swap(data_[l_index + i], data_[f_index + i])]. *)
Definition erase_swap (this : loc) (f_index l_index i : Z) : M unit :=
  d <- data this ;;
  std_swap (ptr_add d (wrap (l_index + i))) (ptr_add d (wrap (f_index + i))).

(** [erase(first, last)] *)
Definition erase_range (this : loc) (first last : pointer) : M pointer :=
  b <- begin this ;;
  f_index <- ptr_diff first b ;;
  let f_index := wrap f_index in
  b <- begin this ;;
  l_index <- ptr_diff last b ;;
  let l_index := wrap l_index in
  diff <- ptr_diff last first ;;
  let diff := wrap diff in
  sz <- size this ;;
  for_upto (wrap (sz - l_index)) (erase_swap this f_index l_index) ;;
  for_upto diff (fun _ => pop_back this) ;;
  b <- begin this ;;
  ret (ptr_add b f_index).

(** [erase(pos)] *)
Definition erase (this : loc) (pos : pointer) : M pointer :=
  erase_range this pos (ptr_add pos 1).
End Methods.
End vector.

(** ** Specifications *)

Section Representation.
Context {T : Type}.

(** The contents of the block of a vector that holds [xs] with capacity
    [cap]: the elements, then raw slots. *)
Definition slots (xs : list T) (cap : Z) : list (option T) :=
  (Some <$> xs) ++ replicate (Z.to_nat cap - length xs) None.

(** The object [v] is a well-formed vector that holds the elements [xs]
    in the heap [h]. *)
Definition owns (h : gmap block (list (option T))) (v : vec) (xs : list T) : Prop :=
  size_ v = Z.of_nat (length xs) ∧
  size_ v <= capacity_ v < SIZE_MOD ∧
  off (data_ v) = 0 ∧
  match blk (data_ v) with
  | None => capacity_ v = 0
  | Some b => 0 < capacity_ v ∧ h !! b = Some (slots xs (capacity_ v))
  end.

(** The element a pointer designates, if any. *)
Definition deref (h : gmap block (list (option T))) (p : pointer) : option T :=
  match blk p with
  | None => None
  | Some b =>
      match h !! b with
      | None => None
      | Some s => if off p <? 0 then None else mjoin (s !! Z.to_nat (off p))
      end
  end.

(** The value a reference designates, if any. *)
Definition refers (h : gmap block (list (option T))) (r : cref T) : option T :=
  match r with
  | RefSlot p => deref h p
  | RefLocal x => Some x
  end.

(** The heap once the block of [v] holds [xs]. *)
Definition stored (h : gmap block (list (option T))) (v : vec) (xs : list T) :=
  match blk (data_ v) with
  | Some b => <[b := slots xs (capacity_ v)]> h
  | None => h
  end.

(** The heap once the block of [v] is released. *)
Definition released (h : gmap block (list (option T))) (v : vec) :=
  match blk (data_ v) with
  | Some b => delete b h
  | None => h
  end.

(** The world once the storage of the object [tmp] is gone. *)
Definition without (tmp : loc) (w : world T) : world T :=
  set_objs (delete tmp (objs w)) w.

(** What a fault point does with the plan [p]. *)
Definition fires (p : list bool) : bool :=
  match p with
  | true :: _ => true
  | _ => false
  end.

(** Weakest precondition of a computation: [Q] on normal return, [E]
    when it throws; undefined behaviour is excluded. *)
Definition wp {A} (m : M T A) (w : world T)
    (Q : A -> world T -> Prop) (E : world T -> Prop) : Prop :=
  match m w with
  | Ret a w' => Q a w'
  | Throw w' => E w'
  | Abort _ => False
  end.

(** No fault is injected from [w] on. *)
Definition fault_free (w : world T) : Prop := Forall (fun f => f = false) (plan w).

(** A computation is quiet when it throws only if a fault is injected:
    from a fault-free world it does not throw, and the world it returns
    is fault-free again. *)
Definition quiet {A} (m : M T A) : Prop :=
  forall w, fault_free w ->
    match m w with
    | Ret _ w' => fault_free w'
    | Throw _ => False
    | Abort _ => True
    end.

(** Computations that never throw and leave the plan alone. *)
Definition silent {A} (m : M T A) : Prop :=
  forall w,
    match m w with
    | Ret _ w' => plan w' = plan w
    | Throw _ => False
    | Abort _ => True
    end.

(** How [push_back] and [insert] change the object [v] and the heap [h]
    when they return: with spare capacity the new contents [zs] are in
    the block of [v]; without, they are in a fresh block of
    [2 * capacity + 1] slots and the block of [v] is released. *)
Definition grown (h : gmap block (list (option T))) (v : vec)
    (h' : gmap block (list (option T))) (v' : vec) (zs : list T) : Prop :=
  (size_ v < capacity_ v /\
   v' = Vec (data_ v) (size_ v + 1) (capacity_ v) /\
   h' = stored h v zs) \/
  (size_ v = capacity_ v /\
   v' = Vec (Ptr (Some (fresh (dom h))) 0) (size_ v + 1) (2 * capacity_ v + 1) /\
   h' = released (<[fresh (dom h) := slots zs (2 * capacity_ v + 1)]> h) v).

(** Every vector object is well formed, and no block belongs to two of
    them. *)
Definition consistent (h : gmap block (list (option T))) (o : gmap loc vec) : Prop :=
  (forall this v, o !! this = Some v -> exists xs, owns h v xs) /\
  (forall l1 l2 v1 v2 b,
     o !! l1 = Some v1 -> o !! l2 = Some v2 ->
     blk (data_ v1) = Some b -> blk (data_ v2) = Some b -> l1 = l2).
(** The vectors of a world are consistent. *)
Definition consistent_world (w : world T) : Prop := consistent (heap w) (objs w).
End Representation.

(** ** Programs that use vectors *)

Section Calls.
Context {T : Type} `{Element T}.
Local Abbreviation M := (M T).

(** The accessors, which leave the world as it is. *)
Inductive query :=
| QSize | QCapacity | QEmpty | QData | QBegin | QEnd | QFront | QBack
| QSubscript (index : Z).

(** The public operations, as a caller writes them.  Positions are
    given as indices from [begin()]. *)
Inductive call :=
| Declare_default
| Declare_copy (other : loc)
| Declare_move (other : loc)
| Destroy (this : loc)
| Assign_copy (this other : loc)
| Assign_move (this other : loc)
| Push_back (this : loc) (value : T)
| Push_back_lvalue (this : loc) (r : cref T)
| Pop_back (this : loc)
| Reserve (this : loc) (n : Z)
| Shrink_to_fit (this : loc)
| Clear (this : loc)
| Swap (this other : loc)
| Insert (this : loc) (index : nat) (r : cref T)
| Erase (this : loc) (index : nat)
| Erase_range (this : loc) (first last : nat)
| Observe (this : loc) (q : query).

Definition observe (this : loc) (q : query) : M unit :=
  match q with
  | QSize => vector.size this ;; ret tt
  | QCapacity => vector.capacity this ;; ret tt
  | QEmpty => vector.empty this ;; ret tt
  | QData => vector.data this ;; ret tt
  | QBegin => vector.begin this ;; ret tt
  | QEnd => vector.end_ this ;; ret tt
  | QFront => vector.front this ;; ret tt
  | QBack => vector.back this ;; ret tt
  | QSubscript index => vector.subscript this index ;; ret tt
  end.

Definition run (fuel : nat) (c : call) : M unit :=
  match c with
  | Declare_default => vector.declare vector.vector_default ;; ret tt
  | Declare_copy other =>
      vector.declare (fun this => vector.vector_copy this other) ;; ret tt
  | Declare_move other =>
      vector.declare (fun this => vector.vector_move this other) ;; ret tt
  | Destroy this => vector.destroy this
  | Assign_copy this other => vector.assign_copy this other
  | Assign_move this other => vector.assign_move this other
  | Push_back this value => vector.push_back fuel this value
  | Push_back_lvalue this r => vector.push_back_lvalue fuel this r
  | Pop_back this => vector.pop_back this
  | Reserve this n => vector.reserve this n
  | Shrink_to_fit this => vector.shrink_to_fit this
  | Clear this => vector.clear this
  | Swap this other => vector.swap this other
  | Insert this index r =>
      b <- vector.begin this ;;
      vector.insert fuel this (ptr_add b (Z.of_nat index)) r ;; ret tt
  | Erase this index =>
      b <- vector.begin this ;;
      vector.erase this (ptr_add b (Z.of_nat index)) ;; ret tt
  | Erase_range this first last =>
      b <- vector.begin this ;;
      vector.erase_range this (ptr_add b (Z.of_nat first)) (ptr_add b (Z.of_nat last)) ;;
      ret tt
  | Observe this q => observe this q
  end.

(** The contract of each operation: the objects exist, positions and
    references are valid, sizes are [size_t] values, and the capacity
    asked for, by the caller of [reserve] or by growth, does not overflow
    [size_t], as a count and in bytes.  Outside it the behaviour is
    undefined. *)
Definition pre (c : call) (w : world T) : Prop :=
  match c with
  | Declare_default => True
  | Declare_copy other | Declare_move other => is_Some (objs w !! other)
  | Destroy this | Shrink_to_fit this | Clear this | Observe this _ =>
      is_Some (objs w !! this)
  | Assign_copy this other | Assign_move this other | Swap this other =>
      is_Some (objs w !! this) /\ is_Some (objs w !! other)
  | Push_back this _ =>
      exists v, objs w !! this = Some v /\ 2 * capacity_ v + 1 < SIZE_MOD /\
                fits (2 * capacity_ v + 1)
  | Push_back_lvalue this r =>
      exists v, objs w !! this = Some v /\ 2 * capacity_ v + 1 < SIZE_MOD /\
                fits (2 * capacity_ v + 1) /\ is_Some (refers (heap w) r)
  | Pop_back this => exists v, objs w !! this = Some v /\ 0 < size_ v
  | Reserve this n => is_Some (objs w !! this) /\ 0 <= n < SIZE_MOD /\ fits n
  | Insert this index r =>
      exists v, objs w !! this = Some v /\ Z.of_nat index <= size_ v /\
                2 * capacity_ v + 1 < SIZE_MOD /\ fits (2 * capacity_ v + 1) /\
                is_Some (refers (heap w) r)
  | Erase this index =>
      exists v, objs w !! this = Some v /\ Z.of_nat index < size_ v
  | Erase_range this first last =>
      exists v, objs w !! this = Some v /\
                (first <= last)%nat /\ Z.of_nat last <= size_ v
  end.

(** The worlds a program can reach from one without vectors, through
    calls that return and calls that throw. *)
Inductive reachable : world T -> Prop :=
| reach_start h p : reachable (World h ∅ p [] 0)
| reach_return w fuel c w' :
    reachable w -> pre c w -> run (S fuel) c w = Ret tt w' -> reachable w'
| reach_throw w fuel c w' :
    reachable w -> pre c w -> run (S fuel) c w = Throw w' -> reachable w'.
End Calls.

Global Arguments call : clear implicits.

(** ** Examples *)

(** An element type of eight bytes whose moves may throw and leave
    their source as it was, and that has a non-throwing swap of its
    own. *)
Definition Z_element : Element Z :=
  {| size_of := 8; size_of_pos := eq_refl;
     nothrow_move := false; nothrow_move_assign := false;
     own_swap := true; moved_from := fun x => x |}.

(** A full vector [10; 20] at address 0, its block at address 0. *)
Definition full_vec : vec := Vec (Ptr (Some 0%nat) 0) 2 2.
Definition full_world (plan : list bool) : world Z :=
  World {[0%nat := [Some 10; Some 20]]} {[0%nat := full_vec]} plan [] 0.

(** A vector [10; 20; 30] with one spare slot at address 0, and an empty
    vector at address 1. *)
Definition spare_vec : vec := Vec (Ptr (Some 0%nat) 0) 3 4.
Definition spare_world : world Z :=
  World {[0%nat := [Some 10; Some 20; Some 30; None]]}
        {[0%nat := spare_vec; 1%nat := vec_default]} [] [] 0.

(** The world a computation returns, [d] if it does not return. *)
Definition after {A} (o : outcome Z A) (d : world Z) : world Z :=
  match o with
  | Ret _ w => w
  | _ => d
  end.

Definition start_world : world Z := World ∅ ∅ [] [] 0.
Definition declared_world : world Z :=
  after (run (H := Z_element) 1 Declare_default start_world) start_world.
Definition pushed_world : world Z :=
  after (run (H := Z_element) 1 (Push_back 0%nat 7) declared_world) start_world.

(** What a caller can observe of the vector at [this]: its fields and the
    slots of its block. *)
Definition snapshot (w : world Z) (this : nat) : option (vec * list (option Z)) :=
  match objs w !! this with
  | Some v =>
      Some (v, match blk (data_ v) with
               | Some b => default [] (heap w !! b)
               | None => []
               end)
  | None => None
  end.

(** A program: calls in sequence, until one throws. *)
Fixpoint run_all (cs : list (call Z)) : M Z unit :=
  match cs with
  | [] => ret tt
  | c :: cs' => run (H := Z_element) 1 c ;; run_all cs'
  end.

(** [vector<T> a; a.push_back(1); ... a.push_back(9);] *)
Definition five_pushes : list (call Z) :=
  [Declare_default; Push_back 0%nat 1; Push_back 0%nat 3; Push_back 0%nat 5;
   Push_back 0%nat 7; Push_back 0%nat 9].

(** ** Traces and programs used by the further properties *)

(** The events of the destruction of the [n] elements of [v], last
    element first. *)
Definition destroyed (v : vec) (n : nat) : list event :=
  match blk (data_ v) with
  | Some b => EvDestroy b <$> reverse (seq 0 n)
  | None => []
  end.

(** The events of the release of the block of [v]. *)
Definition freed (v : vec) : list event :=
  match blk (data_ v) with
  | Some b => [EvDelete b]
  | None => []
  end.

(** The events of the construction of [n] elements of [v] in place,
    from index [start] on. *)
Definition constructed (v : vec) (start n : nat) : list event :=
  match blk (data_ v) with
  | Some b => EvConstruct b <$> seq start n
  | None => []
  end.

(** The capacity [n] calls of [push_back] give a vector that starts
    without storage: 0, 1, 3, 3, 7, 7, 7, 7, 15, ..., the least number
    of the form [2^k - 1] that is at least [n]. *)
Definition grown_capacity (n : nat) : Z :=
  if decide (n = 0%nat) then 0 else 2 ^ (Z.log2 (Z.of_nat n) + 1) - 1.

Section Programs.
Context {T : Type} `{Element T}.

(** [for (x : xs) v.push_back(x);] *)
Fixpoint push_back_all (fuel : nat) (this : nat) (xs : list T) : M T unit :=
  match xs with
  | [] => ret tt
  | x :: xs' => vector.push_back fuel this x ;; push_back_all fuel this xs'
  end.

(** Every block of the heap [h] is the storage of an object of [o]. *)
Definition tight (h : gmap nat (list (option T))) (o : gmap nat vec) : Prop :=
  forall b, is_Some (h !! b) ->
    exists this v, o !! this = Some v /\ blk (data_ v) = Some b.

(** No block of the world is lost: each is the storage of a vector. *)
Definition no_orphans (w : world T) : Prop := tight (heap w) (objs w).
End Programs.

(** An element type with a non-throwing move constructor, a throwing
    move assignment and no swap of its own: its swap is the generic one,
    and may throw.  A move leaves 0 in its source. *)
Definition Z_throwing_swap : Element Z :=
  {| size_of := 8; size_of_pos := eq_refl;
     nothrow_move := true; nothrow_move_assign := false;
     own_swap := false; moved_from := fun _ => 0 |}.

(** An element type whose moves cannot throw, without a swap of its
    own. *)
Definition Z_nothrow_move : Element Z :=
  {| size_of := 8; size_of_pos := eq_refl;
     nothrow_move := true; nothrow_move_assign := true;
     own_swap := false; moved_from := fun _ => 0 |}.

(** [spare_world] with planned faults. *)
Definition spare_world_with (faults : list bool) : world Z :=
  set_plan faults spare_world.

(** Two vectors with storage: [10; 20; 30] with one spare slot at
    address 0, and the full vector [7; 8] at address 1. *)
Definition short_vec : vec := Vec (Ptr (Some 1%nat) 0) 2 2.
Definition pair_world : world Z :=
  World {[0%nat := [Some 10; Some 20; Some 30; None]; 1%nat := [Some 7; Some 8]]}
        {[0%nat := spare_vec; 1%nat := short_vec]} [] [] 0.

(** * Proofs *)

(** Equality of object stores, by cases on the address looked up. *)
Ltac map_cases :=
  apply map_eq; intros ?i;
  repeat (rewrite lookup_delete || rewrite lookup_insert);
  repeat case_decide; simplify_eq; try reflexivity; try congruence.

(** ** Basic facts *)

Lemma wrap_small z : 0 <= z < SIZE_MOD -> wrap z = z.
Proof. intros Hz. unfold wrap. apply Z.mod_small. exact Hz. Qed.

Lemma SIZE_MOD_pos : 0 < SIZE_MOD.
Proof. reflexivity. Qed.

Section SlotFacts.
Context {T : Type}.
Implicit Types (xs : list T) (cap : Z).

Lemma slots_length xs cap :
  Z.of_nat (length xs) <= cap -> length (slots xs cap) = Z.to_nat cap.
Proof.
  intros Hle. unfold slots.
  rewrite length_app, length_fmap, length_replicate. lia.
Qed.

Lemma slots_lookup_live xs cap (i : nat) x :
  xs !! i = Some x -> slots xs cap !! i = Some (Some x).
Proof.
  intros Hx. unfold slots.
  rewrite lookup_app_l by (rewrite length_fmap; eapply lookup_lt_Some; eauto).
  rewrite list_lookup_fmap, Hx. reflexivity.
Qed.

Lemma slots_lookup_raw xs cap (i : nat) :
  (length xs <= i)%nat -> Z.of_nat i < cap -> slots xs cap !! i = Some None.
Proof.
  intros Hi Hc. unfold slots.
  rewrite lookup_app_r by (rewrite length_fmap; lia).
  rewrite length_fmap. apply lookup_replicate_2. lia.
Qed.

Lemma slots_lookup_inv xs cap (i : nat) x :
  slots xs cap !! i = Some (Some x) -> xs !! i = Some x.
Proof.
  unfold slots. intros Hl.
  destruct (decide (i < length xs)%nat) as [Hlt|Hge].
  - rewrite lookup_app_l in Hl by (rewrite length_fmap; lia).
    rewrite list_lookup_fmap in Hl.
    destruct (xs !! i); simpl in Hl; congruence.
  - rewrite lookup_app_r in Hl by (rewrite length_fmap; lia).
    apply lookup_replicate in Hl. destruct Hl; congruence.
Qed.

Lemma slots_nil cap : slots (@nil T) cap = replicate (Z.to_nat cap) None.
Proof. unfold slots. simpl. f_equal. lia. Qed.

Lemma slots_snoc xs cap x :
  Z.of_nat (length xs) < cap ->
  <[length xs := Some x]> (slots xs cap) = slots (xs ++ [x]) cap.
Proof.
  intros Hlt. unfold slots.
  rewrite insert_app_r_alt by (rewrite length_fmap; lia).
  rewrite length_fmap, Nat.sub_diag, fmap_app, length_app. simpl.
  destruct (Z.to_nat cap - length xs)%nat as [|k] eqn:Hk; [lia|].
  simpl. rewrite <- app_assoc. simpl. do 3 f_equal. lia.
Qed.

Lemma slots_pop xs cap x :
  Z.of_nat (length xs) < cap ->
  <[length xs := None]> (slots (xs ++ [x]) cap) = slots xs cap.
Proof.
  intros Hlt. unfold slots.
  rewrite fmap_app, <- app_assoc, length_app. simpl.
  rewrite insert_app_r_alt by (rewrite length_fmap; lia).
  rewrite length_fmap, Nat.sub_diag. simpl.
  destruct (Z.to_nat cap - length xs)%nat as [|k] eqn:Hk; [lia|].
  simpl. do 3 f_equal. lia.
Qed.

Lemma slots_insert xs cap (i : nat) x :
  (i < length xs)%nat ->
  <[i := Some x]> (slots xs cap) = slots (<[i := x]> xs) cap.
Proof.
  intros Hlt. unfold slots.
  rewrite insert_app_l by (rewrite length_fmap; lia).
  rewrite list_fmap_insert, length_insert. reflexivity.
Qed.

Lemma live_count_slots xs cap : live_count (slots xs cap) = length xs.
Proof.
  unfold live_count, slots. rewrite filter_app, length_app.
  assert (Hraw : forall n, filter is_Some (replicate n (@None T)) = []).
  { induction n as [|n IH]; [reflexivity|]. cbn [replicate].
    rewrite filter_cons_False; [exact IH|]. intros [? ?]; discriminate. }
  rewrite Hraw. simpl. rewrite Nat.add_0_r.
  induction xs as [|x xs IH]; [reflexivity|].
  rewrite fmap_cons, filter_cons_True by eauto. simpl. f_equal. exact IH.
Qed.
End SlotFacts.

(** ** Rules of the weakest precondition *)

Section WpRules.
Context {T : Type}.
Implicit Types (w : world T).

Lemma wp_ret {A} (a : A) w Q E : Q a w -> wp (ret a) w Q E.
Proof. intros HQ. exact HQ. Qed.

Lemma wp_throw {A} w (Q : A -> world T -> Prop) (E : world T -> Prop) :
  E w -> wp throw w Q E.
Proof. intros HE. exact HE. Qed.

Lemma wp_eq {A} (m : M T A) w a w' Q E :
  m w = Ret a w' -> Q a w' -> wp m w Q E.
Proof. intros Hm HQ. unfold wp. rewrite Hm. exact HQ. Qed.

Lemma wp_bind {A B} (m : M T A) (k : A -> M T B) w Q E :
  wp m w (fun a w' => wp (k a) w' Q E) E -> wp (bind m k) w Q E.
Proof. unfold wp, bind. destruct (m w); auto. Qed.

Lemma wp_bind_eq {A B} (m : M T A) (k : A -> M T B) w a w' Q E :
  m w = Ret a w' -> wp (k a) w' Q E -> wp (bind m k) w Q E.
Proof. intros Hm Hk. unfold wp, bind. rewrite Hm. exact Hk. Qed.

Lemma wp_mono {A} (m : M T A) w (Q Q' : A -> world T -> Prop) (E E' : world T -> Prop) :
  wp m w Q E ->
  (forall a w', Q a w' -> Q' a w') ->
  (forall w', E w' -> E' w') ->
  wp m w Q' E'.
Proof. unfold wp. destruct (m w); auto. Qed.

Lemma wp_catch {A} (m h : M T A) w Q E :
  wp m w Q (fun w' => wp h w' Q E) -> wp (catch m h) w Q E.
Proof. unfold wp, catch. destruct (m w); auto. Qed.

Lemma wp_conj {A} (m : M T A) w Q1 Q2 E1 E2 :
  wp m w Q1 E1 -> wp m w Q2 E2 ->
  wp m w (fun a w' => Q1 a w' /\ Q2 a w') (fun w' => E1 w' /\ E2 w').
Proof. unfold wp. destruct (m w); auto. Qed.
End WpRules.

(** ** The primitives on explicit worlds *)

Section PrimFacts.
Context {T : Type} `{Element T}.
Implicit Types (h : gmap nat (list (option T))) (o : gmap nat vec).
Implicit Types (p : list bool) (l : list event) (k : nat).
Implicit Types (s : list (option T)).

Lemma bind_Ret {A B} (m : M T A) (f : A -> M T B) (w w' : world T) a :
  m w = Ret a w' -> bind m f w = f a w'.
Proof. intros Hm. unfold bind. rewrite Hm. reflexivity. Qed.

Lemma bind_Throw {A B} (m : M T A) (f : A -> M T B) (w w' : world T) :
  m w = Throw w' -> bind m f w = Throw w'.
Proof. intros Hm. unfold bind. rewrite Hm. reflexivity. Qed.

Lemma get_obj_eq this v h o p l k :
  o !! this = Some v ->
  get_obj this (World h o p l k) = Ret v (World h o p l k).
Proof. intros Ho. unfold get_obj. simpl. rewrite Ho. reflexivity. Qed.

Lemma put_obj_eq this v0 v h o p l k :
  o !! this = Some v0 ->
  put_obj this v (World h o p l k) = Ret tt (World h (<[this := v]> o) p l k).
Proof. intros Ho. unfold put_obj. simpl. rewrite Ho. reflexivity. Qed.

Lemma new_obj_eq h o p l k :
  new_obj (World h o p l k)
  = Ret (fresh (dom o)) (World h (<[fresh (dom o) := vec_default]> o) p l k).
Proof. reflexivity. Qed.

Lemma del_obj_eq this h o p l k :
  del_obj this (World h o p l k) = Ret tt (World h (delete this o) p l k).
Proof. reflexivity. Qed.

Lemma size_eq this v h o p l k :
  o !! this = Some v ->
  vector.size this (World h o p l k) = Ret (size_ v) (World h o p l k).
Proof. intros Ho. unfold vector.size. erewrite bind_Ret by (apply get_obj_eq; eauto). reflexivity. Qed.

Lemma capacity_eq this v h o p l k :
  o !! this = Some v ->
  vector.capacity this (World h o p l k) = Ret (capacity_ v) (World h o p l k).
Proof. intros Ho. unfold vector.capacity. erewrite bind_Ret by (apply get_obj_eq; eauto). reflexivity. Qed.

Lemma data_eq this v h o p l k :
  o !! this = Some v ->
  vector.data this (World h o p l k) = Ret (data_ v) (World h o p l k).
Proof. intros Ho. unfold vector.data. erewrite bind_Ret by (apply get_obj_eq; eauto). reflexivity. Qed.

Lemma begin_eq this v h o p l k :
  o !! this = Some v ->
  vector.begin this (World h o p l k) = Ret (data_ v) (World h o p l k).
Proof. intros Ho. unfold vector.begin. erewrite bind_Ret by (apply get_obj_eq; eauto). reflexivity. Qed.

Lemma end_eq this v h o p l k :
  o !! this = Some v ->
  vector.end_ this (World h o p l k)
  = Ret (ptr_add (data_ v) (size_ v)) (World h o p l k).
Proof. intros Ho. unfold vector.end_. erewrite bind_Ret by (apply get_obj_eq; eauto). reflexivity. Qed.

Lemma subscript_eq this index v h o p l k :
  o !! this = Some v ->
  vector.subscript this index (World h o p l k)
  = Ret (ptr_add (data_ v) index) (World h o p l k).
Proof. intros Ho. unfold vector.subscript. erewrite bind_Ret by (apply get_obj_eq; eauto). reflexivity. Qed.

Lemma back_eq this v h o p l k :
  o !! this = Some v ->
  vector.back this (World h o p l k)
  = Ret (ptr_add (ptr_add (data_ v) (size_ v)) (-1)) (World h o p l k).
Proof. intros Ho. unfold vector.back. erewrite bind_Ret by (apply end_eq; eauto). reflexivity. Qed.

Lemma set_data_eq this q v h o p l k :
  o !! this = Some v ->
  vector.set_data_ this q (World h o p l k)
  = Ret tt (World h (<[this := Vec q (size_ v) (capacity_ v)]> o) p l k).
Proof.
  intros Ho. unfold vector.set_data_.
  erewrite bind_Ret by (apply get_obj_eq; eauto).
  eapply put_obj_eq; eauto.
Qed.

Lemma set_size_eq this n v h o p l k :
  o !! this = Some v ->
  vector.set_size_ this n (World h o p l k)
  = Ret tt (World h (<[this := Vec (data_ v) n (capacity_ v)]> o) p l k).
Proof.
  intros Ho. unfold vector.set_size_.
  erewrite bind_Ret by (apply get_obj_eq; eauto).
  eapply put_obj_eq; eauto.
Qed.

Lemma set_capacity_eq this n v h o p l k :
  o !! this = Some v ->
  vector.set_capacity_ this n (World h o p l k)
  = Ret tt (World h (<[this := Vec (data_ v) (size_ v) n]> o) p l k).
Proof.
  intros Ho. unfold vector.set_capacity_.
  erewrite bind_Ret by (apply get_obj_eq; eauto).
  eapply put_obj_eq; eauto.
Qed.

Lemma locate_eq b z s h o p l k :
  h !! b = Some s -> 0 <= z -> (Z.to_nat z < length s)%nat ->
  locate (Ptr (Some b) z) (World h o p l k)
  = Ret (b, Z.to_nat z, s) (World h o p l k).
Proof.
  intros Hh Hz Hlt. unfold locate. simpl. rewrite Hh.
  destruct (Z.ltb_spec z 0) as [?|_]; [lia|].
  destruct (Nat.ltb_spec (Z.to_nat z) (length s)) as [_|?]; [reflexivity|lia].
Qed.

Lemma load_eq b z s x h o p l k :
  h !! b = Some s -> 0 <= z -> s !! Z.to_nat z = Some (Some x) ->
  load (Ptr (Some b) z) (World h o p l k) = Ret x (World h o p l k).
Proof.
  intros Hh Hz Hs. unfold load.
  erewrite bind_Ret by (apply locate_eq; eauto; eapply lookup_lt_Some; eauto).
  simpl. rewrite Hs. reflexivity.
Qed.

Lemma set_slot_eq b i v s h o p l k :
  h !! b = Some s ->
  set_slot b i v (World h o p l k) = Ret tt (World (<[b := <[i := v]> s]> h) o p l k).
Proof. intros Hh. unfold set_slot. simpl. rewrite Hh. reflexivity. Qed.

Lemma store_eq b z s x0 x h o p l k :
  h !! b = Some s -> 0 <= z -> s !! Z.to_nat z = Some (Some x0) ->
  store (Ptr (Some b) z) x (World h o p l k)
  = Ret tt (World (<[b := <[Z.to_nat z := Some x]> s]> h) o p l k).
Proof.
  intros Hh Hz Hs. unfold store.
  erewrite bind_Ret by (apply locate_eq; eauto; eapply lookup_lt_Some; eauto).
  simpl. rewrite Hs. apply set_slot_eq. exact Hh.
Qed.

Lemma construct_at_eq b z s x h o p l k :
  h !! b = Some s -> 0 <= z -> s !! Z.to_nat z = Some None ->
  construct_at (Ptr (Some b) z) x (World h o p l k)
  = Ret tt (World (<[b := <[Z.to_nat z := Some x]> s]> h) o p
              (l ++ [EvConstruct b (Z.to_nat z)]) k).
Proof.
  intros Hh Hz Hs. unfold construct_at.
  erewrite bind_Ret by (apply locate_eq; eauto; eapply lookup_lt_Some; eauto).
  simpl. rewrite Hs.
  erewrite bind_Ret by (apply set_slot_eq; eauto). reflexivity.
Qed.

Lemma destroy_at_eq b z s x h o p l k :
  h !! b = Some s -> 0 <= z -> s !! Z.to_nat z = Some (Some x) ->
  destroy_at (Ptr (Some b) z) (World h o p l k)
  = Ret tt (World (<[b := <[Z.to_nat z := None]> s]> h) o p
              (l ++ [EvDestroy b (Z.to_nat z)]) k).
Proof.
  intros Hh Hz Hs. unfold destroy_at.
  erewrite bind_Ret by (apply locate_eq; eauto; eapply lookup_lt_Some; eauto).
  simpl. rewrite Hs.
  erewrite bind_Ret by (apply set_slot_eq; eauto). reflexivity.
Qed.

Lemma fault_point_eq h o p l k :
  fault_point (World h o p l k)
  = if fires p then Throw (World h o (tail p) l k)
    else Ret tt (World h o (tail p) l k).
Proof. destruct p as [|[] p']; reflexivity. Qed.

Lemma operator_new_eq n h o p l k :
  operator_new n (World h o p l k)
  = if fires p then Throw (World h o (tail p) l k)
    else Ret (Ptr (Some (fresh (dom h))) 0)
           (World (<[fresh (dom h) := replicate (Z.to_nat n) None]> h) o (tail p)
              (l ++ [EvNew (fresh (dom h)) n]) k).
Proof.
  unfold operator_new, bind. rewrite fault_point_eq.
  destruct (fires p); reflexivity.
Qed.

Lemma operator_delete_eq b s h o p l k :
  h !! b = Some s ->
  operator_delete (Ptr (Some b) 0) (World h o p l k)
  = Ret tt (World (delete b h) o p (l ++ [EvDelete b]) (k + live_count s)).
Proof. intros Hh. unfold operator_delete. simpl. rewrite Hh. reflexivity. Qed.

Lemma operator_delete_null h o p l k :
  operator_delete nullptr (World h o p l k) = Ret tt (World h o p l k).
Proof. reflexivity. Qed.

Lemma load_deref r x h o p l k :
  deref h r = Some x -> load r (World h o p l k) = Ret x (World h o p l k).
Proof.
  intros Hd. unfold deref in Hd. destruct r as [[b|] z]; simpl in Hd; [|discriminate].
  destruct (h !! b) as [s|] eqn:Hh; [|discriminate].
  destruct (Z.ltb_spec z 0) as [?|Hz]; [discriminate|].
  destruct (s !! Z.to_nat z) as [[y|]|] eqn:Hs; simpl in Hd; try discriminate.
  injection Hd as ->. eapply load_eq; eauto.
Qed.

Lemma read_eq r x h o p l k :
  refers h r = Some x -> read r (World h o p l k) = Ret x (World h o p l k).
Proof.
  destruct r as [q|y]; simpl; intros Hr.
  - apply load_deref. exact Hr.
  - injection Hr as ->. reflexivity.
Qed.

Lemma copy_T_eq r x h o p l k :
  refers h r = Some x ->
  copy_T r (World h o p l k)
  = if fires p then Throw (World h o (tail p) l k)
    else Ret x (World h o (tail p) l k).
Proof.
  intros Hd. unfold copy_T.
  rewrite (bind_Ret _ _ _ _ _ (read_eq _ _ _ _ _ _ _ Hd)).
  unfold bind. rewrite fault_point_eq. destruct (fires p); reflexivity.
Qed.

Lemma move_T_eq (value : T) h o p l k :
  move_T value (World h o p l k)
  = if negb nothrow_move && fires p then Throw (World h o (tail p) l k)
    else Ret value (World h o (if nothrow_move then p else tail p) l k).
Proof.
  unfold move_T, bind. destruct nothrow_move; simpl; [reflexivity|].
  rewrite fault_point_eq. destruct (fires p); reflexivity.
Qed.

Lemma move_from_eq b z s x h o p l k :
  h !! b = Some s -> 0 <= z -> s !! Z.to_nat z = Some (Some x) ->
  move_from (Ptr (Some b) z) (World h o p l k)
  = if negb nothrow_move && fires p then Throw (World h o (tail p) l k)
    else Ret x (World (<[b := <[Z.to_nat z := Some (moved_from x)]> s]> h)
                  o (if nothrow_move then p else tail p) l k).
Proof.
  intros Hh Hz Hx. unfold move_from.
  erewrite bind_Ret by (eapply load_eq; eauto).
  destruct nothrow_move; simpl.
  - unfold bind at 1. simpl.
    erewrite bind_Ret by (eapply store_eq; eauto). reflexivity.
  - unfold bind at 1. rewrite fault_point_eq. destruct (fires p); [reflexivity|].
    erewrite bind_Ret by (eapply store_eq; eauto). reflexivity.
Qed.

Lemma move_assign_eq b z1 z2 s x y h o p l k :
  h !! b = Some s -> 0 <= z1 -> 0 <= z2 ->
  s !! Z.to_nat z1 = Some (Some x) -> s !! Z.to_nat z2 = Some (Some y) ->
  move_assign (Ptr (Some b) z1) (Ptr (Some b) z2) (World h o p l k)
  = if negb nothrow_move_assign && fires p then Throw (World h o (tail p) l k)
    else Ret tt (World (<[b := <[Z.to_nat z2 := Some (moved_from y)]>
                                 (<[Z.to_nat z1 := Some y]> s)]> h)
                   o (if nothrow_move_assign then p else tail p) l k).
Proof.
  intros Hh Hz1 Hz2 Hx Hy. unfold move_assign.
  erewrite bind_Ret by (eapply load_eq; eauto).
  assert (Hst : forall p',
    (store (Ptr (Some b) z1) y ;; store (Ptr (Some b) z2) (moved_from y)) (World h o p' l k)
    = Ret tt (World (<[b := <[Z.to_nat z2 := Some (moved_from y)]>
                              (<[Z.to_nat z1 := Some y]> s)]> h) o p' l k)).
  { intros p'. erewrite bind_Ret by (eapply store_eq; eauto).
    erewrite store_eq; [|apply lookup_insert_eq|exact Hz2|].
    - rewrite insert_insert_eq. reflexivity.
    - destruct (decide (Z.to_nat z1 = Z.to_nat z2)) as [He|Hne].
      + rewrite He. rewrite list_lookup_insert_eq by (eapply lookup_lt_Some; eauto). reflexivity.
      + rewrite list_lookup_insert_ne by exact Hne. exact Hy. }
  destruct nothrow_move_assign; simpl.
  - unfold bind at 1. simpl. apply Hst.
  - unfold bind at 1. rewrite fault_point_eq. destruct (fires p); [reflexivity|]. apply Hst.
Qed.

Lemma move_assign_local_eq b z s x (tmp : T) h o p l k :
  h !! b = Some s -> 0 <= z -> s !! Z.to_nat z = Some (Some x) ->
  move_assign_local (Ptr (Some b) z) tmp (World h o p l k)
  = if negb nothrow_move_assign && fires p then Throw (World h o (tail p) l k)
    else Ret tt (World (<[b := <[Z.to_nat z := Some tmp]> s]> h)
                   o (if nothrow_move_assign then p else tail p) l k).
Proof.
  intros Hh Hz Hx. unfold move_assign_local.
  destruct nothrow_move_assign; simpl.
  - unfold bind at 1. simpl. eapply store_eq; eauto.
  - unfold bind at 1. rewrite fault_point_eq. destruct (fires p); [reflexivity|].
    eapply store_eq; eauto.
Qed.

(** The generic swap of two live elements of a block: either it returns
    and the two have changed places, or one of its moves threw and the
    two slots hold what the moves made so far have left there. *)
Lemma std_swap_cases b z1 z2 s x y h o p l k :
  h !! b = Some s -> 0 <= z1 -> 0 <= z2 ->
  s !! Z.to_nat z1 = Some (Some x) -> s !! Z.to_nat z2 = Some (Some y) ->
  (exists p',
     std_swap (Ptr (Some b) z1) (Ptr (Some b) z2) (World h o p l k)
     = Ret tt (World (<[b := <[Z.to_nat z2 := Some x]> (<[Z.to_nat z1 := Some y]> s)]> h)
                 o p' l k)) \/
  (nothrow_move && nothrow_move_assign = false /\ exists p' x' y',
     std_swap (Ptr (Some b) z1) (Ptr (Some b) z2) (World h o p l k)
     = Throw (World (<[b := <[Z.to_nat z2 := Some y']> (<[Z.to_nat z1 := Some x']> s)]> h)
                o p' l k)).
Proof.
  intros Hh Hz1 Hz2 Hx Hy.
  pose proof (lookup_lt_Some _ _ _ Hx) as Hl1.
  pose proof (lookup_lt_Some _ _ _ Hy) as Hl2.
  remember (std_swap (Ptr (Some b) z1) (Ptr (Some b) z2) (World h o p l k)) as r eqn:Hr.
  unfold std_swap in Hr. unfold bind at 1 in Hr.
  rewrite (move_from_eq b z1 s x) in Hr by assumption.
  destruct (negb nothrow_move && fires p) eqn:Hf1.
  { right. split; [destruct nothrow_move; [discriminate|reflexivity]|].
    exists (tail p), x, y. rewrite Hr.
    rewrite (list_insert_id s (Z.to_nat z1)) by exact Hx.
    rewrite (list_insert_id s (Z.to_nat z2)) by exact Hy.
    rewrite insert_id by exact Hh. reflexivity. }
  cbv beta iota in Hr.
  set (s1 := <[Z.to_nat z1 := Some (moved_from x)]> s) in *.
  assert (Hs1z1 : s1 !! Z.to_nat z1 = Some (Some (moved_from x))).
  { unfold s1. apply list_lookup_insert_eq. exact Hl1. }
  assert (Hs1z2 : exists y1, s1 !! Z.to_nat z2 = Some (Some y1) /\
                    (Z.to_nat z1 <> Z.to_nat z2 -> y1 = y)).
  { destruct (decide (Z.to_nat z1 = Z.to_nat z2)) as [He|Hne].
    - exists (moved_from x). rewrite <- He. split; [exact Hs1z1|]. intros Hc. contradiction.
    - exists y. split; [|reflexivity]. unfold s1.
      rewrite list_lookup_insert_ne by exact Hne. exact Hy. }
  destruct Hs1z2 as (y1 & Hy1 & Hy1eq).
  set (p1 := if nothrow_move then p else tail p) in *.
  unfold bind at 1 in Hr.
  rewrite (move_assign_eq b z1 z2 s1 (moved_from x) y1) in Hr
    by (first [apply lookup_insert_eq | assumption]).
  rewrite insert_insert_eq in Hr.
  destruct (negb nothrow_move_assign && fires p1) eqn:Hf2.
  { right. split; [destruct nothrow_move_assign; [discriminate|apply andb_false_r]|].
    exists (tail p1), (moved_from x), y1. rewrite Hr. fold s1.
    rewrite (list_insert_id s1 (Z.to_nat z2)) by exact Hy1. reflexivity. }
  cbv beta iota in Hr.
  set (s2 := <[Z.to_nat z2 := Some (moved_from y1)]> (<[Z.to_nat z1 := Some y1]> s1)) in *.
  assert (Hs2 : s2 = <[Z.to_nat z2 := Some (moved_from y1)]> (<[Z.to_nat z1 := Some y1]> s)).
  { unfold s2, s1. rewrite list_insert_insert_eq. reflexivity. }
  assert (Hs2z2 : s2 !! Z.to_nat z2 = Some (Some (moved_from y1))).
  { unfold s2. apply list_lookup_insert_eq. rewrite length_insert.
    unfold s1. rewrite length_insert. exact Hl2. }
  set (p2 := if nothrow_move_assign then p1 else tail p1) in *.
  rewrite (move_assign_local_eq b z2 s2 (moved_from y1)) in Hr
    by (first [apply lookup_insert_eq | assumption]).
  rewrite insert_insert_eq in Hr.
  destruct (negb nothrow_move_assign && fires p2) eqn:Hf3.
  { right. split; [destruct nothrow_move_assign; [discriminate|apply andb_false_r]|].
    exists (tail p2), y1, (moved_from y1). rewrite Hr, Hs2. reflexivity. }
  left. exists (if nothrow_move_assign then p2 else tail p2). rewrite Hr.
  do 3 f_equal. rewrite Hs2. rewrite list_insert_insert_eq.
  destruct (decide (Z.to_nat z1 = Z.to_nat z2)) as [He|Hne].
  - rewrite He. rewrite !list_insert_insert_eq. reflexivity.
  - rewrite (Hy1eq Hne). reflexivity.
Qed.

(** When a move of the element type can throw, the generic swap does
    throw at the first fault. *)
Lemma std_swap_throws b z1 z2 s x y h o l k :
  nothrow_move && nothrow_move_assign = false ->
  h !! b = Some s -> 0 <= z1 -> 0 <= z2 ->
  s !! Z.to_nat z1 = Some (Some x) -> s !! Z.to_nat z2 = Some (Some y) ->
  exists h',
    std_swap (Ptr (Some b) z1) (Ptr (Some b) z2) (World h o [true] l k)
    = Throw (World h' o [] l k).
Proof.
  intros Hns Hh Hz1 Hz2 Hx Hy.
  pose proof (lookup_lt_Some _ _ _ Hx) as Hl1.
  unfold std_swap. unfold bind at 1.
  rewrite (move_from_eq b z1 s x) by assumption.
  destruct nothrow_move; simpl in *; [|eexists; reflexivity].
  subst. unfold bind at 1.
  assert (Hy1 : exists y1, <[Z.to_nat z1 := Some (moved_from x)]> s !! Z.to_nat z2
                           = Some (Some y1)).
  { destruct (decide (Z.to_nat z1 = Z.to_nat z2)) as [He|Hne].
    - exists (moved_from x). rewrite <- He. apply list_lookup_insert_eq. exact Hl1.
    - exists y. rewrite list_lookup_insert_ne by exact Hne. exact Hy. }
  destruct Hy1 as [y1 Hy1].
  erewrite (move_assign_eq b z1 z2 _ (moved_from x) y1);
    [|apply lookup_insert_eq|exact Hz1|exact Hz2
     |apply list_lookup_insert_eq; exact Hl1|exact Hy1].
  rewrite Hns. simpl. eexists. reflexivity.
Qed.

(** [iter_swap] of two live elements of a block. *)
Lemma iter_swap_cases b z1 z2 s x y h o p l k :
  h !! b = Some s -> 0 <= z1 -> 0 <= z2 ->
  s !! Z.to_nat z1 = Some (Some x) -> s !! Z.to_nat z2 = Some (Some y) ->
  (exists p',
     iter_swap (Ptr (Some b) z1) (Ptr (Some b) z2) (World h o p l k)
     = Ret tt (World (<[b := <[Z.to_nat z2 := Some x]> (<[Z.to_nat z1 := Some y]> s)]> h)
                 o p' l k)) \/
  (nothrow_swap = false /\ exists p' x' y',
     iter_swap (Ptr (Some b) z1) (Ptr (Some b) z2) (World h o p l k)
     = Throw (World (<[b := <[Z.to_nat z2 := Some y']> (<[Z.to_nat z1 := Some x']> s)]> h)
                o p' l k)).
Proof.
  intros Hh Hz1 Hz2 Hx Hy. unfold iter_swap, nothrow_swap.
  destruct own_swap eqn:Hown.
  - left. exists p.
    erewrite bind_Ret by (eapply load_eq; eauto).
    erewrite bind_Ret by (eapply load_eq; eauto).
    erewrite bind_Ret by (eapply store_eq; eauto).
    erewrite store_eq; [|apply lookup_insert_eq|exact Hz2|].
    + rewrite insert_insert_eq. reflexivity.
    + destruct (decide (Z.to_nat z1 = Z.to_nat z2)) as [He|Hne].
      * rewrite He. rewrite list_lookup_insert_eq by (eapply lookup_lt_Some; eauto). reflexivity.
      * rewrite list_lookup_insert_ne by exact Hne. exact Hy.
  - simpl. apply std_swap_cases; assumption.
Qed.
End PrimFacts.

Section Teardown.
Context {T : Type} `{Element T}.
Implicit Types (h : gmap nat (list (option T))) (o : gmap nat vec).
Implicit Types (p : list bool) (l : list event) (k : nat).
Implicit Types (xs : list T).

Lemma pop_back_eq this b xs x sz cap h o p l k :
  o !! this = Some (Vec (Ptr (Some b) 0) sz cap) ->
  h !! b = Some (slots (xs ++ [x]) cap) ->
  sz = Z.of_nat (length xs) + 1 -> sz <= cap < SIZE_MOD ->
  vector.pop_back this (World h o p l k)
  = Ret tt (World (<[b := slots xs cap]> h)
              (<[this := Vec (Ptr (Some b) 0) (Z.of_nat (length xs)) cap]> o)
              p (l ++ [EvDestroy b (length xs)]) k).
Proof.
  intros Ho Hh Hsz Hcap. unfold vector.pop_back.
  erewrite bind_Ret by (apply back_eq; eauto).
  unfold ptr_add; simpl.
  replace (0 + sz + -1) with (sz - 1) by lia.
  assert (Hi : Z.to_nat (sz - 1) = length xs) by lia.
  erewrite bind_Ret; cycle 1.
  { eapply destroy_at_eq with (x := x); eauto; [lia|].
    rewrite Hi. apply slots_lookup_live.
    rewrite lookup_app_r by lia. rewrite Nat.sub_diag. reflexivity. }
  erewrite bind_Ret by (apply size_eq; eauto).
  erewrite set_size_eq by eauto. simpl.
  rewrite Hi, slots_pop by lia.
  rewrite wrap_small by lia.
  replace (sz - 1) with (Z.of_nat (length xs)) by lia. reflexivity.
Qed.

(** The loop of [clear]: [n] calls of [pop_back]. *)
Lemma pop_loop_eq this b cap n : forall xs i h o p l k,
  (n <= length xs)%nat ->
  o !! this = Some (Vec (Ptr (Some b) 0) (Z.of_nat (length xs)) cap) ->
  h !! b = Some (slots xs cap) ->
  Z.of_nat (length xs) <= cap < SIZE_MOD ->
  exists l',
    for_loop n i (fun _ => vector.pop_back this) (World h o p l k)
    = Ret tt (World (<[b := slots (take (length xs - n) xs) cap]> h)
                (<[this := Vec (Ptr (Some b) 0) (Z.of_nat (length xs - n)) cap]> o)
                p l' k).
Proof.
  induction n as [|n IH]; intros xs i h o p l k Hn Ho Hh Hcap.
  - exists l. simpl. unfold ret.
    rewrite Nat.sub_0_r, firstn_all, !insert_id by eauto. reflexivity.
  - destruct xs as [|x xs' _] using rev_ind; [simpl in Hn; lia|].
    rewrite length_app in *. simpl in *.
    cbn [for_loop].
    erewrite bind_Ret; cycle 1.
    { eapply pop_back_eq; eauto; lia. }
    destruct (IH xs' (wrap (i + 1)) (<[b := slots xs' cap]> h)
                (<[this := Vec (Ptr (Some b) 0) (Z.of_nat (length xs')) cap]> o)
                p (l ++ [EvDestroy b (length xs')]) k) as [l' Hl'].
    + lia.
    + apply lookup_insert_eq.
    + apply lookup_insert_eq.
    + lia.
    + exists l'. rewrite Hl'. rewrite !insert_insert_eq.
      replace (length xs' + 1 - S n)%nat with (length xs' - n)%nat by lia.
      rewrite take_app_le by lia. reflexivity.
Qed.

(** The rollback loop of the private constructor destroys the [j]
    elements constructed so far, last first. *)
Lemma destroy_loop_eq this b v cap j : forall xs h o p l k,
  length xs = j ->
  o !! this = Some v -> data_ v = Ptr (Some b) 0 ->
  h !! b = Some (slots xs cap) -> Z.of_nat j <= cap ->
  for_down j (fun jj => d <- vector.data this ;; destroy_at (ptr_add d (jj - 1)))
    (World h o p l k)
  = Ret tt (World (<[b := slots [] cap]> h) o p
              (l ++ (EvDestroy b <$> reverse (seq 0 j))) k).
Proof.
  induction j as [|j IH]; intros xs h o p l k Hlen Ho Hd Hh Hcap.
  - destruct xs; [|discriminate]. simpl. unfold ret.
    rewrite app_nil_r, insert_id by exact Hh. reflexivity.
  - destruct xs as [|x xs' _] using rev_ind; [discriminate|].
    rewrite length_app in Hlen. simpl in Hlen.
    assert (Hj : j = length xs') by lia. subst j. clear Hlen.
    cbn [for_down].
    erewrite bind_Ret; cycle 1.
    { erewrite bind_Ret by (apply data_eq; eauto).
      rewrite Hd. unfold ptr_add. simpl.
      replace (0 + (Z.of_nat (S (length xs')) - 1)) with (Z.of_nat (length xs')) by lia.
      eapply destroy_at_eq with (x := x); eauto; [lia|].
      rewrite Nat2Z.id. apply slots_lookup_live.
      rewrite lookup_app_r by lia.
      rewrite Nat.sub_diag. reflexivity. }
    rewrite Nat2Z.id.
    rewrite slots_pop by lia.
    rewrite (IH xs' _ o p _ k eq_refl Ho Hd (lookup_insert_eq _ _ _)) by lia.
    rewrite insert_insert_eq.
    rewrite seq_S, reverse_app, reverse_singleton. simpl.
    rewrite <- app_assoc. reflexivity.
Qed.

Lemma clear_eq this v xs h o p l k :
  o !! this = Some v -> owns h v xs ->
  exists l',
    vector.clear this (World h o p l k)
    = Ret tt (World (stored h v []) (<[this := Vec (data_ v) 0 (capacity_ v)]> o) p l' k).
Proof.
  intros Ho (Hsz & Hcap & Hoff & Hblk).
  destruct v as [[bo z] sz cap]. simpl in *. subst z.
  unfold vector.clear, stored. simpl.
  erewrite bind_Ret by (apply size_eq; eauto). simpl.
  unfold for_upto. destruct bo as [b|].
  - destruct Hblk as [Hpos Hh].
    destruct (pop_loop_eq this b cap (Z.to_nat sz) xs 0 h o p l k) as [l' Hl'];
      [lia | rewrite <- Hsz; exact Ho | exact Hh | lia |].
    exists l'. erewrite bind_Ret by exact Hl'.
    erewrite set_size_eq by apply lookup_insert_eq. simpl.
    rewrite insert_insert_eq.
    replace (length xs - Z.to_nat sz)%nat with 0%nat by lia.
    reflexivity.
  - destruct xs as [|x xs]; [|simpl in *; lia].
    simpl in *. subst sz. exists l.
    erewrite bind_Ret by reflexivity.
    erewrite set_size_eq by eauto. reflexivity.
Qed.

Lemma destructor_eq this v xs h o p l k :
  o !! this = Some v -> owns h v xs ->
  exists l',
    vector.destructor this (World h o p l k)
    = Ret tt (World (released h v) (<[this := Vec nullptr 0 (capacity_ v)]> o) p l' k).
Proof.
  intros Ho Hown.
  destruct (clear_eq this v xs h o p l k Ho Hown) as [l1 Hclear].
  destruct Hown as (Hsz & Hcap & Hoff & Hblk).
  destruct v as [[bo z] sz cap]. simpl in *. subst z.
  unfold vector.destructor, released, stored in *. simpl in *.
  erewrite bind_Ret by exact Hclear.
  erewrite bind_Ret by (apply data_eq; apply lookup_insert_eq). simpl.
  destruct bo as [b|].
  - eexists.
    erewrite bind_Ret by (apply operator_delete_eq; apply lookup_insert_eq).
    erewrite set_data_eq by apply lookup_insert_eq. simpl.
    rewrite insert_insert_eq, delete_insert_eq, live_count_slots. simpl.
    rewrite Nat.add_0_r. reflexivity.
  - eexists.
    erewrite bind_Ret by (apply operator_delete_null).
    erewrite set_data_eq by apply lookup_insert_eq. simpl.
    rewrite insert_insert_eq. reflexivity.
Qed.
End Teardown.

Section CopyConstruction.
Context {T : Type} `{Element T}.
Implicit Types (h : gmap nat (list (option T))) (o : gmap nat vec).
Implicit Types (p : list bool) (l : list event) (k : nat).
Implicit Types (xs : list T).

Lemma deref_insert_ne h b s q :
  blk q <> Some b -> deref (<[b := s]> h) q = deref h q.
Proof.
  intros Hne. unfold deref. destruct (blk q) as [b0|]; [|reflexivity].
  rewrite lookup_insert_ne by congruence. reflexivity.
Qed.

Lemma deref_owns h v xs (i : nat) x :
  owns h v xs -> xs !! i = Some x ->
  deref h (ptr_add (data_ v) (Z.of_nat i)) = Some x.
Proof.
  intros (Hsz & Hcap & Hoff & Hblk) Hx. unfold deref, ptr_add. simpl.
  pose proof (lookup_lt_Some _ _ _ Hx) as Hlt.
  destruct (blk (data_ v)) as [b|].
  - destruct Hblk as [_ ->]. rewrite Hoff, Z.add_0_l, Nat2Z.id.
    erewrite slots_lookup_live by eauto.
    destruct (Z.ltb_spec (Z.of_nat i) 0); [lia|reflexivity].
  - lia.
Qed.

(** One iteration of the copy loop, for the element [x] at index [i]. *)
Lemma copy_element_eq this other b' cap' vt vo xs (i : nat) x h o p l k :
  o !! this = Some vt -> data_ vt = Ptr (Some b') 0 ->
  o !! other = Some vo ->
  deref h (ptr_add (data_ vo) (Z.of_nat i)) = Some x ->
  xs !! i = Some x ->
  h !! b' = Some (slots (take i xs) cap') -> Z.of_nat i < cap' ->
  vector.copy_element this other (Z.of_nat i) (World h o p l k)
  = if fires p
    then Throw (World (delete b' h) o (tail p)
                  (l ++ (EvDestroy b' <$> reverse (seq 0 i)) ++ [EvDelete b']) k)
    else Ret tt (World (<[b' := slots (take (S i) xs) cap']> h) o (tail p)
                   (l ++ [EvConstruct b' i]) k).
Proof.
  intros Ht Hd Ho Hx Hxs Hh Hcap.
  pose proof (lookup_lt_Some _ _ _ Hxs) as Hlt.
  assert (Hlen : length (take i xs) = i) by (rewrite length_take; lia).
  unfold vector.copy_element, catch.
  erewrite bind_Ret by (apply subscript_eq; eauto).
  unfold bind at 1. rewrite (copy_T_eq _ x) by exact Hx.
  destruct (fires p).
  - (* the copy constructor throws: roll back *)
    erewrite bind_Ret; cycle 1.
    { rewrite Nat2Z.id. eapply destroy_loop_eq; eauto. lia. }
    erewrite bind_Ret by (apply data_eq; eauto).
    rewrite Hd.
    erewrite bind_Ret by (apply operator_delete_eq; apply lookup_insert_eq).
    unfold throw.
    rewrite delete_insert_eq, live_count_slots. simpl.
    rewrite Nat.add_0_r, <- app_assoc. reflexivity.
  - erewrite bind_Ret by (apply data_eq; eauto).
    rewrite Hd. unfold ptr_add. simpl. rewrite Z.add_0_l.
    erewrite construct_at_eq; eauto; [|lia|].
    + rewrite Nat2Z.id.
      rewrite <- Hlen at 1. rewrite slots_snoc by lia.
      erewrite take_S_r by eauto. reflexivity.
    + rewrite Nat2Z.id. apply slots_lookup_raw; lia.
Qed.

(** Fault plans. *)
Lemma fires_false_take p n :
  fires p = false ->
  Forall (fun f => f = false) (take n (tail p)) ->
  Forall (fun f => f = false) (take (S n) p).
Proof.
  intros Hf Hall. destruct p as [|[] q]; simpl in *; try discriminate.
  - constructor.
  - constructor; [reflexivity|exact Hall].
Qed.

Lemma fires_true_lookup p : fires p = true -> p !! 0%nat = Some true.
Proof. destruct p as [|[] q]; simpl; intros; congruence. Qed.

Lemma drop_tail p (m : nat) : drop m (tail p) = drop (S m) p.
Proof. destruct p; simpl; [apply drop_nil|reflexivity]. Qed.

Lemma plan_first_fault p (i j : nat) :
  p !! i = Some true -> Forall (fun f => f = false) (take i p) ->
  p !! j = Some true -> Forall (fun f => f = false) (take j p) ->
  i = j.
Proof.
  intros Hi Hai Hj Haj.
  assert (Hlt : forall a b, (a < b)%nat -> p !! a = Some true ->
                Forall (fun f => f = false) (take b p) -> False).
  { intros a b Hab Ha Hall. rewrite Forall_lookup in Hall.
    specialize (Hall a true). rewrite lookup_take_lt in Hall by lia.
    specialize (Hall Ha). discriminate. }
  destruct (Nat.lt_trichotomy i j) as [Hlt'|[Heq|Hgt]]; [|exact Heq|].
  - exfalso. eapply Hlt; eauto.
  - exfalso. eapply Hlt; eauto.
Qed.

(** The copy loop from index [i] on, [n] elements to go: it completes
    when none of the next [n] entries of the plan is a fault; otherwise
    the first fault, at entry [j - i], stops it at index [j] and the
    elements constructed so far are destroyed, last first, and the
    block is released. *)
Lemma copy_loop_wp this other b' cap' vt vo xs o k n : forall (i : nat) h p l,
  (i + n = length xs)%nat ->
  o !! this = Some vt -> data_ vt = Ptr (Some b') 0 ->
  o !! other = Some vo -> blk (data_ vo) <> Some b' ->
  (forall (j : nat) x, xs !! j = Some x ->
     deref h (ptr_add (data_ vo) (Z.of_nat j)) = Some x) ->
  h !! b' = Some (slots (take i xs) cap') ->
  Z.of_nat (length xs) <= cap' < SIZE_MOD ->
  wp (for_loop n (Z.of_nat i) (vector.copy_element this other)) (World h o p l k)
    (fun _ w' =>
       Forall (fun f => f = false) (take n p) /\
       w' = World (<[b' := slots xs cap']> h) o (drop n p)
              (l ++ (EvConstruct b' <$> seq i n)) k)
    (fun w' => exists j : nat, (i <= j < i + n)%nat /\
       p !! (j - i)%nat = Some true /\
       Forall (fun f => f = false) (take (j - i) p) /\
       w' = World (delete b' h) o (drop (S (j - i)) p)
              (l ++ (EvConstruct b' <$> seq i (j - i))
                 ++ (EvDestroy b' <$> reverse (seq 0 j)) ++ [EvDelete b']) k).
Proof.
  induction n as [|n IH]; intros i h p l Hin Ht Hd Ho Hne Hreads Hh Hcap.
  - apply wp_ret. split; [constructor|]. simpl. rewrite app_nil_r.
    rewrite Nat.add_0_r in Hin. subst i.
    rewrite firstn_all in Hh. rewrite insert_id by exact Hh. reflexivity.
  - cbn [for_loop].
    destruct (lookup_lt_is_Some_2 xs i) as [x Hx]; [lia|].
    unfold wp, bind.
    erewrite copy_element_eq; eauto; [|lia].
    destruct (fires p) eqn:Hfires.
    + exists i. split; [lia|]. rewrite Nat.sub_diag.
      split; [apply fires_true_lookup; exact Hfires|].
      split; [constructor|]. reflexivity.
    + rewrite wrap_small by lia.
      replace (Z.of_nat i + 1) with (Z.of_nat (S i)) by lia.
      specialize (IH (S i) (<[b' := slots (take (S i) xs) cap']> h) (tail p)
                     (l ++ [EvConstruct b' i])).
      unfold wp in IH.
      assert (Hreads' : forall (j : nat) y, xs !! j = Some y ->
        deref (<[b' := slots (take (S i) xs) cap']> h)
              (ptr_add (data_ vo) (Z.of_nat j)) = Some y).
      { intros j y Hy. rewrite deref_insert_ne by exact Hne. eauto. }
      specialize (IH ltac:(lia) Ht Hd Ho Hne Hreads' (lookup_insert_eq _ _ _) Hcap).
      destruct (for_loop n (Z.of_nat (S i)) (vector.copy_element this other) _)
        as [[] w'|w'|r] eqn:Hloop; [| |exact IH].
      * destruct IH as [Hall ->].
        split; [apply fires_false_take; assumption|].
        rewrite insert_insert_eq, <- app_assoc, drop_tail. reflexivity.
      * destruct IH as (j & Hj & Hfault & Hall & ->).
        exists j. split; [lia|].
        replace (j - i)%nat with (S (j - S i)) by lia.
        split; [rewrite <- lookup_tail; exact Hfault|].
        split; [apply fires_false_take; assumption|].
        rewrite delete_insert_eq, <- app_assoc, drop_tail. reflexivity.
Qed.

Lemma fresh_block_None h : h !! fresh (dom h) = None.
Proof. apply not_elem_of_dom. apply is_fresh. Qed.

Lemma fresh_obj_None o : o !! fresh (dom o) = None.
Proof. apply not_elem_of_dom. apply is_fresh. Qed.

Lemma owns_block_ne h v xs b :
  owns h v xs -> h !! b = None -> blk (data_ v) <> Some b.
Proof.
  intros (_ & _ & _ & Hblk) Hb Heq. rewrite Heq in Hblk.
  destruct Hblk as [_ Hh]. congruence.
Qed.

(** The private constructor on a fresh object: when no fault is planned
    for the allocation and the [length xs] copies, the new object holds
    a copy of [xs] in a new block of exactly [n] slots, constructed in
    index order.  Otherwise it throws: either the allocation failed, or
    the copy of the element at index [j] did, and then the [j] elements
    already constructed are destroyed in reverse order and the block is
    released, leaving the heap as it was. *)
Lemma vector_copy_cap_wp this other vo xs n h o p l k :
  this <> other ->
  o !! this = Some vec_default -> o !! other = Some vo -> owns h vo xs ->
  0 < n < SIZE_MOD -> Z.of_nat (length xs) <= n ->
  wp (vector.vector_copy_cap this other n) (World h o p l k)
    (fun _ w' =>
       Forall (fun f => f = false) (take (S (length xs)) p) /\
       w' = World (<[fresh (dom h) := slots xs n]> h)
              (<[this := Vec (Ptr (Some (fresh (dom h))) 0) (Z.of_nat (length xs)) n]> o)
              (drop (S (length xs)) p)
              (l ++ EvNew (fresh (dom h)) n
                 :: (EvConstruct (fresh (dom h)) <$> seq 0 (length xs))) k)
    (fun w' =>
       (fires p = true /\ w' = World h o (tail p) l k) \/
       exists j : nat, (j < length xs)%nat /\
         p !! S j = Some true /\
         Forall (fun f => f = false) (take (S j) p) /\
         w' = World h (<[this := Vec (Ptr (Some (fresh (dom h))) 0) 0 0]> o)
                (drop (S (S j)) p)
                (l ++ EvNew (fresh (dom h)) n
                   :: (EvConstruct (fresh (dom h)) <$> seq 0 j)
                   ++ (EvDestroy (fresh (dom h)) <$> reverse (seq 0 j))
                   ++ [EvDelete (fresh (dom h))]) k).
Proof.
  intros Hne Ht Ho Hown Hn Hlen.
  pose proof (fresh_block_None h) as Hfresh.
  set (b' := fresh (dom h)) in *.
  unfold vector.vector_copy_cap.
  destruct (Z.eqb_spec n 0) as [?|_]; [lia|].
  rewrite bool_decide_eq_false_2 by congruence. simpl.
  unfold wp, bind at 1. rewrite operator_new_eq. fold b'.
  destruct (fires p) eqn:Hfires.
  { left. split; reflexivity. }
  erewrite bind_Ret by (eapply set_data_eq; eauto). simpl.
  erewrite bind_Ret; cycle 1.
  { eapply size_eq. rewrite lookup_insert_ne by exact Hne. exact Ho. }
  pose proof Hown as (Hsz & Hcap & _).
  unfold for_upto. rewrite Hsz, Nat2Z.id.
  assert (Hloop := copy_loop_wp this other b' n (Vec (Ptr (Some b') 0) 0 0) vo xs
                (<[this := Vec (Ptr (Some b') 0) 0 0]> o) k (length xs) 0%nat
                (<[b' := replicate (Z.to_nat n) None]> h) (tail p)
                (l ++ [EvNew b' n])).
  change (Z.of_nat 0) with 0 in Hloop.
  specialize (Hloop eq_refl (lookup_insert_eq _ _ _) eq_refl).
  rewrite lookup_insert_ne in Hloop by exact Hne.
  specialize (Hloop Ho (owns_block_ne _ _ _ _ Hown Hfresh)).
  rewrite lookup_insert_eq in Hloop.
  change (take 0 xs) with (@nil T) in Hloop.
  rewrite slots_nil in Hloop.
  assert (Hreads : forall (j : nat) x, xs !! j = Some x ->
    deref (<[b' := replicate (Z.to_nat n) None]> h) (ptr_add (data_ vo) (Z.of_nat j)) = Some x).
  { intros j x Hx. rewrite deref_insert_ne by (eapply owns_block_ne; eauto).
    eapply deref_owns; eauto. }
  specialize (Hloop Hreads eq_refl ltac:(lia)). clear Hreads.
  unfold wp in Hloop. unfold bind at 1.
  destruct (for_loop (length xs) 0 (vector.copy_element this other) _)
    as [[] w'|w'|r] eqn:Hrun; [| |exact Hloop].
  - destruct Hloop as [Hall ->].
    erewrite bind_Ret by (eapply set_capacity_eq; apply lookup_insert_eq).
    erewrite bind_Ret; cycle 1.
    { eapply size_eq. rewrite lookup_insert_ne by exact Hne.
      rewrite lookup_insert_ne by exact Hne. exact Ho. }
    erewrite set_size_eq by apply lookup_insert_eq. simpl.
    split; [apply fires_false_take; assumption|].
    rewrite !insert_insert_eq, Hsz, <- app_assoc, drop_tail. reflexivity.
  - destruct Hloop as (j & Hj & Hfault & Hall & ->).
    right. exists j. rewrite Nat.sub_0_r in *. split; [lia|].
    split; [rewrite <- lookup_tail; exact Hfault|].
    split; [apply fires_false_take; assumption|].
    rewrite delete_insert_id by exact Hfresh.
    rewrite <- app_assoc, drop_tail. reflexivity.
Qed.
End CopyConstruction.

Section Temporaries.
Context {T : Type} `{Element T}.
Implicit Types (h : gmap nat (list (option T))) (o : gmap nat vec).
Implicit Types (p : list bool) (l : list event) (k : nat).
Implicit Types (xs : list T).

Lemma vec_eta (v : vec) : Vec (data_ v) (size_ v) (capacity_ v) = v.
Proof. destruct v; reflexivity. Qed.

Lemma swap_eq this other a b h o p l k :
  this <> other ->
  o !! this = Some a -> o !! other = Some b ->
  vector.swap this other (World h o p l k)
  = Ret tt (World h (<[other := a]> (<[this := b]> o)) p l k).
Proof.
  intros Hne Ha Hb. destruct a as [da sa ca], b as [db sb cb].
  unfold vector.swap.
  erewrite bind_Ret by (apply get_obj_eq; eauto).
  erewrite bind_Ret by (apply get_obj_eq; eauto).
  erewrite bind_Ret by (eapply set_data_eq; eauto).
  erewrite bind_Ret by (eapply set_data_eq; rewrite lookup_insert_ne by exact Hne; eauto).
  erewrite bind_Ret by (apply get_obj_eq; rewrite lookup_insert_ne by congruence;
                        apply lookup_insert_eq).
  erewrite bind_Ret by (apply get_obj_eq; apply lookup_insert_eq).
  erewrite bind_Ret by (eapply set_size_eq; rewrite lookup_insert_ne by congruence;
                        apply lookup_insert_eq).
  erewrite bind_Ret by (eapply set_size_eq; rewrite lookup_insert_ne by exact Hne;
                        apply lookup_insert_eq).
  erewrite bind_Ret by (apply get_obj_eq; rewrite lookup_insert_ne by congruence;
                        apply lookup_insert_eq).
  erewrite bind_Ret by (apply get_obj_eq; apply lookup_insert_eq).
  erewrite bind_Ret by (eapply set_capacity_eq; rewrite lookup_insert_ne by congruence;
                        apply lookup_insert_eq).
  erewrite set_capacity_eq by (rewrite lookup_insert_ne by exact Hne; apply lookup_insert_eq).
  simpl. do 2 f_equal.
  apply map_eq. intros i. rewrite !lookup_insert.
  repeat case_decide; congruence.
Qed.

Lemma swap_self_eq this a h o p l k :
  o !! this = Some a ->
  vector.swap this this (World h o p l k) = Ret tt (World h o p l k).
Proof.
  intros Ha. unfold vector.swap.
  erewrite bind_Ret by (apply get_obj_eq; eauto).
  erewrite bind_Ret by (apply get_obj_eq; eauto).
  erewrite bind_Ret by (eapply set_data_eq; eauto).
  erewrite bind_Ret by (eapply set_data_eq; apply lookup_insert_eq).
  erewrite bind_Ret by (apply get_obj_eq; apply lookup_insert_eq).
  erewrite bind_Ret by (apply get_obj_eq; apply lookup_insert_eq).
  erewrite bind_Ret by (eapply set_size_eq; apply lookup_insert_eq).
  erewrite bind_Ret by (eapply set_size_eq; apply lookup_insert_eq).
  erewrite bind_Ret by (apply get_obj_eq; apply lookup_insert_eq).
  erewrite bind_Ret by (apply get_obj_eq; apply lookup_insert_eq).
  erewrite bind_Ret by (eapply set_capacity_eq; apply lookup_insert_eq).
  erewrite set_capacity_eq by apply lookup_insert_eq.
  simpl. rewrite !insert_insert_eq, vec_eta, insert_id by exact Ha. reflexivity.
Qed.

(** A temporary: construct, use, destroy. *)
Lemma with_temp_wp {A} (ctor : nat -> M T unit) (body : nat -> M T A)
    h o p l k (Q : A -> world T -> Prop) (E : world T -> Prop) :
  let tmp := fresh (dom o) in
  wp (ctor tmp) (World h (<[tmp := vec_default]> o) p l k)
    (fun _ w1 =>
       wp (body tmp) w1
         (fun r w2 => wp (vector.destructor tmp) w2
                        (fun _ w3 => Q r (without tmp w3)) (fun _ => False))
         (fun w2 => wp (vector.destructor tmp) w2
                      (fun _ w3 => E (without tmp w3)) (fun _ => False)))
    (fun w1 => E (without tmp w1)) ->
  wp (vector.with_temp ctor body) (World h o p l k) Q E.
Proof.
  intros tmp. unfold wp, vector.with_temp, bind, catch, new_obj, del_obj, throw, ret, without.
  simpl. fold tmp.
  destruct (ctor tmp _) as [[] w1|w1|r]; auto.
  destruct (body tmp w1) as [a w2|w2|r]; auto;
    destruct (vector.destructor tmp w2) as [[] w3|w3|r]; auto; tauto.
Qed.
End Temporaries.

Section Growth.
Context {T : Type} `{Element T}.
Implicit Types (h : gmap nat (list (option T))) (o : gmap nat vec).
Implicit Types (p : list bool) (l : list event) (k : nat).
Implicit Types (xs : list T).

Lemma push_back_unfold fuel this (value : T) :
  vector.push_back fuel this value
  = (sz <- vector.size this ;;
     cap <- vector.capacity this ;;
     if sz <? cap then
       d <- vector.data this ;;
       x <- move_T value ;;
       construct_at (ptr_add d sz) x ;;
       sz' <- vector.size this ;;
       vector.set_size_ this (wrap (sz' + 1))
     else
       let new_capacity := if cap =? 0 then 1 else wrap (cap * 2 + 1) in
       vector.with_temp
         (fun tmp => vector.vector_copy_cap tmp this new_capacity)
         (fun tmp =>
            match fuel with
            | O => abort NoFuel
            | S fuel' => arg <- move_T value ;; vector.push_back fuel' tmp arg
            end ;;
            vector.swap this tmp)).
Proof. destruct fuel; reflexivity. Qed.

Lemma owns_insert_ne h v xs b s :
  owns h v xs -> blk (data_ v) <> Some b -> owns (<[b := s]> h) v xs.
Proof.
  intros (Hsz & Hcap & Hoff & Hblk) Hne. repeat split; try assumption; try lia.
  destruct (blk (data_ v)) as [b0|]; [|exact Hblk].
  destruct Hblk as [Hpos Hh]. split; [exact Hpos|].
  rewrite lookup_insert_ne by congruence. exact Hh.
Qed.

Lemma owns_spare h v xs :
  owns h v xs -> size_ v < capacity_ v ->
  exists b, data_ v = Ptr (Some b) 0 /\ h !! b = Some (slots xs (capacity_ v)).
Proof.
  intros (Hsz & Hcap & Hoff & Hblk) Hlt.
  destruct v as [[[b|] z] sz cap]; simpl in *; subst.
  - exists b. split; [reflexivity|]. apply Hblk.
  - lia.
Qed.

(** [push_back] with spare capacity: the element is constructed in the
    next free slot; if its construction throws nothing changes. *)
Lemma push_back_spare_wp fuel this v xs (value : T) h o p l k :
  o !! this = Some v -> owns h v xs -> size_ v < capacity_ v ->
  wp (vector.push_back fuel this value) (World h o p l k)
    (fun _ w' => exists p' b, blk (data_ v) = Some b /\
       w' = World (<[b := slots (xs ++ [value]) (capacity_ v)]> h)
              (<[this := Vec (data_ v) (size_ v + 1) (capacity_ v)]> o)
              p' (l ++ [EvConstruct b (length xs)]) k)
    (fun w' => exists p', w' = World h o p' l k).
Proof.
  intros Ho Hown Hlt.
  destruct (owns_spare _ _ _ Hown Hlt) as (b & Hd & Hh).
  destruct Hown as (Hsz & Hcap & _).
  rewrite push_back_unfold. unfold wp.
  erewrite bind_Ret by (apply size_eq; eauto).
  erewrite bind_Ret by (apply capacity_eq; eauto).
  destruct (Z.ltb_spec (size_ v) (capacity_ v)) as [_|?]; [|lia].
  erewrite bind_Ret by (apply data_eq; eauto).
  unfold bind at 1. rewrite move_T_eq.
  destruct (negb nothrow_move && fires p).
  { eexists. reflexivity. }
  rewrite Hd. unfold ptr_add. simpl. rewrite Z.add_0_l.
  erewrite bind_Ret; cycle 1.
  { eapply construct_at_eq; eauto; [lia|].
    apply slots_lookup_raw; lia. }
  erewrite bind_Ret by (apply size_eq; eauto).
  erewrite set_size_eq by eauto.
  rewrite Hd. simpl.
  eexists _, b. split; [reflexivity|].
  rewrite wrap_small by lia.
  replace (Z.to_nat (size_ v)) with (length xs) by lia.
  rewrite slots_snoc by lia. reflexivity.
Qed.

Lemma fresh_obj_ne o this v : o !! this = Some v -> fresh (dom o) <> this.
Proof. intros Ho Heq. pose proof (fresh_obj_None o) as Hf. congruence. Qed.

(** Unwinding through the destructor of a temporary that holds a copy:
    the heap and the objects are as before the temporary was made. *)
Lemma unwind_copy_wp tmp b' vt xs h o p l k :
  o !! tmp = None -> h !! b' = None ->
  data_ vt = Ptr (Some b') 0 ->
  forall o1 h1, o1 !! tmp = Some vt -> delete tmp o1 = o ->
  delete b' h1 = h -> owns h1 vt xs ->
  wp (vector.destructor tmp) (World h1 o1 p l k)
    (fun _ w3 => exists p' l', without tmp w3 = World h o p' l' k)
    (fun _ => False).
Proof.
  intros Hot Hhb Hd o1 h1 Ho1 Hdel Hdelh Hown.
  destruct (destructor_eq tmp vt xs h1 o1 p l k Ho1 Hown) as [l' Heq].
  eapply wp_eq; [exact Heq|].
  exists p, l'. unfold without, set_objs, released. rewrite Hd. simpl.
  rewrite delete_insert_eq, Hdel, Hdelh. reflexivity.
Qed.

(** [push_back] without spare capacity: a copy with capacity
    [2 * capacity + 1] is built, the element is appended to it, and it
    replaces the contents; if anything throws nothing has changed. *)
Lemma push_back_grow_wp fuel this v xs (value : T) h o p l k :
  o !! this = Some v -> owns h v xs -> size_ v = capacity_ v ->
  2 * capacity_ v + 1 < SIZE_MOD ->
  wp (vector.push_back (S fuel) this value) (World h o p l k)
    (fun _ w' => exists p' l',
       w' = World (released (<[fresh (dom h) := slots (xs ++ [value]) (2 * capacity_ v + 1)]> h) v)
              (<[this := Vec (Ptr (Some (fresh (dom h))) 0) (size_ v + 1)
                           (2 * capacity_ v + 1)]> o)
              p' l' k)
    (fun w' => exists p' l', w' = World h o p' l' k).
Proof.
  intros Ho Hown Hfull Hbound.
  pose proof Hown as (Hsz & Hcap & Hoff & Hblk).
  pose proof (fresh_block_None h) as Hfb.
  pose proof (fresh_obj_None o) as Hfo.
  pose proof (fresh_obj_ne o this v Ho) as Htmp.
  rewrite push_back_unfold. unfold wp at 1.
  erewrite bind_Ret by (apply size_eq; eauto).
  erewrite bind_Ret by (apply capacity_eq; eauto).
  destruct (Z.ltb_spec (size_ v) (capacity_ v)) as [?|_]; [lia|].
  assert (Hnc : (if capacity_ v =? 0 then 1 else wrap (capacity_ v * 2 + 1))
                = 2 * capacity_ v + 1).
  { destruct (Z.eqb_spec (capacity_ v) 0) as [->|?]; [reflexivity|].
    rewrite wrap_small by lia. lia. }
  cbv zeta. rewrite Hnc. clear Hnc.
  set (nc := 2 * capacity_ v + 1) in *.
  set (b' := fresh (dom h)) in *.
  change (wp (vector.with_temp
                (fun tmp => vector.vector_copy_cap tmp this nc)
                (fun tmp => (arg <- move_T value ;; vector.push_back fuel tmp arg) ;;
                            vector.swap this tmp))
            (World h o p l k)
            (fun _ w' => exists p' l',
               w' = World (released (<[b' := slots (xs ++ [value]) nc]> h) v)
                      (<[this := Vec (Ptr (Some b') 0) (size_ v + 1) nc]> o) p' l' k)
            (fun w' => exists p' l', w' = World h o p' l' k)).
  apply with_temp_wp. set (tmp := fresh (dom o)) in *.
  eapply wp_mono.
  { apply vector_copy_cap_wp with (vo := v) (xs := xs); try lia; try assumption.
    - apply lookup_insert_eq.
    - rewrite lookup_insert_ne by exact Htmp. exact Ho. }
  - (* the copy is built *)
    intros [] w1 [_ ->]. fold b'. set (p1 := drop (S (length xs)) p).
    set (vt := Vec (Ptr (Some b') 0) (Z.of_nat (length xs)) nc).
    set (h1 := <[b' := slots xs nc]> h).
    set (o1 := <[tmp := vt]> (<[tmp := vec_default]> o)).
    assert (Hvt : owns h1 vt xs).
    { repeat split; simpl; try lia. unfold h1. apply lookup_insert_eq. }
    assert (Hunwind : forall p2 l2,
      wp (vector.destructor tmp) (World h1 o1 p2 l2 k)
        (fun _ w3 => exists p' l', without tmp w3 = World h o p' l' k)
        (fun _ => False)).
    { intros p2 l2. eapply unwind_copy_wp with (b' := b') (vt := vt) (xs := xs); eauto.
      - apply lookup_insert_eq.
      - unfold o1. rewrite !delete_insert_eq. apply delete_id. exact Hfo.
      - unfold h1. rewrite delete_insert_eq. apply delete_id. exact Hfb. }
    apply wp_bind. apply wp_bind.
    unfold wp at 1. rewrite move_T_eq.
    destruct (negb nothrow_move && fires p1); [apply Hunwind|].
    eapply wp_mono.
    { apply push_back_spare_wp with (v := vt) (xs := xs); [apply lookup_insert_eq|exact Hvt|].
      simpl. unfold nc. lia. }
    + intros [] w2 (p2 & b & Hb & ->). simpl in Hb. injection Hb as <-.
      unfold vt at 1 2 3. simpl.
      eapply wp_eq.
      { eapply swap_eq; [congruence| |apply lookup_insert_eq].
        rewrite lookup_insert_ne by exact Htmp. unfold o1.
        rewrite !lookup_insert_ne by exact Htmp. exact Ho. }
      assert (Hv : owns (<[b' := slots (xs ++ [value]) nc]> h1) v xs).
      { unfold h1. do 2 (apply owns_insert_ne; [|eapply owns_block_ne; eauto]).
        exact Hown. }
      edestruct (destructor_eq tmp v xs) as [l3 Heq]; [apply lookup_insert_eq|exact Hv|].
      eapply wp_eq; [exact Heq|].
      unfold without, set_objs. simpl. exists p2, l3. f_equal.
      * unfold h1. rewrite insert_insert_eq. reflexivity.
      * unfold o1. rewrite Hsz. map_cases.
    + intros w2 (p2 & ->). apply Hunwind.
  - (* the copy failed: the temporary never existed *)
    intros w1 [[_ ->] | (j & Hj & _ & _ & ->)]; unfold without, set_objs; simpl.
    + eexists _, l. f_equal. apply delete_insert_id. exact Hfo.
    + eexists _, _. f_equal. rewrite insert_insert_eq.
      apply delete_insert_id. exact Hfo.
Qed.
End Growth.

Section Replace.
Context {T : Type} `{Element T}.
Implicit Types (h : gmap nat (list (option T))) (o : gmap nat vec).
Implicit Types (p : list bool) (l : list event) (k : nat).
Implicit Types (xs : list T).

(** Build-then-swap: a temporary is constructed, swapped with [this],
    and destroyed with the old contents of [this]. *)
Lemma replace_wp (ctor : nat -> M T unit) this v xs h o p l k
    (P : gmap nat (list (option T)) -> vec -> Prop) :
  o !! this = Some v ->
  wp (ctor (fresh (dom o))) (World h (<[fresh (dom o) := vec_default]> o) p l k)
    (fun _ w1 => exists p1 l1 h1 vt,
       w1 = World h1 (<[fresh (dom o) := vt]> o) p1 l1 k /\ owns h1 v xs /\ P h1 vt)
    (fun w1 => exists p1 l1 vt, w1 = World h (<[fresh (dom o) := vt]> o) p1 l1 k) ->
  wp (vector.with_temp ctor (fun tmp => vector.swap tmp this)) (World h o p l k)
    (fun _ w' => exists p' l' h1 vt,
       P h1 vt /\ w' = World (released h1 v) (<[this := vt]> o) p' l' k)
    (fun w' => exists p' l', w' = World h o p' l' k).
Proof.
  intros Ho Hctor.
  pose proof (fresh_obj_None o) as Hfo.
  pose proof (fresh_obj_ne o this v Ho) as Htmp.
  apply with_temp_wp. set (tmp := fresh (dom o)) in *.
  eapply wp_mono; [exact Hctor| |].
  - intros [] w1 (p1 & l1 & h1 & vt & -> & Hown & HP).
    eapply wp_eq.
    { eapply swap_eq; [exact Htmp|apply lookup_insert_eq|].
      rewrite lookup_insert_ne by exact Htmp. exact Ho. }
    edestruct (destructor_eq tmp v xs) as [l3 Heq]; [|exact Hown|].
    { rewrite lookup_insert_ne by (intros Heq; apply Htmp; symmetry; exact Heq).
      apply lookup_insert_eq. }
    eapply wp_eq; [exact Heq|].
    unfold without, set_objs. simpl. exists p1, l3, h1, vt. split; [exact HP|].
    f_equal. map_cases.
  - intros w1 (p1 & l1 & vt & ->). unfold without, set_objs. simpl.
    exists p1, l1. f_equal. apply delete_insert_id. exact Hfo.
Qed.

(** Reallocation to exactly [n] slots, [n] positive. *)
Lemma reallocate_wp this v xs n h o p l k :
  o !! this = Some v -> owns h v xs ->
  0 < n < SIZE_MOD -> Z.of_nat (length xs) <= n ->
  wp (vector.with_temp (fun tmp => vector.vector_copy_cap tmp this n)
                       (fun tmp => vector.swap tmp this)) (World h o p l k)
    (fun _ w' => exists p' l',
       w' = World (released (<[fresh (dom h) := slots xs n]> h) v)
              (<[this := Vec (Ptr (Some (fresh (dom h))) 0) (size_ v) n]> o) p' l' k)
    (fun w' => exists p' l', w' = World h o p' l' k).
Proof.
  intros Ho Hown Hn Hlen.
  pose proof (fresh_block_None h) as Hfb.
  pose proof (fresh_obj_ne o this v Ho) as Htmp.
  pose proof Hown as (Hsz & _).
  eapply wp_mono.
  { apply replace_wp with (v := v) (xs := xs)
      (P := fun h1 vt => h1 = <[fresh (dom h) := slots xs n]> h /\
                         vt = Vec (Ptr (Some (fresh (dom h))) 0) (size_ v) n);
      [exact Ho|].
    eapply wp_mono.
    { apply vector_copy_cap_wp with (vo := v) (xs := xs); try lia; try assumption.
      - apply lookup_insert_eq.
      - rewrite lookup_insert_ne by exact Htmp. exact Ho. }
    - intros [] w1 [_ ->]. eexists _, _, _, _.
      split; [rewrite insert_insert_eq; reflexivity|].
      split; [|split; [reflexivity|rewrite Hsz; reflexivity]].
      apply owns_insert_ne; [exact Hown|]. eapply owns_block_ne; eauto.
    - intros w1 [[_ ->] | (j & Hj & _ & _ & ->)].
      + eexists _, _, _. reflexivity.
      + eexists _, _, _. rewrite insert_insert_eq. reflexivity. }
  - intros [] w' (p' & l' & h1 & vt & [-> ->] & ->). eauto.
  - intros w' Hw'. exact Hw'.
Qed.

(** [reserve] *)
Lemma reserve_noop_eq this v n h o p l k :
  o !! this = Some v -> n <= capacity_ v ->
  vector.reserve this n (World h o p l k) = Ret tt (World h o p l k).
Proof.
  intros Ho Hn. unfold vector.reserve.
  erewrite bind_Ret by (apply capacity_eq; eauto).
  destruct (Z.gtb_spec n (capacity_ v)) as [?|_]; [lia|reflexivity].
Qed.

Lemma reserve_wp this v xs n h o p l k :
  o !! this = Some v -> owns h v xs ->
  capacity_ v < n < SIZE_MOD ->
  wp (vector.reserve this n) (World h o p l k)
    (fun _ w' => exists p' l',
       w' = World (released (<[fresh (dom h) := slots xs n]> h) v)
              (<[this := Vec (Ptr (Some (fresh (dom h))) 0) (size_ v) n]> o) p' l' k)
    (fun w' => exists p' l', w' = World h o p' l' k).
Proof.
  intros Ho Hown Hn. pose proof Hown as (Hsz & Hcap & _).
  unfold vector.reserve, wp at 1.
  erewrite bind_Ret by (apply capacity_eq; eauto).
  destruct (Z.gtb_spec n (capacity_ v)) as [_|?]; [|lia].
  apply reallocate_wp with (xs := xs); try assumption; lia.
Qed.

(** [shrink_to_fit] *)
Lemma shrink_to_fit_noop_eq this v h o p l k :
  o !! this = Some v -> size_ v = capacity_ v ->
  vector.shrink_to_fit this (World h o p l k) = Ret tt (World h o p l k).
Proof.
  intros Ho Hn. unfold vector.shrink_to_fit.
  erewrite bind_Ret by (apply size_eq; eauto).
  erewrite bind_Ret by (apply capacity_eq; eauto).
  destruct (Z.eqb_spec (size_ v) (capacity_ v)) as [_|?]; [reflexivity|lia].
Qed.

Lemma shrink_to_fit_wp this v xs h o p l k :
  o !! this = Some v -> owns h v xs -> size_ v <> capacity_ v ->
  wp (vector.shrink_to_fit this) (World h o p l k)
    (fun _ w' => exists p' l',
       w' = if decide (xs = [])
            then World (released h v) (<[this := vec_default]> o) p' l' k
            else World (released (<[fresh (dom h) := slots xs (size_ v)]> h) v)
                   (<[this := Vec (Ptr (Some (fresh (dom h))) 0) (size_ v) (size_ v)]> o)
                   p' l' k)
    (fun w' => exists p' l', w' = World h o p' l' k).
Proof.
  intros Ho Hown Hne. pose proof Hown as (Hsz & Hcap & _).
  unfold vector.shrink_to_fit, wp at 1.
  erewrite bind_Ret by (apply size_eq; eauto).
  erewrite bind_Ret by (apply capacity_eq; eauto).
  destruct (Z.eqb_spec (size_ v) (capacity_ v)) as [?|_]; [lia|]. simpl.
  erewrite bind_Ret by (apply size_eq; eauto).
  destruct (decide (xs = [])) as [->|Hxs].
  - simpl in Hsz. rewrite Hsz.
    eapply wp_mono.
    { apply replace_wp with (v := v) (xs := [])
        (P := fun h1 vt => h1 = h /\ vt = vec_default); [exact Ho|].
      apply wp_ret. exists p, l, h, vec_default.
      split; [reflexivity|]. split; [exact Hown|]. split; reflexivity. }
    + intros [] w' (p' & l' & h1 & vt & [-> ->] & ->). eauto.
    + intros w' Hw'. exact Hw'.
  - assert (0 < length xs)%nat by (destruct xs; [congruence|simpl; lia]).
    apply reallocate_wp with (xs := xs); try assumption; lia.
Qed.
End Replace.

Section EraseFacts.
Context {T : Type} `{Element T}.
Implicit Types (h : gmap nat (list (option T))) (o : gmap nat vec).
Implicit Types (p : list bool) (l : list event) (k : nat).
Implicit Types (xs ys zs : list T).

(** What the swaps of [erase] leave in front once the tail is popped. *)
Lemma erase_result xs zs (f e : nat) :
  (f <= e <= length xs)%nat -> length zs = length xs ->
  (forall j, (j < f)%nat -> zs !! j = xs !! j) ->
  (forall j, (j < length xs - e)%nat -> zs !! (f + j)%nat = xs !! (e + j)%nat) ->
  take (length zs - (e - f)) zs = take f xs ++ drop e xs.
Proof.
  intros Hfe Hlen Hpre Hsuf. apply list_eq. intros j.
  destruct (decide (j < f)%nat) as [Hjf|Hjf].
  - rewrite lookup_take_lt by lia.
    rewrite lookup_app_l by (rewrite length_take; lia).
    rewrite lookup_take_lt by lia. apply Hpre. exact Hjf.
  - rewrite lookup_app_r by (rewrite length_take; lia).
    rewrite length_take, Nat.min_l by lia.
    rewrite lookup_drop.
    destruct (decide (j < length zs - (e - f))%nat) as [Hj|Hj].
    + rewrite lookup_take_lt by lia.
      replace j with (f + (j - f))%nat at 1 by lia.
      apply Hsuf. lia.
    + rewrite lookup_take_ge by lia.
      symmetry. apply lookup_ge_None. lia.
Qed.

(** The first loop of [erase], from iteration [i] on, [c] to go. *)
Lemma erase_loop_wp this b v cap (f e n : nat) o k c : forall (i : nat) ys h p l,
  (i + c = n - e)%nat -> (f <= e <= n)%nat ->
  o !! this = Some v -> data_ v = Ptr (Some b) 0 ->
  h !! b = Some (slots ys cap) -> length ys = n ->
  Z.of_nat n <= cap < SIZE_MOD ->
  wp (for_loop c (Z.of_nat i) (vector.erase_swap this (Z.of_nat f) (Z.of_nat e)))
    (World h o p l k)
    (fun _ w' => exists p' zs, length zs = n /\
       (forall j, (j < f + i)%nat -> zs !! j = ys !! j) /\
       (forall j, (i <= j < i + c)%nat -> zs !! (f + j)%nat = ys !! (e + j)%nat) /\
       w' = World (<[b := slots zs cap]> h) o p' l k)
    (fun w' => nothrow_move && nothrow_move_assign = false /\
       exists p' zs, length zs = n /\
       w' = World (<[b := slots zs cap]> h) o p' l k).
Proof.
  induction c as [|c IH]; intros i ys h p l Hic Hfe Ho Hd Hh Hlen Hcap.
  - apply wp_ret. exists p, ys. split; [exact Hlen|].
    split; [reflexivity|]. split; [intros j Hj; lia|].
    rewrite insert_id by exact Hh. reflexivity.
  - cbn [for_loop].
    destruct (lookup_lt_is_Some_2 ys (e + i)) as [x Hx]; [lia|].
    destruct (lookup_lt_is_Some_2 ys (f + i)) as [y Hy]; [lia|].
    unfold wp, bind. unfold vector.erase_swap at 1.
    erewrite bind_Ret by (apply data_eq; eauto).
    rewrite Hd. unfold ptr_add. simpl. rewrite !Z.add_0_l.
    rewrite !wrap_small by lia.
    destruct (std_swap_cases b (Z.of_nat e + Z.of_nat i) (Z.of_nat f + Z.of_nat i)
                (slots ys cap) x y h o p l k Hh ltac:(lia) ltac:(lia))
      as [[p1 Hsw]|(Hns & p1 & x' & y' & Hsw)].
    { apply slots_lookup_live.
      replace (Z.to_nat (Z.of_nat e + Z.of_nat i)) with (e + i)%nat by lia. exact Hx. }
    { apply slots_lookup_live.
      replace (Z.to_nat (Z.of_nat f + Z.of_nat i)) with (f + i)%nat by lia. exact Hy. }
    + rewrite Hsw.
      replace (Z.to_nat (Z.of_nat e + Z.of_nat i)) with (e + i)%nat by lia.
      replace (Z.to_nat (Z.of_nat f + Z.of_nat i)) with (f + i)%nat by lia.
      rewrite slots_insert by lia.
      rewrite slots_insert by (rewrite length_insert; lia).
      set (ys' := <[(f + i)%nat := x]> (<[(e + i)%nat := y]> ys)).
      assert (Hlen' : length ys' = n) by (unfold ys'; rewrite !length_insert; exact Hlen).
      replace (Z.of_nat i + 1) with (Z.of_nat (S i)) by lia.
      specialize (IH (S i) ys' (<[b := slots ys' cap]> h) p1 l
                     ltac:(lia) Hfe Ho Hd (lookup_insert_eq _ _ _) Hlen' Hcap).
      unfold wp in IH.
      destruct (for_loop c (Z.of_nat (S i)) _ _) as [[] w'|w'|r]; [| |exact IH].
      * destruct IH as (p' & zs & Hzl & Hpre & Hsuf & ->).
        exists p', zs. split; [exact Hzl|].
        split; [|split].
        -- intros j Hj. rewrite Hpre by lia. unfold ys'.
           rewrite list_lookup_insert_ne by lia.
           rewrite list_lookup_insert_ne by lia. reflexivity.
        -- intros j Hj. destruct (decide (j = i)) as [->|Hne].
           ++ rewrite Hpre by lia. unfold ys'.
              rewrite list_lookup_insert_eq by (rewrite length_insert; lia).
              symmetry. exact Hx.
           ++ rewrite Hsuf by lia. unfold ys'.
              rewrite list_lookup_insert_ne by lia.
              rewrite list_lookup_insert_ne by lia. reflexivity.
        -- rewrite insert_insert_eq. reflexivity.
      * destruct IH as (Hns & p' & zs & Hzl & ->).
        split; [exact Hns|]. exists p', zs. split; [exact Hzl|].
        rewrite insert_insert_eq. reflexivity.
    + rewrite Hsw. split; [exact Hns|].
      replace (Z.to_nat (Z.of_nat e + Z.of_nat i)) with (e + i)%nat by lia.
      replace (Z.to_nat (Z.of_nat f + Z.of_nat i)) with (f + i)%nat by lia.
      rewrite slots_insert by lia.
      rewrite slots_insert by (rewrite length_insert; lia).
      exists p1, (<[(f + i)%nat := y']> (<[(e + i)%nat := x']> ys)).
      split; [rewrite !length_insert; exact Hlen|reflexivity].
Qed.

Lemma owns_shape h v xs :
  owns h v xs ->
  v = Vec (Ptr (blk (data_ v)) 0) (Z.of_nat (length xs)) (capacity_ v).
Proof.
  intros (Hsz & _ & Hoff & _). destruct v as [[bo z] sz cap]. simpl in *.
  subst. reflexivity.
Qed.

(** [erase(first, last)] on the valid range of indices [f, e): the
    elements from [e] on move down to [f], the tail is destroyed. *)
Lemma erase_range_wp this v xs (f e : nat) h o p l k :
  o !! this = Some v -> owns h v xs -> (f <= e <= length xs)%nat ->
  wp (vector.erase_range this (ptr_add (data_ v) (Z.of_nat f))
                         (ptr_add (data_ v) (Z.of_nat e))) (World h o p l k)
    (fun r w' => r = ptr_add (data_ v) (Z.of_nat f) /\ exists p' l',
       w' = World (stored h v (take f xs ++ drop e xs))
              (<[this := Vec (data_ v) (size_ v - Z.of_nat (e - f)) (capacity_ v)]> o)
              p' l' k)
    (fun w' => nothrow_move && nothrow_move_assign = false /\
       exists p' zs, length zs = length xs /\
       w' = World (stored h v zs) o p' l k).
Proof.
  intros Ho Hown Hfe.
  pose proof (owns_shape _ _ _ Hown) as Hv.
  destruct Hown as (Hsz & Hcap & Hoff & Hblk).
  unfold vector.erase_range.
  unfold wp at 1.
  erewrite bind_Ret by (apply begin_eq; eauto).
  unfold ptr_diff at 1. rewrite bool_decide_eq_true_2 by reflexivity.
  erewrite bind_Ret by reflexivity.
  erewrite bind_Ret by (apply begin_eq; eauto).
  unfold ptr_diff at 1. rewrite bool_decide_eq_true_2 by reflexivity.
  erewrite bind_Ret by reflexivity.
  unfold ptr_diff at 1. rewrite bool_decide_eq_true_2 by reflexivity.
  erewrite bind_Ret by reflexivity.
  erewrite bind_Ret by (apply size_eq; eauto).
  unfold ptr_add. simpl.
  replace (off (data_ v) + Z.of_nat f - off (data_ v)) with (Z.of_nat f) by lia.
  replace (off (data_ v) + Z.of_nat e - off (data_ v)) with (Z.of_nat e) by lia.
  replace (off (data_ v) + Z.of_nat e - (off (data_ v) + Z.of_nat f))
    with (Z.of_nat (e - f)) by lia.
  rewrite !(wrap_small (Z.of_nat _)) by lia.
  rewrite wrap_small by lia.
  unfold for_upto.
  replace (Z.to_nat (size_ v - Z.of_nat e)) with (length xs - e)%nat by lia.
  rewrite Nat2Z.id.
  destruct (blk (data_ v)) as [b|] eqn:Hb.
  - destruct Hblk as [Hpos Hh].
    assert (Hd : data_ v = Ptr (Some b) 0).
    { destruct (data_ v) as [bo z]. simpl in *. subst. reflexivity. }
    pose proof (erase_loop_wp this b v (capacity_ v) f e (length xs) o k
                  (length xs - e) 0%nat xs h p l ltac:(lia) Hfe Ho Hd Hh eq_refl
                  ltac:(lia)) as Hloop.
    unfold wp in Hloop. change (Z.of_nat 0) with 0 in Hloop.
    unfold bind at 1.
    destruct (for_loop (length xs - e) 0 _ _) as [[] w1|w1|r]; [| |exact Hloop].
    + destruct Hloop as (p' & zs & Hzl & Hpre & Hsuf & ->).
      rewrite Hv in Ho. try rewrite Hb in Ho.
      destruct (pop_loop_eq this b (capacity_ v) (e - f) zs 0
                  (<[b := slots zs (capacity_ v)]> h) o p' l k) as [l' Hpop];
        [lia| rewrite Hzl; exact Ho | apply lookup_insert_eq | lia |].
      erewrite bind_Ret by exact Hpop.
      erewrite bind_Ret by (apply begin_eq; apply lookup_insert_eq).
      simpl. unfold ret. split; [rewrite Hoff; reflexivity|].
      exists p', l'. unfold stored. rewrite Hb, Hd. simpl.
      rewrite insert_insert_eq.
      rewrite erase_result with (xs := xs) (e := e); try assumption; cycle 1.
      { intros j Hj. apply Hpre. lia. }
      { intros j Hj. apply Hsuf. lia. }
      do 3 f_equal. lia.
    + destruct Hloop as (Hns & p' & zs & Hzl & ->).
      split; [exact Hns|]. exists p', zs. split; [exact Hzl|].
      unfold stored. rewrite Hb. reflexivity.
  - (* the empty vector without storage *)
    assert (Hxs : xs = []) by (destruct xs; [reflexivity|simpl in *; lia]).
    subst xs. simpl in *.
    assert (f = 0%nat) by (clear -Hfe; lia).
    assert (e = 0%nat) by (clear -Hfe; lia). subst f e.
    simpl.
    erewrite bind_Ret by reflexivity.
    erewrite bind_Ret by reflexivity.
    erewrite bind_Ret by (apply begin_eq; eauto).
    unfold ret. split; [simpl; rewrite ?Hb; reflexivity|].
    exists p, l. unfold stored. rewrite Hb.
    rewrite Z.sub_0_r, vec_eta, insert_id by exact Ho. reflexivity.
Qed.

(** [erase(pos)] *)
Lemma erase_wp this v xs (i : nat) h o p l k :
  o !! this = Some v -> owns h v xs -> (i < length xs)%nat ->
  wp (vector.erase this (ptr_add (data_ v) (Z.of_nat i))) (World h o p l k)
    (fun r w' => r = ptr_add (data_ v) (Z.of_nat i) /\ exists p' l',
       w' = World (stored h v (take i xs ++ drop (S i) xs))
              (<[this := Vec (data_ v) (size_ v - 1) (capacity_ v)]> o)
              p' l' k)
    (fun w' => nothrow_move && nothrow_move_assign = false /\
       exists p' zs, length zs = length xs /\
       w' = World (stored h v zs) o p' l k).
Proof.
  intros Ho Hown Hi. unfold vector.erase.
  replace (ptr_add (ptr_add (data_ v) (Z.of_nat i)) 1)
    with (ptr_add (data_ v) (Z.of_nat (S i)))
    by (unfold ptr_add; simpl; f_equal; lia).
  eapply wp_mono; [apply erase_range_wp with (xs := xs); eauto; lia| |].
  - intros r w' [-> (p' & l' & ->)]. split; [reflexivity|].
    exists p', l'. replace (Z.of_nat (S i - i)) with 1 by lia. reflexivity.
  - intros w' Hw'. exact Hw'.
Qed.
End EraseFacts.

Section InsertFacts.
Context {T : Type} `{Element T}.
Implicit Types (h : gmap nat (list (option T))) (o : gmap nat vec).
Implicit Types (p : list bool) (l : list event) (k : nat).
Implicit Types (xs ys zs : list T).

Lemma released_lookup_fresh h v xs s :
  owns h v xs ->
  released (<[fresh (dom h) := s]> h) v !! fresh (dom h) = Some s.
Proof.
  intros Hown. pose proof (fresh_block_None h) as Hf.
  pose proof (owns_block_ne _ _ _ _ Hown Hf) as Hne.
  unfold released. destruct (blk (data_ v)) as [b|].
  - rewrite lookup_delete_ne by congruence. apply lookup_insert_eq.
  - apply lookup_insert_eq.
Qed.

Lemma released_insert_fresh h v xs s s' :
  owns h v xs ->
  <[fresh (dom h) := s']> (released (<[fresh (dom h) := s]> h) v)
  = released (<[fresh (dom h) := s']> h) v.
Proof.
  intros Hown. pose proof (fresh_block_None h) as Hf.
  pose proof (owns_block_ne _ _ _ _ Hown Hf) as Hne.
  unfold released. destruct (blk (data_ v)) as [b|].
  - rewrite <- delete_insert_ne by congruence.
    rewrite insert_insert_eq. reflexivity.
  - apply insert_insert_eq.
Qed.

(** The block of a grown vector, and how to overwrite it. *)
Lemma grown_block h v xs h' v' zs :
  owns h v xs -> grown h v h' v' zs ->
  exists b, data_ v' = Ptr (Some b) 0 /\
    h' !! b = Some (slots zs (capacity_ v')) /\
    size_ v' = size_ v + 1 /\ size_ v' <= capacity_ v' /\
    forall zs', grown h v (<[b := slots zs' (capacity_ v')]> h') v' zs'.
Proof.
  intros Hown Hg. pose proof Hown as (Hsz & Hcap & _).
  destruct Hg as [(Hlt & -> & ->)|(Hfull & -> & ->)]; simpl.
  - destruct (owns_spare _ _ _ Hown Hlt) as (b & Hd & Hh).
    exists b. unfold stored. rewrite Hd. simpl.
    split; [reflexivity|]. split; [apply lookup_insert_eq|].
    split; [reflexivity|]. split; [lia|].
    intros zs'. left. split; [exact Hlt|]. split; [rewrite Hd; reflexivity|].
    unfold stored. rewrite Hd. simpl. apply insert_insert_eq.
  - exists (fresh (dom h)).
    split; [reflexivity|].
    split; [eapply released_lookup_fresh; eauto|].
    split; [reflexivity|]. split; [lia|].
    intros zs'. right. split; [exact Hfull|]. split; [reflexivity|].
    eapply released_insert_fresh; eauto.
Qed.

(** [push_back], both paths. *)
Lemma push_back_wp fuel this v xs (value : T) h o p l k :
  o !! this = Some v -> owns h v xs ->
  2 * capacity_ v + 1 < SIZE_MOD ->
  wp (vector.push_back (S fuel) this value) (World h o p l k)
    (fun _ w' => exists p' l' h' v',
       grown h v h' v' (xs ++ [value]) /\
       w' = World h' (<[this := v']> o) p' l' k)
    (fun w' => exists p' l', w' = World h o p' l' k).
Proof.
  intros Ho Hown Hbound. pose proof Hown as (Hsz & Hcap & _).
  destruct (decide (size_ v < capacity_ v)) as [Hlt|Hge].
  - eapply wp_mono; [apply push_back_spare_wp with (xs := xs); eauto| |].
    + intros [] w' (p' & b & Hb & ->). eexists p', _, _, _.
      split; [|reflexivity]. left. split; [exact Hlt|]. split; [reflexivity|].
      unfold stored. rewrite Hb. reflexivity.
    + intros w' (p' & ->). eauto.
  - eapply wp_mono; [apply push_back_grow_wp with (xs := xs); eauto; lia| |].
    + intros [] w' (p' & l' & ->). eexists p', l', _, _.
      split; [|reflexivity]. right. split; [lia|]. split; reflexivity.
    + intros w' Hw'. exact Hw'.
Qed.

(** [v.push_back(r)] for an lvalue [r]: the value is read and copied
    before the vector changes, also when [r] is an element of [v]. *)
Lemma push_back_lvalue_wp fuel this v xs r x h o p l k :
  o !! this = Some v -> owns h v xs -> refers h r = Some x ->
  2 * capacity_ v + 1 < SIZE_MOD ->
  wp (vector.push_back_lvalue (S fuel) this r) (World h o p l k)
    (fun _ w' => exists p' l' h' v',
       grown h v h' v' (xs ++ [x]) /\
       w' = World h' (<[this := v']> o) p' l' k)
    (fun w' => exists p' l', w' = World h o p' l' k).
Proof.
  intros Ho Hown Hr Hbound.
  unfold vector.push_back_lvalue. apply wp_bind.
  unfold wp at 1. rewrite (copy_T_eq r x) by exact Hr.
  destruct (fires p); [eauto|].
  apply push_back_wp; assumption.
Qed.
End InsertFacts.

Section InsertLoop.
Context {T : Type} `{Element T}.
Implicit Types (h : gmap nat (list (option T))) (o : gmap nat vec).
Implicit Types (p : list bool) (l : list event) (k : nat).
Implicit Types (xs ys zs A B : list T).

(** The loop of [insert]: the new element [x], at index [length A],
    moves down to index [idx] one swap at a time. *)
Lemma insert_loop_wp b cap (idx : nat) o k x n : forall A B h p l,
  (idx <= length A)%nat -> (length A - idx <= n)%nat ->
  h !! b = Some (slots (A ++ x :: B) cap) ->
  Z.of_nat (length (A ++ x :: B)) <= cap ->
  wp (vector.insert_loop n (Ptr (Some b) (Z.of_nat (length A)))
                         (Ptr (Some b) (Z.of_nat idx))) (World h o p l k)
    (fun _ w' => exists p',
       w' = World (<[b := slots (take idx A ++ x :: drop idx A ++ B) cap]> h) o p' l k)
    (fun w' => nothrow_swap = false /\ exists p' zs,
       length zs = length (A ++ x :: B) /\
       w' = World (<[b := slots zs cap]> h) o p' l k).
Proof.
  induction n as [|n IH]; intros A B h p l Hidx Hn Hh Hcap.
  - assert (length A = idx) as <- by lia.
    simpl. rewrite bool_decide_eq_true_2 by reflexivity.
    apply wp_ret. exists p. rewrite firstn_all, drop_all. simpl.
    rewrite insert_id by exact Hh. reflexivity.
  - cbn [vector.insert_loop].
    destruct (decide (length A = idx)) as [<-|Hne].
    { rewrite bool_decide_eq_true_2 by reflexivity.
      apply wp_ret. exists p. rewrite firstn_all, drop_all. simpl.
      rewrite insert_id by exact Hh. reflexivity. }
    rewrite bool_decide_eq_false_2 by (intros Heq; injection Heq; lia).
    destruct A as [|a A' _] using rev_ind; [simpl in *; lia|].
    rewrite length_app in *. simpl in Hidx, Hn, Hne, Hcap.
    unfold wp, bind. unfold ptr_add. simpl.
    assert (Hi1 : Z.to_nat (Z.of_nat (length A' + 1)) = S (length A')) by lia.
    assert (Hi2 : Z.to_nat (Z.of_nat (length A' + 1) + -1) = length A') by lia.
    destruct (iter_swap_cases b (Z.of_nat (length A' + 1)) (Z.of_nat (length A' + 1) + -1)
                (slots ((A' ++ [a]) ++ x :: B) cap) x a h o p l k Hh ltac:(lia) ltac:(lia))
      as [[p1 Hsw]|(Hns & p1 & x' & y' & Hsw)].
    { apply slots_lookup_live. rewrite Hi1.
      rewrite lookup_app_r by (rewrite length_app; simpl; lia).
      rewrite length_app. simpl.
      replace (S (length A') - (length A' + 1))%nat with 0%nat by lia. reflexivity. }
    { apply slots_lookup_live. rewrite Hi2.
      rewrite <- app_assoc. rewrite lookup_app_r by lia.
      rewrite Nat.sub_diag. reflexivity. }
    + rewrite Hsw, Hi1, Hi2.
      replace (Z.of_nat (length A' + 1) + -1) with (Z.of_nat (length A')) by lia.
      assert (Hlist : <[length A' := Some x]>
                        (<[S (length A') := Some a]> (slots ((A' ++ [a]) ++ x :: B) cap))
                      = slots (A' ++ x :: a :: B) cap).
      { rewrite slots_insert by (rewrite !length_app; simpl; lia).
        rewrite slots_insert by (rewrite length_insert, !length_app; simpl; lia).
        f_equal. rewrite <- app_assoc. simpl.
        rewrite insert_app_r_alt by lia.
        replace (S (length A') - length A')%nat with 1%nat by lia. simpl.
        rewrite insert_app_r_alt by lia.
        rewrite Nat.sub_diag. reflexivity. }
      rewrite Hlist.
      specialize (IH A' (a :: B) (<[b := slots (A' ++ x :: a :: B) cap]> h) p1 l
                     ltac:(lia) ltac:(lia) (lookup_insert_eq _ _ _)).
      unfold wp in IH.
      destruct (vector.insert_loop n _ _ _) as [[] w'|w'|r].
      * destruct IH as [p' ->]; [rewrite !length_app in *; simpl in *; lia|].
        exists p'. rewrite insert_insert_eq.
        rewrite take_app_le, drop_app_le by lia.
        rewrite <- !app_assoc. reflexivity.
      * destruct IH as (Hns & p' & zs & Hzl & ->);
          [rewrite !length_app in *; simpl in *; lia|].
        split; [exact Hns|]. exists p', zs.
        split; [rewrite Hzl, !length_app; simpl; lia|].
        rewrite insert_insert_eq. reflexivity.
      * apply IH. rewrite !length_app in *; simpl in *; lia.
    + rewrite Hsw, Hi1, Hi2. split; [exact Hns|].
      rewrite slots_insert by (rewrite !length_app; simpl; lia).
      rewrite slots_insert by (rewrite length_insert, !length_app; simpl; lia).
      eexists p1, _. split; [|reflexivity].
      rewrite !length_insert. reflexivity.
Qed.

(** [insert(pos, value)] at the valid index [idx]. *)
Lemma insert_wp fuel this v xs (idx : nat) r x h o p l k :
  o !! this = Some v -> owns h v xs -> (idx <= length xs)%nat ->
  refers h r = Some x -> 2 * capacity_ v + 1 < SIZE_MOD ->
  wp (vector.insert (S fuel) this (ptr_add (data_ v) (Z.of_nat idx)) r) (World h o p l k)
    (fun res w' => exists p' l' h' v',
       grown h v h' v' (take idx xs ++ x :: drop idx xs) /\
       res = ptr_add (data_ v') (Z.of_nat idx) /\
       w' = World h' (<[this := v']> o) p' l' k)
    (fun w' =>
       (exists p' l', w' = World h o p' l' k) \/
       (nothrow_swap = false /\ exists p' l' h' v' zs,
          length zs = S (length xs) /\ grown h v h' v' zs /\
          w' = World h' (<[this := v']> o) p' l' k)).
Proof.
  intros Ho Hown Hidx Hr Hbound. pose proof Hown as (Hsz & Hcap & Hoff & _).
  unfold vector.insert. unfold wp at 1.
  erewrite bind_Ret by (apply begin_eq; eauto).
  unfold ptr_diff at 1. rewrite bool_decide_eq_true_2 by reflexivity.
  erewrite bind_Ret by reflexivity.
  unfold ptr_add at 1. simpl.
  replace (off (data_ v) + Z.of_nat idx - off (data_ v)) with (Z.of_nat idx) by lia.
  rewrite wrap_small by lia.
  change (wp (vector.push_back_lvalue (S fuel) this r ;;
              e <- vector.end_ this ;;
              d <- vector.data this ;;
              vector.insert_loop (S (Z.to_nat (off e))) (ptr_add e (-1))
                                 (ptr_add d (Z.of_nat idx)) ;;
              d <- vector.data this ;;
              ret (ptr_add d (Z.of_nat idx)))
            (World h o p l k)
            (fun res w' => exists p' l' h' v',
               grown h v h' v' (take idx xs ++ x :: drop idx xs) /\
               res = ptr_add (data_ v') (Z.of_nat idx) /\
               w' = World h' (<[this := v']> o) p' l' k)
            (fun w' =>
               (exists p' l', w' = World h o p' l' k) \/
               (nothrow_swap = false /\ exists p' l' h' v' zs,
                  length zs = S (length xs) /\ grown h v h' v' zs /\
                  w' = World h' (<[this := v']> o) p' l' k))).
  apply wp_bind.
  eapply wp_mono; [apply push_back_lvalue_wp with (xs := xs) (x := x); eauto| |].
  - intros [] w1 (p1 & l1 & h1 & v1 & Hg & ->).
    destruct (grown_block _ _ _ _ _ _ Hown Hg) as (b & Hd & Hh1 & Hsz1 & Hcap1 & Hset).
    unfold wp at 1.
    erewrite bind_Ret by (apply end_eq; apply lookup_insert_eq).
    erewrite bind_Ret by (apply data_eq; apply lookup_insert_eq).
    rewrite Hd. unfold ptr_add. cbn [blk off]. rewrite !Z.add_0_l.
    replace (size_ v1 + -1) with (Z.of_nat (length xs)) by lia.
    pose proof (insert_loop_wp b (capacity_ v1) idx (<[this := v1]> o) k x
                  (S (Z.to_nat (size_ v1))) xs [] h1 p1 l1 Hidx ltac:(lia)) as Hloop.
    rewrite app_nil_r in Hloop.
    specialize (Hloop Hh1 ltac:(rewrite length_app; simpl; lia)).
    unfold wp in Hloop. unfold bind at 1.
    destruct (vector.insert_loop _ _ _ _) as [[] w2|w2|r0]; [| |exact Hloop].
    + destruct Hloop as [p2 ->].
      erewrite bind_Ret by (apply data_eq; apply lookup_insert_eq).
      unfold ret. eexists p2, l1, _, v1.
      split; [apply Hset|]. rewrite Hd. split; reflexivity.
    + destruct Hloop as (Hns & p2 & zs & Hzl & ->).
      right. split; [exact Hns|]. eexists p2, l1, _, v1, zs.
      split; [rewrite Hzl, length_app; simpl; lia|].
      split; [apply Hset|reflexivity].
  - intros w1 Hw1. left. exact Hw1.
Qed.
End InsertLoop.

Section Quiet.
Context {T : Type} `{Element T}.
Local Abbreviation quiet := (@quiet T _).
Local Abbreviation silent := (@silent T _).

Lemma quiet_ret {A} (a : A) : quiet (ret a).
Proof. intros w Hw. exact Hw. Qed.

Lemma quiet_abort {A} r : quiet (abort (A := A) r).
Proof. intros w Hw. exact I. Qed.

Lemma quiet_bind {A B} (m : M T A) (f : A -> M T B) :
  quiet m -> (forall a, quiet (f a)) -> quiet (bind m f).
Proof.
  intros Hm Hf w Hw. unfold bind. specialize (Hm w Hw).
  destruct (m w) as [a w'|w'|r]; [|contradiction|exact I].
  apply Hf. exact Hm.
Qed.

Lemma quiet_catch {A} (m h : M T A) : quiet m -> quiet (catch m h).
Proof.
  intros Hm w Hw. unfold catch. specialize (Hm w Hw).
  destruct (m w) as [a w'|w'|r]; [exact Hm|contradiction|exact I].
Qed.

Lemma silent_quiet {A} (m : M T A) : silent m -> quiet m.
Proof.
  intros Hm w Hw. specialize (Hm w). unfold fault_free in *.
  destruct (m w) as [a w'|w'|r]; [rewrite Hm; exact Hw|contradiction|exact I].
Qed.

Lemma silent_ret {A} (a : A) : silent (ret a).
Proof. intros w. reflexivity. Qed.

Lemma silent_abort {A} r : silent (abort (A := A) r).
Proof. intros w. exact I. Qed.

Lemma silent_bind {A B} (m : M T A) (f : A -> M T B) :
  silent m -> (forall a, silent (f a)) -> silent (bind m f).
Proof.
  intros Hm Hf w. unfold bind. specialize (Hm w).
  destruct (m w) as [a w'|w'|r]; [|contradiction|exact I].
  specialize (Hf a w'). destruct (f a w'); [congruence|contradiction|exact I].
Qed.

Lemma silent_get_obj this : silent (get_obj this).
Proof. intros w. unfold get_obj. destruct (objs w !! this); [reflexivity|exact I]. Qed.

Lemma silent_put_obj this v : silent (put_obj this v).
Proof. intros w. unfold put_obj. destruct (objs w !! this); [reflexivity|exact I]. Qed.

Lemma silent_new_obj : silent new_obj.
Proof. intros w. reflexivity. Qed.

Lemma silent_del_obj this : silent (del_obj this).
Proof. intros w. reflexivity. Qed.

Lemma silent_emit e : silent (emit e).
Proof. intros w. reflexivity. Qed.

Lemma silent_operator_delete q : silent (operator_delete q).
Proof.
  intros w. unfold operator_delete.
  destruct (blk q); [destruct (heap w !! _)|]; destruct (off q =? 0);
    try exact I; reflexivity.
Qed.

Lemma silent_locate q : silent (locate q).
Proof.
  intros w. unfold locate.
  destruct (blk q); [|exact I]. destruct (heap w !! _); [|exact I].
  destruct (off q <? 0); [exact I|].
  destruct (_ <? _)%nat; [reflexivity|exact I].
Qed.

Lemma silent_set_slot b i v : silent (set_slot b i v).
Proof. intros w. unfold set_slot. destruct (heap w !! b); [reflexivity|exact I]. Qed.

Lemma silent_load q : silent (load q).
Proof.
  apply silent_bind; [apply silent_locate|]. intros [[b i] s]. simpl.
  destruct (s !! i) as [[x|]|]; try apply silent_abort. apply silent_ret.
Qed.

Lemma silent_store q (x : T) : silent (store q x).
Proof.
  apply silent_bind; [apply silent_locate|]. intros [[b i] s]. simpl.
  destruct (s !! i) as [[y|]|]; try apply silent_abort. apply silent_set_slot.
Qed.

Lemma silent_construct_at q (x : T) : silent (construct_at q x).
Proof.
  apply silent_bind; [apply silent_locate|]. intros [[b i] s]. simpl.
  destruct (s !! i) as [[y|]|]; try apply silent_abort.
  apply silent_bind; [apply silent_set_slot|]. intros _. apply silent_emit.
Qed.

Lemma silent_destroy_at q : silent (destroy_at q).
Proof.
  apply silent_bind; [apply silent_locate|]. intros [[b i] s]. simpl.
  destruct (s !! i) as [[y|]|]; try apply silent_abort.
  apply silent_bind; [apply silent_set_slot|]. intros _. apply silent_emit.
Qed.

Lemma silent_read r : silent (read r).
Proof. destruct r; [apply silent_load|apply silent_ret]. Qed.

Lemma silent_ptr_diff q1 q2 : silent (ptr_diff q1 q2).
Proof. unfold ptr_diff. case_bool_decide; [apply silent_ret|apply silent_abort]. Qed.

Lemma silent_for_loop n : forall i (body : Z -> M T unit),
  (forall j, silent (body j)) -> silent (for_loop n i body).
Proof.
  induction n as [|n IH]; intros i body Hb; [apply silent_ret|].
  simpl. apply silent_bind; [apply Hb|]. intros _. apply IH. exact Hb.
Qed.

Lemma silent_for_down n : forall (body : Z -> M T unit),
  (forall j, silent (body j)) -> silent (for_down n body).
Proof.
  induction n as [|n IH]; intros body Hb; [apply silent_ret|].
  simpl. apply silent_bind; [apply Hb|]. intros _. apply IH. exact Hb.
Qed.

Lemma quiet_for_loop n : forall i (body : Z -> M T unit),
  (forall j, quiet (body j)) -> quiet (for_loop n i body).
Proof.
  induction n as [|n IH]; intros i body Hb; [apply quiet_ret|].
  simpl. apply quiet_bind; [apply Hb|]. intros _. apply IH. exact Hb.
Qed.

Lemma fault_free_tail h o (p : list bool) l k :
  fault_free (World h o p l k) -> fault_free (World (T := T) h o (tail p) l k).
Proof.
  unfold fault_free. simpl. intros Hp. destruct p; [exact Hp|].
  inversion Hp; assumption.
Qed.

Lemma fault_free_fires h o (p : list bool) l k :
  fault_free (World (T := T) h o p l k) -> fires p = false.
Proof.
  unfold fault_free. simpl. intros Hp. destruct p as [|[] q]; try reflexivity.
  inversion Hp; discriminate.
Qed.

Lemma quiet_fault_point : quiet fault_point.
Proof.
  intros [h o p l k] Hw. rewrite fault_point_eq.
  rewrite (fault_free_fires _ _ _ _ _ Hw). apply fault_free_tail. exact Hw.
Qed.

Lemma quiet_operator_new n : quiet (operator_new n).
Proof.
  intros [h o p l k] Hw. rewrite operator_new_eq.
  rewrite (fault_free_fires _ _ _ _ _ Hw).
  apply (fault_free_tail h o p l k) in Hw. exact Hw.
Qed.

Lemma quiet_copy_T (r : cref T) : quiet (copy_T r).
Proof.
  apply quiet_bind; [apply silent_quiet, silent_read|]. intros x.
  apply quiet_bind; [apply quiet_fault_point|]. intros _. apply quiet_ret.
Qed.

Lemma quiet_move_T (x : T) : quiet (move_T x).
Proof.
  apply quiet_bind; [|intros _; apply quiet_ret].
  destruct nothrow_move; [apply quiet_ret|apply quiet_fault_point].
Qed.

Lemma quiet_std_swap q1 q2 : quiet (std_swap q1 q2).
Proof.
  apply quiet_bind.
  { apply quiet_bind; [apply silent_quiet, silent_load|]. intros x.
    apply quiet_bind; [destruct nothrow_move; [apply quiet_ret|apply quiet_fault_point]|].
    intros _. apply quiet_bind; [apply silent_quiet, silent_store|].
    intros _. apply quiet_ret. }
  intros tmp. apply quiet_bind.
  { apply quiet_bind; [apply silent_quiet, silent_load|]. intros y.
    apply quiet_bind;
      [destruct nothrow_move_assign; [apply quiet_ret|apply quiet_fault_point]|].
    intros _. apply quiet_bind; [apply silent_quiet, silent_store|].
    intros _. apply silent_quiet, silent_store. }
  intros _. apply quiet_bind;
    [destruct nothrow_move_assign; [apply quiet_ret|apply quiet_fault_point]|].
  intros _. apply silent_quiet, silent_store.
Qed.

Lemma quiet_iter_swap q1 q2 : quiet (iter_swap q1 q2).
Proof.
  unfold iter_swap. destruct own_swap; [|apply quiet_std_swap].
  apply quiet_bind; [apply silent_quiet, silent_load|]. intros x.
  apply quiet_bind; [apply silent_quiet, silent_load|]. intros y.
  apply quiet_bind; [apply silent_quiet, silent_store|].
  intros _. apply silent_quiet, silent_store.
Qed.

(** The methods. *)

Lemma silent_size this : silent (vector.size this).
Proof. apply silent_bind; [apply silent_get_obj|]. intros v. apply silent_ret. Qed.
Lemma silent_capacity this : silent (vector.capacity this).
Proof. apply silent_bind; [apply silent_get_obj|]. intros v. apply silent_ret. Qed.
Lemma silent_data this : silent (vector.data this).
Proof. apply silent_bind; [apply silent_get_obj|]. intros v. apply silent_ret. Qed.
Lemma silent_begin this : silent (vector.begin this).
Proof. apply silent_bind; [apply silent_get_obj|]. intros v. apply silent_ret. Qed.
Lemma silent_end this : silent (vector.end_ this).
Proof. apply silent_bind; [apply silent_get_obj|]. intros v. apply silent_ret. Qed.
Lemma silent_subscript this i : silent (vector.subscript this i).
Proof. apply silent_bind; [apply silent_get_obj|]. intros v. apply silent_ret. Qed.
Lemma silent_back this : silent (vector.back this).
Proof. apply silent_bind; [apply silent_end|]. intros v. apply silent_ret. Qed.
Lemma silent_set_data this q : silent (vector.set_data_ this q).
Proof. apply silent_bind; [apply silent_get_obj|]. intros v. apply silent_put_obj. Qed.
Lemma silent_set_size this n : silent (vector.set_size_ this n).
Proof. apply silent_bind; [apply silent_get_obj|]. intros v. apply silent_put_obj. Qed.
Lemma silent_set_capacity this n : silent (vector.set_capacity_ this n).
Proof. apply silent_bind; [apply silent_get_obj|]. intros v. apply silent_put_obj. Qed.

Lemma silent_swap this other : silent (vector.swap this other).
Proof.
  unfold vector.swap.
  repeat (apply silent_bind; [first [apply silent_get_obj | apply silent_set_data
                                    | apply silent_set_size | apply silent_set_capacity]
                             | intros ?]).
  first [apply silent_set_capacity | apply silent_put_obj].
Qed.

Lemma silent_pop_back this : silent (vector.pop_back this).
Proof.
  apply silent_bind; [apply silent_back|]. intros b.
  apply silent_bind; [apply silent_destroy_at|]. intros _.
  apply silent_bind; [apply silent_size|]. intros sz. apply silent_set_size.
Qed.

Lemma silent_clear this : silent (vector.clear this).
Proof.
  apply silent_bind; [apply silent_size|]. intros sz.
  apply silent_bind; [apply silent_for_loop; intros _; apply silent_pop_back|].
  intros _. apply silent_set_size.
Qed.

Lemma silent_destructor this : silent (vector.destructor this).
Proof.
  apply silent_bind; [apply silent_clear|]. intros _.
  apply silent_bind; [apply silent_data|]. intros d.
  apply silent_bind; [apply silent_operator_delete|]. intros _.
  apply silent_set_data.
Qed.

Lemma quiet_copy_element this other i : quiet (vector.copy_element this other i).
Proof.
  apply quiet_catch.
  apply quiet_bind; [apply silent_quiet, silent_subscript|]. intros src.
  apply quiet_bind; [apply quiet_copy_T|]. intros x.
  apply quiet_bind; [apply silent_quiet, silent_data|]. intros d.
  apply silent_quiet, silent_construct_at.
Qed.

Lemma quiet_vector_copy_cap this other n : quiet (vector.vector_copy_cap this other n).
Proof.
  unfold vector.vector_copy_cap.
  destruct ((n =? 0) || bool_decide (other = this)); [apply quiet_ret|].
  apply quiet_bind; [apply quiet_operator_new|]. intros q.
  apply quiet_bind; [apply silent_quiet, silent_set_data|]. intros _.
  apply quiet_bind; [apply silent_quiet, silent_size|]. intros sz.
  apply quiet_bind; [apply quiet_for_loop; intros j; apply quiet_copy_element|].
  intros _.
  apply quiet_bind; [apply silent_quiet, silent_set_capacity|]. intros _.
  apply quiet_bind; [apply silent_quiet, silent_size|]. intros sz'.
  apply silent_quiet, silent_set_size.
Qed.

Lemma quiet_vector_copy this other : quiet (vector.vector_copy this other).
Proof.
  apply quiet_bind; [apply silent_quiet, silent_size|]. intros n.
  apply quiet_vector_copy_cap.
Qed.

Lemma quiet_with_temp {A} (ctor : nat -> M T unit) (body : nat -> M T A) :
  (forall tmp, quiet (ctor tmp)) -> (forall tmp, quiet (body tmp)) ->
  quiet (vector.with_temp ctor body).
Proof.
  intros Hc Hb. unfold vector.with_temp.
  apply quiet_bind; [apply silent_quiet, silent_new_obj|]. intros tmp.
  apply quiet_bind; [apply quiet_catch, Hc|]. intros _.
  apply quiet_bind; [apply quiet_catch, Hb|]. intros r.
  apply quiet_bind; [apply silent_quiet, silent_destructor|]. intros _.
  apply quiet_bind; [apply silent_quiet, silent_del_obj|]. intros _.
  apply quiet_ret.
Qed.

Lemma quiet_declare (ctor : nat -> M T unit) :
  (forall this, quiet (ctor this)) -> quiet (vector.declare ctor).
Proof.
  intros Hc. unfold vector.declare.
  apply quiet_bind; [apply silent_quiet, silent_new_obj|]. intros this.
  apply quiet_bind; [apply quiet_catch, Hc|]. intros _. apply quiet_ret.
Qed.

Lemma quiet_push_back fuel : forall this (value : T),
  quiet (vector.push_back fuel this value).
Proof.
  induction fuel as [|fuel IH]; intros this value.
  - simpl.
    apply quiet_bind; [apply silent_quiet, silent_size|]. intros sz.
    apply quiet_bind; [apply silent_quiet, silent_capacity|]. intros cap.
    destruct (sz <? cap).
    + apply quiet_bind; [apply silent_quiet, silent_data|]. intros d.
      apply quiet_bind; [apply quiet_move_T|]. intros x.
      apply quiet_bind; [apply silent_quiet, silent_construct_at|]. intros _.
      apply quiet_bind; [apply silent_quiet, silent_size|]. intros sz'.
      apply silent_quiet, silent_set_size.
    + apply quiet_with_temp; [intros tmp; apply quiet_vector_copy_cap|].
      intros tmp. apply quiet_bind; [apply quiet_abort|].
      intros _. apply silent_quiet, silent_swap.
  - simpl.
    apply quiet_bind; [apply silent_quiet, silent_size|]. intros sz.
    apply quiet_bind; [apply silent_quiet, silent_capacity|]. intros cap.
    destruct (sz <? cap).
    + apply quiet_bind; [apply silent_quiet, silent_data|]. intros d.
      apply quiet_bind; [apply quiet_move_T|]. intros x.
      apply quiet_bind; [apply silent_quiet, silent_construct_at|]. intros _.
      apply quiet_bind; [apply silent_quiet, silent_size|]. intros sz'.
      apply silent_quiet, silent_set_size.
    + apply quiet_with_temp; [intros tmp; apply quiet_vector_copy_cap|].
      intros tmp. apply quiet_bind.
      * apply quiet_bind; [apply quiet_move_T|]. intros arg. apply IH.
      * intros _. apply silent_quiet, silent_swap.
Qed.

Lemma quiet_push_back_lvalue fuel this (r : cref T) : quiet (vector.push_back_lvalue fuel this r).
Proof.
  apply quiet_bind; [apply quiet_copy_T|]. intros x. apply quiet_push_back.
Qed.


Lemma quiet_shrink_to_fit this : quiet (vector.shrink_to_fit this).
Proof.
  apply quiet_bind; [apply silent_quiet, silent_size|]. intros sz.
  apply quiet_bind; [apply silent_quiet, silent_capacity|]. intros cap.
  destruct (negb (sz =? cap)); [|apply quiet_ret].
  apply quiet_bind; [apply silent_quiet, silent_size|]. intros sz'.
  apply quiet_with_temp; [intros tmp; apply quiet_vector_copy_cap|].
  intros tmp. apply silent_quiet, silent_swap.
Qed.

Lemma quiet_assign_copy this other : quiet (vector.assign_copy this other).
Proof.
  unfold vector.assign_copy. case_bool_decide; [apply quiet_ret|].
  apply quiet_with_temp; [intros tmp; apply quiet_vector_copy|].
  intros tmp. apply silent_quiet, silent_swap.
Qed.

Lemma quiet_insert_loop n : forall q1 q2, quiet (vector.insert_loop n q1 q2).
Proof.
  induction n as [|n IH]; intros q1 q2; simpl.
  - case_bool_decide; [apply quiet_ret|apply quiet_abort].
  - case_bool_decide; [apply quiet_ret|].
    apply quiet_bind; [apply quiet_iter_swap|]. intros _. apply IH.
Qed.

Lemma quiet_insert fuel this pos (r : cref T) : quiet (vector.insert fuel this pos r).
Proof.
  apply quiet_bind; [apply silent_quiet, silent_begin|]. intros b.
  apply quiet_bind; [apply silent_quiet, silent_ptr_diff|]. intros index.
  apply quiet_bind; [apply quiet_push_back_lvalue|]. intros _.
  apply quiet_bind; [apply silent_quiet, silent_end|]. intros e.
  apply quiet_bind; [apply silent_quiet, silent_data|]. intros d.
  apply quiet_bind; [apply quiet_insert_loop|]. intros _.
  apply quiet_bind; [apply silent_quiet, silent_data|]. intros d'.
  apply quiet_ret.
Qed.

Lemma quiet_erase_range this first last : quiet (vector.erase_range this first last).
Proof.
  apply quiet_bind; [apply silent_quiet, silent_begin|]. intros b.
  apply quiet_bind; [apply silent_quiet, silent_ptr_diff|]. intros fi.
  apply quiet_bind; [apply silent_quiet, silent_begin|]. intros b'.
  apply quiet_bind; [apply silent_quiet, silent_ptr_diff|]. intros li.
  apply quiet_bind; [apply silent_quiet, silent_ptr_diff|]. intros di.
  apply quiet_bind; [apply silent_quiet, silent_size|]. intros sz.
  apply quiet_bind.
  { apply quiet_for_loop. intros j.
    apply quiet_bind; [apply silent_quiet, silent_data|]. intros d.
    apply quiet_std_swap. }
  intros _.
  apply quiet_bind;
    [apply silent_quiet, silent_for_loop; intros _; apply silent_pop_back|].
  intros _.
  apply quiet_bind; [apply silent_quiet, silent_begin|]. intros b''.
  apply quiet_ret.
Qed.
End Quiet.

Section Lifecycle.
Context {T : Type} `{Element T}.
Implicit Types (h : gmap nat (list (option T))) (o : gmap nat vec).
Implicit Types (p : list bool) (l : list event) (k : nat).
Implicit Types (xs ys zs : list T).

(** A declaration: the object is at a fresh address. *)
Lemma declare_wp (ctor : nat -> M T unit) h o p l k
    (Q : nat -> world T -> Prop) (E : world T -> Prop) :
  wp (ctor (fresh (dom o))) (World h (<[fresh (dom o) := vec_default]> o) p l k)
    (fun _ w1 => Q (fresh (dom o)) w1)
    (fun w1 => E (without (fresh (dom o)) w1)) ->
  wp (vector.declare ctor) (World h o p l k) Q E.
Proof.
  unfold wp, vector.declare, bind, catch, new_obj, del_obj, throw, ret, without.
  simpl. destruct (ctor _ _) as [[] w1|w1|r]; auto.
Qed.

(** The copy constructor on a fresh object. *)
Lemma vector_copy_wp this other vo ys h o p l k :
  this <> other ->
  o !! this = Some vec_default -> o !! other = Some vo -> owns h vo ys ->
  wp (vector.vector_copy this other) (World h o p l k)
    (fun _ w' =>
       if decide (ys = []) then w' = World h o p l k
       else
         Forall (fun f => f = false) (take (S (length ys)) p) /\
         w' = World (<[fresh (dom h) := slots ys (size_ vo)]> h)
                (<[this := Vec (Ptr (Some (fresh (dom h))) 0) (size_ vo) (size_ vo)]> o)
                (drop (S (length ys)) p)
                (l ++ EvNew (fresh (dom h)) (size_ vo)
                   :: (EvConstruct (fresh (dom h)) <$> seq 0 (length ys))) k)
    (fun w' =>
       (fires p = true /\ w' = World h o (tail p) l k) \/
       exists j : nat, (j < length ys)%nat /\
         p !! S j = Some true /\
         Forall (fun f => f = false) (take (S j) p) /\
         w' = World h (<[this := Vec (Ptr (Some (fresh (dom h))) 0) 0 0]> o)
                (drop (S (S j)) p)
                (l ++ EvNew (fresh (dom h)) (size_ vo)
                   :: (EvConstruct (fresh (dom h)) <$> seq 0 j)
                   ++ (EvDestroy (fresh (dom h)) <$> reverse (seq 0 j))
                   ++ [EvDelete (fresh (dom h))]) k).
Proof.
  intros Hne Ht Ho Hown. pose proof Hown as (Hsz & Hcap & _).
  unfold vector.vector_copy, wp at 1.
  erewrite bind_Ret by (apply size_eq; eauto).
  destruct (decide (ys = [])) as [->|Hys].
  - simpl in Hsz. rewrite Hsz. reflexivity.
  - assert (0 < length ys)%nat by (destruct ys; [congruence|simpl; lia]).
    eapply wp_mono; [apply vector_copy_cap_wp with (vo := vo) (xs := ys); eauto; lia| |].
    + intros [] w' [Hall ->]. split; [exact Hall|]. rewrite <- Hsz. reflexivity.
    + intros w' Hw'. exact Hw'.
Qed.

(** [operator=(const vector&)] between two distinct objects. *)
Lemma assign_copy_wp this other v vo xs ys h o p l k :
  this <> other ->
  o !! this = Some v -> owns h v xs ->
  o !! other = Some vo -> owns h vo ys ->
  wp (vector.assign_copy this other) (World h o p l k)
    (fun _ w' => exists p' l',
       w' = if decide (ys = [])
            then World (released h v) (<[this := vec_default]> o) p' l' k
            else World (released (<[fresh (dom h) := slots ys (size_ vo)]> h) v)
                   (<[this := Vec (Ptr (Some (fresh (dom h))) 0) (size_ vo) (size_ vo)]> o)
                   p' l' k)
    (fun w' => exists p' l', w' = World h o p' l' k).
Proof.
  intros Hne Ho Hown Hoo Howno.
  pose proof (fresh_block_None h) as Hfb.
  pose proof (fresh_obj_ne o this v Ho) as Htmp.
  pose proof (fresh_obj_ne o other vo Hoo) as Htmpo.
  unfold vector.assign_copy. rewrite bool_decide_eq_false_2 by congruence.
  eapply wp_mono.
  { apply replace_wp with (v := v) (xs := xs)
      (P := fun h1 vt =>
              if decide (ys = []) then h1 = h /\ vt = vec_default
              else h1 = <[fresh (dom h) := slots ys (size_ vo)]> h /\
                   vt = Vec (Ptr (Some (fresh (dom h))) 0) (size_ vo) (size_ vo));
      [exact Ho|].
    eapply wp_mono.
    { apply vector_copy_wp with (vo := vo) (ys := ys); try assumption.
      - apply lookup_insert_eq.
      - rewrite lookup_insert_ne by exact Htmpo. exact Hoo. }
    - intros [] w1 Hw1. destruct (decide (ys = [])) as [Hys|Hys].
      + subst w1. eexists p, l, h, vec_default.
        split; [reflexivity|]. split; [exact Hown|]. split; reflexivity.
      + destruct Hw1 as [_ ->]. eexists _, _, _, _.
        split; [rewrite insert_insert_eq; reflexivity|].
        split; [|split; reflexivity].
        apply owns_insert_ne; [exact Hown|]. eapply owns_block_ne; eauto.
    - intros w1 [[_ ->] | (j & Hj & _ & _ & ->)].
      + eexists _, _, _. reflexivity.
      + eexists _, _, _. rewrite insert_insert_eq. reflexivity. }
  - intros [] w' (p' & l' & h1 & vt & HP & ->). exists p', l'.
    destruct (decide (ys = [])); destruct HP as [-> ->]; reflexivity.
  - intros w' Hw'. exact Hw'.
Qed.

Lemma assign_copy_self_eq this (w : world T) :
  vector.assign_copy this this w = Ret tt w.
Proof. unfold vector.assign_copy. rewrite bool_decide_eq_true_2 by reflexivity. reflexivity. Qed.

(** The move constructor: the fields go to [this], [other] is reset. *)
Lemma vector_move_eq this other v vo h o p l k :
  this <> other -> o !! this = Some v -> o !! other = Some vo ->
  vector.vector_move this other (World h o p l k)
  = Ret tt (World h (<[this := vo]> (<[other := vec_default]> o)) p l k).
Proof.
  intros Hne Ho Hoo. destruct vo as [d s c]. unfold vector.vector_move.
  erewrite bind_Ret by (apply get_obj_eq; eauto).
  erewrite bind_Ret by (eapply put_obj_eq; eauto).
  erewrite bind_Ret by (eapply set_data_eq; rewrite lookup_insert_ne by congruence; eauto).
  erewrite bind_Ret by (apply get_obj_eq; rewrite lookup_insert_ne by congruence;
                        apply lookup_insert_eq).
  erewrite bind_Ret by (eapply put_obj_eq; rewrite lookup_insert_ne by congruence;
                        apply lookup_insert_eq).
  erewrite bind_Ret by (eapply set_size_eq; rewrite lookup_insert_ne by congruence;
                        rewrite lookup_insert_eq; reflexivity).
  erewrite bind_Ret by (apply get_obj_eq; rewrite lookup_insert_ne by congruence;
                        apply lookup_insert_eq).
  erewrite bind_Ret by (eapply put_obj_eq; rewrite lookup_insert_ne by congruence;
                        apply lookup_insert_eq).
  erewrite set_capacity_eq by (rewrite lookup_insert_ne by congruence;
                               rewrite lookup_insert_eq; reflexivity).
  simpl. do 2 f_equal. unfold vec_default, nullptr. map_cases.
Qed.

Lemma with_temp_eq {A} (ctor : nat -> M T unit) (body : nat -> M T A)
    h o p l k w1 w2 w3 r :
  ctor (fresh (dom o)) (World h (<[fresh (dom o) := vec_default]> o) p l k) = Ret tt w1 ->
  body (fresh (dom o)) w1 = Ret r w2 ->
  vector.destructor (fresh (dom o)) w2 = Ret tt w3 ->
  vector.with_temp ctor body (World h o p l k) = Ret r (without (fresh (dom o)) w3).
Proof.
  intros Hc Hb Hd.
  unfold vector.with_temp.
  rewrite (bind_Ret _ _ _ _ _ (new_obj_eq h o p l k)).
  unfold bind, catch. rewrite Hc, Hb, Hd. reflexivity.
Qed.

(** [operator=(vector&&)] between two distinct objects: the old
    contents of [this] are destroyed, then the fields are exchanged. *)
Lemma assign_move_eq this other v vo xs h o p l k :
  this <> other ->
  o !! this = Some v -> owns h v xs -> o !! other = Some vo ->
  exists l',
    vector.assign_move this other (World h o p l k)
    = Ret tt (World (released h v) (<[this := vo]> (<[other := vec_default]> o)) p l' k).
Proof.
  intros Hne Ho Hown Hoo.
  pose proof (fresh_obj_None o) as Hfo.
  pose proof (fresh_obj_ne o this v Ho) as Htmp.
  unfold vector.assign_move. rewrite bool_decide_eq_false_2 by congruence.
  set (tmp := fresh (dom o)) in *.
  edestruct (destructor_eq tmp v xs h
               (<[this := vec_default]> (<[tmp := v]> (<[tmp := vec_default]> o)))
               p l k) as [l2 Hd];
    [rewrite lookup_insert_ne by (intros Heq; apply Htmp; symmetry; exact Heq);
     apply lookup_insert_eq | exact Hown |].
  exists l2.
  erewrite bind_Ret; cycle 1.
  { eapply with_temp_eq; [reflexivity| |exact Hd].
    fold tmp. eapply swap_eq; [exact Htmp|apply lookup_insert_eq|].
    rewrite lookup_insert_ne by exact Htmp. exact Ho. }
  unfold without, set_objs. simpl.
  erewrite swap_eq with (a := vo) (b := vec_default); [|congruence| |]; fold tmp.
  - do 2 f_equal. map_cases.
  - rewrite lookup_delete_ne by congruence.
    rewrite lookup_insert_ne by congruence.
    rewrite lookup_insert_ne by congruence.
    rewrite lookup_insert_ne by congruence.
    rewrite lookup_insert_ne by congruence. exact Hoo.
  - rewrite lookup_delete_ne by (intros Heq; apply Htmp; exact Heq).
    rewrite lookup_insert_ne by (intros Heq; apply Htmp; exact Heq).
    apply lookup_insert_eq.
Qed.

Lemma assign_move_self_eq this (w : world T) :
  vector.assign_move this this w = Ret tt w.
Proof. unfold vector.assign_move. rewrite bool_decide_eq_true_2 by reflexivity. reflexivity. Qed.

(** The end of a vector: its elements are destroyed, its block released. *)
Lemma destroy_eq this v xs h o p l k :
  o !! this = Some v -> owns h v xs ->
  exists l',
    vector.destroy this (World h o p l k)
    = Ret tt (World (released h v) (delete this o) p l' k).
Proof.
  intros Ho Hown.
  destruct (destructor_eq this v xs h o p l k Ho Hown) as [l' Hd].
  exists l'. unfold vector.destroy.
  erewrite bind_Ret by exact Hd.
  rewrite del_obj_eq, delete_insert_eq. reflexivity.
Qed.
End Lifecycle.

Section Consistency.
Context {T : Type} `{Element T}.
Implicit Types (h : gmap nat (list (option T))) (o : gmap nat vec).
Implicit Types (xs ys zs : list T).

Lemma owns_frame h h' u ys :
  owns h u ys ->
  (forall b, blk (data_ u) = Some b -> h' !! b = h !! b) ->
  owns h' u ys.
Proof.
  intros (Hsz & Hcap & Hoff & Hblk) Hframe. repeat split; try assumption; try lia.
  destruct (blk (data_ u)) as [b|]; [|exact Hblk].
  destruct Hblk as [Hpos Hh]. split; [exact Hpos|].
  rewrite Hframe by reflexivity. exact Hh.
Qed.

Lemma owns_block_Some h u ys b :
  owns h u ys -> blk (data_ u) = Some b -> is_Some (h !! b).
Proof.
  intros (_ & _ & _ & Hblk) Hb. rewrite Hb in Hblk. destruct Hblk as [_ ->]. eauto.
Qed.

Lemma consistent_empty h : consistent h ∅.
Proof.
  split.
  - intros this v Hv. rewrite lookup_empty in Hv. discriminate.
  - intros l1 l2 v1 v2 b Hv. rewrite lookup_empty in Hv. discriminate.
Qed.

(** One object changes: the others keep their blocks. *)
Lemma consistent_update h o this v h' v' xs' :
  consistent h o -> o !! this = Some v -> owns h' v' xs' ->
  (forall b s, h !! b = Some s -> blk (data_ v) <> Some b -> h' !! b = Some s) ->
  (forall b, blk (data_ v') = Some b -> blk (data_ v) = Some b \/ h !! b = None) ->
  consistent h' (<[this := v']> o).
Proof.
  intros [Hwf Hex] Ho Hown F1 F2. split.
  - intros l u Hu. rewrite lookup_insert in Hu. case_decide.
    + injection Hu as <-. eauto.
    + destruct (Hwf l u Hu) as [ys Hys]. exists ys.
      destruct Hys as (Hsz & Hcap & Hoff & Hblk). repeat split; try assumption; try lia.
      destruct (blk (data_ u)) as [b|] eqn:Hb; [|exact Hblk].
      destruct Hblk as [Hpos Hh]. split; [exact Hpos|].
      apply F1; [exact Hh|]. intros Hvb.
      apply H0. symmetry. eapply Hex; eauto.
  - assert (Hcross : forall l u b, l <> this -> o !! l = Some u ->
              blk (data_ u) = Some b -> blk (data_ v') = Some b -> False).
    { intros l u b Hl Hu Hub Hvb.
      destruct (F2 b Hvb) as [Hv|Hnone].
      - apply Hl. eapply Hex; eauto.
      - destruct (Hwf l u Hu) as [ys Hys].
        destruct (owns_block_Some _ _ _ _ Hys Hub) as [s Hs]. congruence. }
    intros l1 l2 v1 v2 b H1 H2 Hb1 Hb2.
    rewrite lookup_insert in H1. rewrite lookup_insert in H2.
    repeat case_decide; simplify_eq; try reflexivity;
      first [ exfalso; eapply Hcross; eauto; fail | eapply Hex; eauto ].
Qed.

Lemma owns_default h : owns h vec_default [].
Proof. repeat split; simpl; first [lia | reflexivity]. Qed.

Lemma consistent_new h o this :
  consistent h o -> o !! this = None -> consistent h (<[this := vec_default]> o).
Proof.
  intros [Hwf Hex] Hnone. split.
  - intros l u Hu. rewrite lookup_insert in Hu. case_decide.
    + injection Hu as <-. exists []. apply owns_default.
    + eauto.
  - intros l1 l2 v1 v2 b H1 H2 Hb1 Hb2.
    rewrite lookup_insert in H1. rewrite lookup_insert in H2.
    repeat case_decide; simplify_eq; try reflexivity; try discriminate.
    eapply Hex; eauto.
Qed.

Lemma released_lookup_ne h v b :
  blk (data_ v) <> Some b -> released h v !! b = h !! b.
Proof.
  intros Hne. unfold released. destruct (blk (data_ v)) as [bv|]; [|reflexivity].
  rewrite lookup_delete_ne by congruence. reflexivity.
Qed.

Lemma consistent_delete h o this v :
  consistent h o -> o !! this = Some v ->
  consistent (released h v) (delete this o).
Proof.
  intros [Hwf Hex] Ho. split.
  - intros l u Hu. rewrite lookup_delete in Hu. case_decide; [discriminate|].
    destruct (Hwf l u Hu) as [ys Hys]. exists ys.
    eapply owns_frame; [exact Hys|]. intros b Hb.
    apply released_lookup_ne. intros Hvb. apply H0. eapply Hex; eauto.
  - intros l1 l2 v1 v2 b H1 H2 Hb1 Hb2.
    rewrite lookup_delete in H1. rewrite lookup_delete in H2.
    repeat case_decide; try discriminate. eapply Hex; eauto.
Qed.

Lemma consistent_swap h o this other a b :
  consistent h o -> o !! this = Some a -> o !! other = Some b ->
  consistent h (<[other := a]> (<[this := b]> o)).
Proof.
  intros [Hwf Hex] Ha Hb. split.
  - intros l u Hu. rewrite !lookup_insert in Hu.
    repeat case_decide; simplify_eq; eauto.
  - intros l1 l2 v1 v2 bb H1 H2 Hb1 Hb2.
    rewrite !lookup_insert in H1. rewrite !lookup_insert in H2.
    repeat case_decide; simplify_eq; try reflexivity;
      try (exfalso; match goal with
                    | Hn : ?x <> ?y |- _ => apply Hn; eapply Hex; eauto; fail
                    | Hn : ?x <> ?y |- _ => apply Hn; symmetry; eapply Hex; eauto; fail
                    end).
    eapply Hex; eauto.
Qed.

(** The forms in which the operations leave the changed object. *)

Lemma frame_stored h v zs b s :
  h !! b = Some s -> blk (data_ v) <> Some b -> stored h v zs !! b = Some s.
Proof.
  intros Hs Hne. unfold stored. destruct (blk (data_ v)) as [bv|]; [|exact Hs].
  rewrite lookup_insert_ne by congruence. exact Hs.
Qed.

Lemma owns_stored h v xs zs sz :
  owns h v xs -> sz = Z.of_nat (length zs) -> sz <= capacity_ v ->
  owns (stored h v zs) (Vec (data_ v) sz (capacity_ v)) zs.
Proof.
  intros (Hsz & Hcap & Hoff & Hblk) -> Hle. repeat split; simpl; try lia; try assumption.
  unfold stored. destruct (blk (data_ v)) as [b|].
  - split; [apply Hblk|]. apply lookup_insert_eq.
  - exact Hblk.
Qed.

Lemma consistent_stored h o this v xs zs sz :
  consistent h o -> o !! this = Some v -> owns h v xs ->
  sz = Z.of_nat (length zs) -> sz <= capacity_ v ->
  consistent (stored h v zs) (<[this := Vec (data_ v) sz (capacity_ v)]> o).
Proof.
  intros Hc Ho Hown Hsz Hle.
  eapply consistent_update; [exact Hc|exact Ho|eapply owns_stored; eauto| |].
  - intros b s Hs Hne. apply frame_stored; assumption.
  - intros b Hb. left. exact Hb.
Qed.

Lemma owns_reallocated h v xs zs n :
  owns h v xs -> 0 < n < SIZE_MOD -> Z.of_nat (length zs) <= n ->
  owns (released (<[fresh (dom h) := slots zs n]> h) v)
       (Vec (Ptr (Some (fresh (dom h))) 0) (Z.of_nat (length zs)) n) zs.
Proof.
  intros Hown Hn Hle. repeat split; simpl; try lia.
  eapply released_lookup_fresh; eauto.
Qed.

Lemma consistent_reallocated h o this v xs zs sz n :
  consistent h o -> o !! this = Some v -> owns h v xs ->
  0 < n < SIZE_MOD -> sz = Z.of_nat (length zs) -> sz <= n ->
  consistent (released (<[fresh (dom h) := slots zs n]> h) v)
             (<[this := Vec (Ptr (Some (fresh (dom h))) 0) sz n]> o).
Proof.
  intros Hc Ho Hown Hn -> Hle.
  pose proof (fresh_block_None h) as Hfb.
  eapply consistent_update; [exact Hc|exact Ho|eapply owns_reallocated; eauto| |].
  - intros b s Hs Hne. rewrite released_lookup_ne by exact Hne.
    rewrite lookup_insert_ne by congruence. exact Hs.
  - intros b Hb. simpl in Hb. injection Hb as <-. right. exact Hfb.
Qed.

Lemma consistent_emptied h o this v :
  consistent h o -> o !! this = Some v ->
  consistent (released h v) (<[this := vec_default]> o).
Proof.
  intros Hc Ho.
  eapply consistent_update; [exact Hc|exact Ho|apply owns_default| |].
  - intros b s Hs Hne. rewrite released_lookup_ne by exact Hne. exact Hs.
  - intros b Hb. discriminate.
Qed.

Lemma owns_grown h v xs h' v' zs :
  owns h v xs -> grown h v h' v' zs -> length zs = S (length xs) ->
  2 * capacity_ v + 1 < SIZE_MOD ->
  owns h' v' zs.
Proof.
  intros Hown Hg Hlen Hb. pose proof Hown as (Hsz & Hcap & _).
  destruct Hg as [(Hlt & -> & ->)|(Hfull & -> & ->)].
  - eapply owns_stored; eauto; lia.
  - replace (size_ v + 1) with (Z.of_nat (length zs)) by lia.
    eapply owns_reallocated; eauto; lia.
Qed.

Lemma consistent_grown h o this v xs h' v' zs :
  consistent h o -> o !! this = Some v -> owns h v xs ->
  grown h v h' v' zs -> length zs = S (length xs) ->
  2 * capacity_ v + 1 < SIZE_MOD ->
  consistent h' (<[this := v']> o).
Proof.
  intros Hc Ho Hown Hg Hlen Hb. pose proof Hown as (Hsz & Hcap & _).
  destruct Hg as [(Hlt & -> & ->)|(Hfull & -> & ->)].
  - eapply consistent_stored; eauto; lia.
  - eapply consistent_reallocated; eauto; lia.
Qed.

Lemma consistent_moved h o this other v vo :
  consistent h o -> this <> other ->
  o !! this = Some v -> o !! other = Some vo ->
  consistent (released h v) (<[this := vo]> (<[other := vec_default]> o)).
Proof.
  intros Hc Hne Ho Hoo.
  pose proof (consistent_swap h o this other v vo Hc Ho Hoo) as Hs.
  pose proof (consistent_emptied h (<[other := v]> (<[this := vo]> o)) other v Hs
                (lookup_insert_eq _ _ _)) as He.
  rewrite insert_insert_eq in He.
  rewrite insert_insert_ne by congruence. exact He.
Qed.
End Consistency.

Section Steps.
Context {T : Type} `{Element T}.
Implicit Types (h : gmap nat (list (option T))) (o : gmap nat vec).
Implicit Types (p : list bool) (l : list event) (k : nat).
Implicit Types (xs ys zs : list T).

Lemma observe_eq this q v h o p l k :
  o !! this = Some v ->
  observe this q (World h o p l k) = Ret tt (World h o p l k).
Proof.
  intros Ho. destruct q; unfold observe.
  - erewrite bind_Ret by (apply size_eq; eauto). reflexivity.
  - erewrite bind_Ret by (apply capacity_eq; eauto). reflexivity.
  - unfold vector.empty. erewrite bind_Ret; [reflexivity|].
    erewrite bind_Ret by (apply size_eq; eauto). reflexivity.
  - erewrite bind_Ret by (apply data_eq; eauto). reflexivity.
  - erewrite bind_Ret by (apply begin_eq; eauto). reflexivity.
  - erewrite bind_Ret by (apply end_eq; eauto). reflexivity.
  - unfold vector.front. erewrite bind_Ret by (apply begin_eq; eauto). reflexivity.
  - erewrite bind_Ret by (apply back_eq; eauto). reflexivity.
  - erewrite bind_Ret by (apply subscript_eq; eauto). reflexivity.
Qed.

Lemma owns_positive h v xs :
  owns h v xs -> 0 < capacity_ v ->
  exists b, data_ v = Ptr (Some b) 0 /\ h !! b = Some (slots xs (capacity_ v)).
Proof.
  intros (Hsz & Hcap & Hoff & Hblk) Hlt.
  destruct v as [[[b|] z] sz cap]; simpl in *; subst.
  - exists b. split; [reflexivity|]. apply Hblk.
  - lia.
Qed.

Lemma pop_back_stored_eq this v xs x h o p l k :
  o !! this = Some v -> owns h v (xs ++ [x]) ->
  vector.pop_back this (World h o p l k)
  = Ret tt (World (stored h v xs)
              (<[this := Vec (data_ v) (size_ v - 1) (capacity_ v)]> o) p
              (l ++ [EvDestroy (default 0%nat (blk (data_ v))) (length xs)]) k).
Proof.
  intros Ho Hown. pose proof Hown as (Hsz & Hcap & Hoff & Hblk).
  rewrite length_app in Hsz. simpl in Hsz.
  destruct (owns_positive _ _ _ Hown) as (b & Hd & Hh); [lia|].
  destruct v as [d sz cap]. simpl in *. subst d.
  erewrite pop_back_eq; eauto; [|lia].
  unfold stored. simpl. do 3 f_equal. f_equal. lia.
Qed.

(** Every call within its contract has a defined outcome, and leaves
    the vectors well formed whether it returns or throws. *)
Lemma run_consistent fuel c h o p l k :
  consistent h o -> pre c (World h o p l k) ->
  wp (run (S fuel) c) (World h o p l k)
    (fun _ w' => consistent_world w') (fun w' => consistent_world w').
Proof.
  intros Hc Hpre. pose proof Hc as [Hwf Hex].
  pose proof (fresh_obj_None o) as Hfo.
  destruct c as [|other|other|this|this other|this other|this value|this r|this|this n
                |this|this|this other|this index r|this index|this first last|this q];
    simpl in Hpre; unfold run.
  - (* Declare_default *)
    apply wp_bind, declare_wp. apply wp_ret. apply wp_ret.
    apply consistent_new; assumption.
  - (* Declare_copy *)
    destruct Hpre as [vo Hoo]. destruct (Hwf _ _ Hoo) as [ys Hys].
    pose proof (fresh_obj_ne o other vo Hoo) as Htmp.
    pose proof (consistent_new h o _ Hc Hfo) as Hc0.
    apply wp_bind, declare_wp.
    eapply wp_mono.
    { apply vector_copy_wp with (vo := vo) (ys := ys); try assumption.
      - apply lookup_insert_eq.
      - rewrite lookup_insert_ne by exact Htmp. exact Hoo. }
    + intros [] w1 Hw1. apply wp_ret. destruct (decide (ys = [])) as [Hy|Hy].
      * subst w1. exact Hc0.
      * destruct Hw1 as [_ ->]. unfold consistent_world. simpl.
        pose proof Hys as (Hsz & Hcap & _).
        assert (0 < length ys)%nat by (destruct ys; [congruence|simpl; lia]).
        apply (consistent_reallocated h _ _ vec_default [] ys (size_ vo) (size_ vo));
          try assumption; try lia.
        -- apply lookup_insert_eq.
        -- apply owns_default.
    + intros w1 [[_ ->] | (j & Hj & _ & _ & ->)]; unfold consistent_world, without, set_objs;
        simpl.
      * rewrite delete_insert_id by exact Hfo. exact Hc.
      * rewrite insert_insert_eq, delete_insert_id by exact Hfo. exact Hc.
  - (* Declare_move *)
    destruct Hpre as [vo Hoo].
    pose proof (fresh_obj_ne o other vo Hoo) as Htmp.
    pose proof (consistent_new h o _ Hc Hfo) as Hc0.
    apply wp_bind, declare_wp.
    eapply wp_eq.
    { eapply vector_move_eq; [exact Htmp|apply lookup_insert_eq|].
      rewrite lookup_insert_ne by exact Htmp. exact Hoo. }
    apply wp_ret. unfold consistent_world. simpl.
    apply (consistent_moved h _ _ other vec_default vo Hc0 Htmp).
    + apply lookup_insert_eq.
    + rewrite lookup_insert_ne by exact Htmp. exact Hoo.
  - (* Destroy *)
    destruct Hpre as [v Ho]. destruct (Hwf _ _ Ho) as [xs Hxs].
    destruct (destroy_eq this v xs h o p l k Ho Hxs) as [l' Heq].
    eapply wp_eq; [exact Heq|]. unfold consistent_world. simpl.
    apply consistent_delete; assumption.
  - (* Assign_copy *)
    destruct Hpre as [[v Ho] [vo Hoo]].
    destruct (decide (this = other)) as [->|Hne].
    { eapply wp_eq; [apply assign_copy_self_eq|]. exact Hc. }
    destruct (Hwf _ _ Ho) as [xs Hxs]. destruct (Hwf _ _ Hoo) as [ys Hys].
    eapply wp_mono; [apply assign_copy_wp with (xs := xs) (ys := ys); eauto| |].
    + intros [] w' (p' & l' & ->). unfold consistent_world.
      destruct (decide (ys = [])) as [Hy|Hy]; simpl.
      * apply consistent_emptied; assumption.
      * pose proof Hys as (Hsz & Hcap & _).
        assert (0 < length ys)%nat by (destruct ys; [congruence|simpl; lia]).
        eapply consistent_reallocated; eauto; lia.
    + intros w' (p' & l' & ->). exact Hc.
  - (* Assign_move *)
    destruct Hpre as [[v Ho] [vo Hoo]].
    destruct (decide (this = other)) as [->|Hne].
    { eapply wp_eq; [apply assign_move_self_eq|]. exact Hc. }
    destruct (Hwf _ _ Ho) as [xs Hxs].
    destruct (assign_move_eq this other v vo xs h o p l k Hne Ho Hxs Hoo) as [l' Heq].
    eapply wp_eq; [exact Heq|]. unfold consistent_world. simpl.
    apply consistent_moved; assumption.
  - (* Push_back *)
    destruct Hpre as (v & Ho & Hb & Hfit). destruct (Hwf _ _ Ho) as [xs Hxs].
    eapply wp_mono; [apply push_back_wp with (xs := xs); eauto| |].
    + intros [] w' (p' & l' & h' & v' & Hg & ->). unfold consistent_world. simpl.
      eapply consistent_grown; eauto. rewrite length_app. simpl. lia.
    + intros w' (p' & l' & ->). exact Hc.
  - (* Push_back_lvalue *)
    destruct Hpre as (v & Ho & Hb & Hfit & [x Hx]). destruct (Hwf _ _ Ho) as [xs Hxs].
    eapply wp_mono; [apply push_back_lvalue_wp with (xs := xs) (x := x); eauto| |].
    + intros [] w' (p' & l' & h' & v' & Hg & ->). unfold consistent_world. simpl.
      eapply consistent_grown; eauto. rewrite length_app. simpl. lia.
    + intros w' (p' & l' & ->). exact Hc.
  - (* Pop_back *)
    destruct Hpre as (v & Ho & Hpos). destruct (Hwf _ _ Ho) as [xs Hxs].
    pose proof Hxs as (Hsz & Hcap & Hoff & Hblk).
    destruct xs as [|x xs' _] using rev_ind; [simpl in *; lia|].
    rewrite length_app in Hsz. simpl in Hsz.
    eapply wp_eq; [eapply pop_back_stored_eq; eauto|].
    unfold consistent_world. simpl.
    eapply consistent_stored; eauto; lia.
  - (* Reserve *)
    destruct Hpre as ([v Ho] & Hn & Hfit). destruct (Hwf _ _ Ho) as [xs Hxs].
    pose proof Hxs as (Hsz & Hcap & _).
    destruct (decide (n <= capacity_ v)) as [Hle|Hgt].
    { eapply wp_eq; [eapply reserve_noop_eq; eauto|]. exact Hc. }
    eapply wp_mono; [apply reserve_wp with (xs := xs); eauto; lia| |].
    + intros [] w' (p' & l' & ->). unfold consistent_world. simpl.
      eapply consistent_reallocated; eauto; lia.
    + intros w' (p' & l' & ->). exact Hc.
  - (* Shrink_to_fit *)
    destruct Hpre as [v Ho]. destruct (Hwf _ _ Ho) as [xs Hxs].
    pose proof Hxs as (Hsz & Hcap & _).
    destruct (decide (size_ v = capacity_ v)) as [Heq|Hne].
    { eapply wp_eq; [eapply shrink_to_fit_noop_eq; eauto|]. exact Hc. }
    eapply wp_mono; [apply shrink_to_fit_wp with (xs := xs); eauto| |].
    + intros [] w' (p' & l' & ->). unfold consistent_world.
      destruct (decide (xs = [])) as [Hx|Hx]; simpl.
      * apply consistent_emptied; assumption.
      * assert (0 < length xs)%nat by (destruct xs; [congruence|simpl; lia]).
        eapply consistent_reallocated; eauto; lia.
    + intros w' (p' & l' & ->). exact Hc.
  - (* Clear *)
    destruct Hpre as [v Ho]. destruct (Hwf _ _ Ho) as [xs Hxs].
    pose proof Hxs as (Hsz & Hcap & _).
    destruct (clear_eq this v xs h o p l k Ho Hxs) as [l' Heq].
    eapply wp_eq; [exact Heq|]. unfold consistent_world. simpl.
    eapply consistent_stored; eauto; simpl; lia.
  - (* Swap *)
    destruct Hpre as [[v Ho] [vo Hoo]].
    destruct (decide (this = other)) as [->|Hne].
    { eapply wp_eq; [eapply swap_self_eq; eauto|]. exact Hc. }
    eapply wp_eq; [eapply swap_eq; eauto|]. unfold consistent_world. simpl.
    apply consistent_swap; assumption.
  - (* Insert *)
    destruct Hpre as (v & Ho & Hidx & Hb & Hfit & [x Hx]). destruct (Hwf _ _ Ho) as [xs Hxs].
    pose proof Hxs as (Hsz & Hcap & _).
    eapply wp_bind_eq; [apply begin_eq; eauto|].
    apply wp_bind.
    eapply wp_mono; [apply insert_wp with (xs := xs) (x := x); eauto; lia| |].
    + intros res w' (p' & l' & h' & v' & Hg & _ & ->). apply wp_ret.
      unfold consistent_world. simpl.
      eapply consistent_grown; eauto.
      rewrite length_app. simpl. rewrite length_take, length_drop. lia.
    + intros w' [(p' & l' & ->)|(_ & p' & l' & h' & v' & zs & Hzl & Hg & ->)].
      * exact Hc.
      * unfold consistent_world. simpl. eapply consistent_grown; eauto.
  - (* Erase *)
    destruct Hpre as (v & Ho & Hidx). destruct (Hwf _ _ Ho) as [xs Hxs].
    pose proof Hxs as (Hsz & Hcap & _).
    eapply wp_bind_eq; [apply begin_eq; eauto|].
    apply wp_bind.
    eapply wp_mono; [apply erase_wp with (xs := xs); eauto; lia| |].
    + intros res w' (_ & p' & l' & ->). apply wp_ret.
      unfold consistent_world. simpl.
      eapply consistent_stored; eauto; [|lia].
      rewrite length_app, length_take, length_drop. lia.
    + intros w' (_ & p' & zs & Hzl & ->). unfold consistent_world. simpl.
      rewrite <- (insert_id o this v Ho). rewrite <- (vec_eta v) at 2.
      eapply consistent_stored; eauto; lia.
  - (* Erase_range *)
    destruct Hpre as (v & Ho & Hfl & Hl). destruct (Hwf _ _ Ho) as [xs Hxs].
    pose proof Hxs as (Hsz & Hcap & _).
    eapply wp_bind_eq; [apply begin_eq; eauto|].
    apply wp_bind.
    eapply wp_mono; [apply erase_range_wp with (xs := xs); eauto; lia| |].
    + intros res w' (_ & p' & l' & ->). apply wp_ret.
      unfold consistent_world. simpl.
      eapply consistent_stored; eauto; [|lia].
      rewrite length_app, length_take, length_drop. lia.
    + intros w' (_ & p' & zs & Hzl & ->). unfold consistent_world. simpl.
      rewrite <- (insert_id o this v Ho). rewrite <- (vec_eta v) at 2.
      eapply consistent_stored; eauto; lia.
  - (* Observe *)
    destruct Hpre as [v Ho].
    eapply wp_eq; [eapply observe_eq; eauto|]. exact Hc.
Qed.

(** Reachable worlds are consistent. *)
Lemma reachable_consistent (w : world T) : reachable w -> consistent_world w.
Proof.
  induction 1 as [h p|w fuel c w' Hr IH Hpre Hrun|w fuel c w' Hr IH Hpre Hrun].
  - apply consistent_empty.
  - destruct w as [h o p l k].
    pose proof (run_consistent fuel c h o p l k IH Hpre) as Hwp.
    unfold wp in Hwp. rewrite Hrun in Hwp. exact Hwp.
  - destruct w as [h o p l k].
    pose proof (run_consistent fuel c h o p l k IH Hpre) as Hwp.
    unfold wp in Hwp. rewrite Hrun in Hwp. exact Hwp.
Qed.
End Steps.

Section Claims.
Context {T : Type} `{Element T}.
Implicit Types (xs ys zs : list T) (w : world T) (v : vec).

Lemma wp_quiet_returns {A} (m : M T A) w Q E :
  wp m w Q E -> quiet m -> fault_free w -> exists a w', m w = Ret a w'.
Proof.
  intros Hwp Hq Hff. specialize (Hq w Hff). unfold wp in Hwp.
  destruct (m w) as [a w'|w'|r]; [eauto|contradiction|contradiction].
Qed.

Lemma grown_size h v h' v' zs : grown h v h' v' zs -> size_ v' = size_ v + 1.
Proof. intros [(_ & -> & _)|(_ & -> & _)]; reflexivity. Qed.

Lemma refers_alias h v xs (r : cref T) x :
  owns h v xs ->
  r = RefLocal x \/
    (exists i : nat, xs !! i = Some x /\ r = RefSlot (ptr_add (data_ v) (Z.of_nat i))) ->
  refers h r = Some x.
Proof.
  intros Hown [->|(i & Hi & ->)]; [reflexivity|].
  simpl. eapply deref_owns; eauto.
Qed.

(** C1. [push_back] of a value [x], given by a reference [r] that is
    either outside the container or an element of the container itself
    (push-from-self), has the strong guarantee: when it returns, the
    container holds the old elements followed by the pre-call value [x]
    and its size has grown by one; when anything throws (the copy of
    the argument, the allocation, a copy of an old element, a move of
    the new one) the heap and the vector object, hence size, capacity,
    data pointer and element values, are exactly as before.  No
    undefined behaviour occurs, and without injected faults it returns. *)
Theorem push_back_strong_guarantee (fuel : nat) (this : nat) v xs (r : cref T)
    (x : T) w :
  objs w !! this = Some v -> owns (heap w) v xs ->
  2 * capacity_ v + 1 < SIZE_MOD ->
  r = RefLocal x \/
    (exists i : nat, xs !! i = Some x /\ r = RefSlot (ptr_add (data_ v) (Z.of_nat i))) ->
  match vector.push_back_lvalue (S fuel) this r w with
  | Ret _ w' =>
      exists v', objs w' = <[this := v']> (objs w) /\
                 owns (heap w') v' (xs ++ [x]) /\
                 (xs ++ [x]) !! length xs = Some x /\
                 size_ v' = size_ v + 1 /\
                 leaked w' = leaked w
  | Throw w' => heap w' = heap w /\ objs w' = objs w /\ leaked w' = leaked w
  | Abort _ => False
  end /\
  (fault_free w -> exists w', vector.push_back_lvalue (S fuel) this r w = Ret tt w').
Proof.
  intros Ho Hown Hb Hr. destruct w as [h o p l k]. simpl in Ho, Hown.
  pose proof (refers_alias _ _ _ _ _ Hown Hr) as Hx.
  pose proof (push_back_lvalue_wp fuel this v xs r x h o p l k Ho Hown Hx Hb) as Hwp.
  split.
  - unfold wp in Hwp.
    destruct (vector.push_back_lvalue (S fuel) this r _) as [[] w'|w'|r0]; [| |exact Hwp].
    + destruct Hwp as (p' & l' & h' & v' & Hg & ->). simpl.
      exists v'. split; [reflexivity|].
      split; [eapply owns_grown; eauto; rewrite length_app; simpl; lia|].
      split; [rewrite lookup_app_r, Nat.sub_diag by lia; reflexivity|].
      split; [eapply grown_size; eauto|reflexivity].
    + destruct Hwp as (p' & l' & ->). simpl. auto.
  - intros Hff.
    destruct (wp_quiet_returns _ _ _ _ Hwp (quiet_push_back_lvalue _ _ _) Hff)
      as ([] & w' & Hrun).
    eauto.
Qed.

(** C2. A [push_back] on a full container ([size() == capacity()]) that
    returns leaves the capacity at [max(1, 2 * capacity + 1)]: 1 from
    capacity 0, and [2 * capacity + 1] in general; when it throws the
    capacity is unchanged.  Without injected faults it returns. *)
Theorem push_back_growth (fuel : nat) (this : nat) v xs (value : T) w :
  objs w !! this = Some v -> owns (heap w) v xs ->
  size_ v = capacity_ v ->
  2 * capacity_ v + 1 < SIZE_MOD ->
  match vector.push_back (S fuel) this value w with
  | Ret _ w' =>
      exists v', objs w' !! this = Some v' /\
                 capacity_ v' = Z.max 1 (2 * capacity_ v + 1) /\
                 capacity_ v' = 2 * capacity_ v + 1 /\
                 (capacity_ v = 0 -> capacity_ v' = 1)
  | Throw w' => objs w' !! this = Some v
  | Abort _ => False
  end /\
  (fault_free w -> exists w', vector.push_back (S fuel) this value w = Ret tt w').
Proof.
  intros Ho Hown Hfull Hb. destruct w as [h o p l k]. simpl in Ho, Hown.
  pose proof Hown as (Hsz & Hcap & _).
  pose proof (push_back_grow_wp fuel this v xs value h o p l k Ho Hown Hfull Hb) as Hwp.
  split.
  - unfold wp in Hwp.
    destruct (vector.push_back (S fuel) this value _) as [[] w'|w'|r0]; [| |exact Hwp].
    + destruct Hwp as (p' & l' & ->). simpl.
      eexists. split; [apply lookup_insert_eq|]. simpl.
      split; [lia|]. split; [reflexivity|]. intros ->. reflexivity.
    + destruct Hwp as (p' & l' & ->). simpl. exact Ho.
  - intros Hff.
    destruct (wp_quiet_returns _ _ _ _ Hwp (quiet_push_back _ _ _) Hff)
      as ([] & w' & Hrun).
    eauto.
Qed.

(** C3. Copy construction that returns makes a new object with the
    size of the source, a capacity equal to that size (a block of
    exactly [size] slots, or no block for an empty source), and at
    every index the element of the source; the elements were
    copy-constructed in increasing index order, right after the
    allocation; every block that existed, and so the source, is
    unchanged.  Without injected faults it returns. *)
Theorem copy_constructor_exact (other : nat) vo ys w :
  objs w !! other = Some vo -> owns (heap w) vo ys ->
  match vector.declare (fun this => vector.vector_copy this other) w with
  | Ret this w' =>
      exists v',
        objs w !! this = None /\
        objs w' = <[this := v']> (objs w) /\
        owns (heap w') v' ys /\
        size_ v' = size_ vo /\ capacity_ v' = size_ vo /\
        (forall (i : nat) x, ys !! i = Some x ->
           deref (heap w') (ptr_add (data_ v') (Z.of_nat i)) = Some x /\
           deref (heap w') (ptr_add (data_ vo) (Z.of_nat i)) = Some x) /\
        objs w' !! other = Some vo /\ owns (heap w') vo ys /\
        (forall b s, heap w !! b = Some s -> heap w' !! b = Some s) /\
        log w' = log w ++
                 (if decide (ys = []) then []
                  else EvNew (fresh (dom (heap w))) (size_ vo)
                       :: (EvConstruct (fresh (dom (heap w))) <$> seq 0 (length ys)))
  | Throw w' => True
  | Abort _ => False
  end /\
  (fault_free w ->
   exists this w', vector.declare (fun this => vector.vector_copy this other) w
                   = Ret this w').
Proof.
  intros Hoo Hys. destruct w as [h o p l k]. simpl in Hoo, Hys.
  pose proof (fresh_obj_None o) as Hfo.
  pose proof (fresh_obj_ne o other vo Hoo) as Htmp.
  pose proof (fresh_block_None h) as Hfb.
  pose proof Hys as (Hsz & Hcap & _).
  set (Q := fun (this : nat) (w' : world T) =>
    exists v',
        o !! this = None /\
        objs w' = <[this := v']> o /\
        owns (heap w') v' ys /\
        size_ v' = size_ vo /\ capacity_ v' = size_ vo /\
        (forall (i : nat) x, ys !! i = Some x ->
           deref (heap w') (ptr_add (data_ v') (Z.of_nat i)) = Some x /\
           deref (heap w') (ptr_add (data_ vo) (Z.of_nat i)) = Some x) /\
        objs w' !! other = Some vo /\ owns (heap w') vo ys /\
        (forall b s, h !! b = Some s -> heap w' !! b = Some s) /\
        log w' = l ++
                 (if decide (ys = []) then []
                  else EvNew (fresh (dom h)) (size_ vo)
                       :: (EvConstruct (fresh (dom h)) <$> seq 0 (length ys)))).
  assert (Hwp : wp (vector.declare (fun this => vector.vector_copy this other))
                  (World h o p l k) Q (fun _ => True)).
  { apply declare_wp. eapply wp_mono.
    { apply vector_copy_wp with (vo := vo) (ys := ys); try assumption.
      - apply lookup_insert_eq.
      - rewrite lookup_insert_ne by exact Htmp. exact Hoo. }
    - intros [] w1 Hw1. unfold Q. destruct (decide (ys = [])) as [Hy|Hy].
      + subst w1 ys. simpl. exists vec_default.
        split; [exact Hfo|]. split; [reflexivity|].
        split; [apply owns_default|]. simpl in Hsz.
        split; [simpl; lia|]. split; [simpl; lia|].
        split; [intros i x Hx; rewrite lookup_nil in Hx; discriminate|].
        split; [rewrite lookup_insert_ne by exact Htmp; exact Hoo|].
        split; [exact Hys|]. split; [auto|]. rewrite app_nil_r. reflexivity.
      + destruct Hw1 as [_ ->]. simpl.
        assert (0 < length ys)%nat by (destruct ys; [congruence|simpl; lia]).
        assert (Hnew : owns (<[fresh (dom h) := slots ys (size_ vo)]> h)
                            (Vec (Ptr (Some (fresh (dom h))) 0) (size_ vo) (size_ vo)) ys).
        { repeat split; simpl; try lia. apply lookup_insert_eq. }
        assert (Hold : owns (<[fresh (dom h) := slots ys (size_ vo)]> h) vo ys).
        { apply owns_insert_ne; [exact Hys|]. eapply owns_block_ne; eauto. }
        eexists. split; [exact Hfo|].
        split; [rewrite insert_insert_eq; reflexivity|].
        split; [exact Hnew|]. split; [reflexivity|]. split; [reflexivity|].
        split; [intros i x Hx; split; eapply deref_owns; eauto|].
        split; [rewrite lookup_insert_ne by exact Htmp;
                rewrite lookup_insert_ne by exact Htmp; exact Hoo|].
        split; [exact Hold|].
        split; [|reflexivity].
        intros b s Hs. rewrite lookup_insert_ne by congruence. exact Hs.
    - intros w1 _. exact I. }
  split.
  - unfold wp in Hwp.
    destruct (vector.declare _ _) as [this w'|w'|r0]; [exact Hwp|exact I|exact Hwp].
  - intros Hff. eapply wp_quiet_returns; [exact Hwp| |exact Hff].
    apply quiet_declare. intros this. apply quiet_vector_copy.
Qed.

(** C4. When the copy of the element at index [i] is the first
    operation of a copy construction to fail (the allocation and the
    copies at indices below [i] do not), the construction throws; the
    [i] elements already constructed in the new block are destroyed in
    reverse index order, then the block is released with no live
    element in it; the heap, the objects and so the source are as
    before, and nothing has leaked. *)
Theorem copy_constructor_rollback (other : nat) vo ys (i : nat) w :
  objs w !! other = Some vo -> owns (heap w) vo ys ->
  (i < length ys)%nat ->
  plan w !! S i = Some true ->
  Forall (fun f => f = false) (take (S i) (plan w)) ->
  exists w',
    vector.declare (fun this => vector.vector_copy this other) w = Throw w' /\
    heap w' = heap w /\ objs w' = objs w /\ leaked w' = leaked w /\
    log w' = log w ++ EvNew (fresh (dom (heap w))) (size_ vo)
               :: (EvConstruct (fresh (dom (heap w))) <$> seq 0 i)
               ++ (EvDestroy (fresh (dom (heap w))) <$> reverse (seq 0 i))
               ++ [EvDelete (fresh (dom (heap w)))].
Proof.
  intros Hoo Hys Hi Hfault Hall. destruct w as [h o p l k]. simpl in *.
  pose proof (fresh_obj_None o) as Hfo.
  pose proof (fresh_obj_ne o other vo Hoo) as Htmp.
  set (E := fun w' : world T =>
    heap w' = h /\ objs w' = o /\ leaked w' = k /\
    log w' = l ++ EvNew (fresh (dom h)) (size_ vo)
               :: (EvConstruct (fresh (dom h)) <$> seq 0 i)
               ++ (EvDestroy (fresh (dom h)) <$> reverse (seq 0 i))
               ++ [EvDelete (fresh (dom h))]).
  assert (Hwp : wp (vector.declare (fun this => vector.vector_copy this other))
                  (World h o p l k) (fun _ _ => False) E).
  { apply declare_wp. eapply wp_mono.
    { apply vector_copy_wp with (vo := vo) (ys := ys); try assumption.
      - apply lookup_insert_eq.
      - rewrite lookup_insert_ne by exact Htmp. exact Hoo. }
    - intros [] w1 Hw1. destruct (decide (ys = [])) as [Hy|Hy].
      + subst ys. simpl in Hi. lia.
      + destruct Hw1 as [Hnone _]. rewrite Forall_lookup in Hnone.
        specialize (Hnone (S i) true). rewrite lookup_take_lt in Hnone by lia.
        specialize (Hnone Hfault). discriminate.
    - intros w1 [[Hf _] | (j & Hj & Hfj & Hallj & ->)].
      + apply fires_true_lookup in Hf. rewrite Forall_lookup in Hall.
        specialize (Hall 0%nat true). rewrite lookup_take_lt in Hall by lia.
        specialize (Hall Hf). discriminate.
      + assert (S i = S j) as Hij by (eapply plan_first_fault; eauto).
        injection Hij as <-. unfold E, without, set_objs. simpl.
        split; [reflexivity|].
        split; [rewrite insert_insert_eq; apply delete_insert_id; exact Hfo|].
        split; reflexivity. }
  unfold wp in Hwp.
  destruct (vector.declare _ _) as [this w'|w'|r0]; [contradiction| |contradiction].
  exists w'. split; [reflexivity|exact Hwp].
Qed.

(** C5. Copy assignment has the strong guarantee: between two distinct
    vectors it either returns, and then the left-hand side holds the
    elements of the right-hand side, which is unchanged, or it throws,
    and then the heap and the objects are exactly as before.
    Assigning a vector to itself returns at once with the world
    untouched: nothing is allocated, copied or logged.  Without
    injected faults the assignment returns. *)
Theorem copy_assignment_strong (this other : nat) v vo xs ys w :
  objs w !! this = Some v -> owns (heap w) v xs ->
  objs w !! other = Some vo -> owns (heap w) vo ys ->
  (this <> other -> forall b, blk (data_ v) = Some b -> blk (data_ vo) <> Some b) ->
  match vector.assign_copy this other w with
  | Ret _ w' =>
      if decide (this = other) then w' = w
      else exists v', objs w' = <[this := v']> (objs w) /\
                      owns (heap w') v' ys /\
                      objs w' !! other = Some vo /\ owns (heap w') vo ys /\
                      leaked w' = leaked w
  | Throw w' => heap w' = heap w /\ objs w' = objs w /\ leaked w' = leaked w
  | Abort _ => False
  end /\
  (fault_free w -> exists w', vector.assign_copy this other w = Ret tt w').
Proof.
  intros Ho Hxs Hoo Hys Hdisj. destruct (decide (this = other)) as [->|Hne].
  { rewrite assign_copy_self_eq. split; [reflexivity|eauto]. }
  destruct w as [h o p l k]. simpl in *.
  pose proof (fresh_block_None h) as Hfb.
  pose proof Hys as (Hsz & Hcap & _).
  pose proof (assign_copy_wp this other v vo xs ys h o p l k Hne Ho Hxs Hoo Hys) as Hwp.
  assert (Hkeep : forall h1, (forall b, blk (data_ vo) = Some b -> h1 !! b = h !! b) ->
                  owns (released h1 v) vo ys).
  { intros h1 Hh1. eapply owns_frame; [exact Hys|]. intros b Hb.
    rewrite released_lookup_ne; [apply Hh1; exact Hb|].
    intros Hvb. eapply Hdisj; eauto. }
  split.
  - unfold wp in Hwp.
    destruct (vector.assign_copy this other _) as [[] w'|w'|r0]; [| |exact Hwp].
    + destruct Hwp as (p' & l' & ->).
      destruct (decide (ys = [])) as [Hy|Hy]; simpl.
      * subst ys. exists vec_default. split; [reflexivity|].
        split; [apply owns_default|].
        split; [rewrite lookup_insert_ne by exact Hne; exact Hoo|].
        split; [apply Hkeep; reflexivity|reflexivity].
      * assert (0 < length ys)%nat by (destruct ys; [congruence|simpl; lia]).
        eexists. split; [reflexivity|].
        split; [rewrite Hsz; eapply owns_reallocated; eauto; lia|].
        split; [rewrite lookup_insert_ne by exact Hne; exact Hoo|].
        split; [|reflexivity].
        apply Hkeep. intros b Hb. apply lookup_insert_ne.
        intros <-. destruct (owns_block_Some _ _ _ _ Hys Hb) as [s Hs]. congruence.
    + destruct Hwp as (p' & l' & ->). simpl. auto.
  - intros Hff.
    destruct (wp_quiet_returns _ _ _ _ Hwp (quiet_assign_copy _ _) Hff)
      as ([] & w' & Hrun).
    eauto.
Qed.


Lemma insert_list_spec xs (idx : nat) (x : T) :
  (idx <= length xs)%nat ->
  (forall j, (j < idx)%nat -> (take idx xs ++ x :: drop idx xs) !! j = xs !! j) /\
  (take idx xs ++ x :: drop idx xs) !! idx = Some x /\
  (forall j, (idx <= j)%nat -> (take idx xs ++ x :: drop idx xs) !! S j = xs !! j).
Proof.
  intros Hidx.
  assert (Hlen : length (take idx xs) = idx) by (rewrite length_take; lia).
  split; [|split].
  - intros j Hj. rewrite lookup_app_l by lia. apply lookup_take_lt. exact Hj.
  - rewrite lookup_app_r by lia. rewrite Hlen, Nat.sub_diag. reflexivity.
  - intros j Hj. rewrite lookup_app_r by lia. rewrite Hlen.
    replace (S j - idx)%nat with (S (j - idx)) by lia. simpl.
    rewrite lookup_drop. f_equal. lia.
Qed.

Lemma erase_list_spec xs (f e : nat) :
  (f <= e <= length xs)%nat ->
  (forall j, (j < f)%nat -> (take f xs ++ drop e xs) !! j = xs !! j) /\
  (forall j, (f <= j)%nat -> (take f xs ++ drop e xs) !! j = xs !! (j + (e - f))%nat).
Proof.
  intros Hfe.
  assert (Hlen : length (take f xs) = f) by (rewrite length_take; lia).
  split.
  - intros j Hj. rewrite lookup_app_l by lia. apply lookup_take_lt. exact Hj.
  - intros j Hj. rewrite lookup_app_r by lia. rewrite Hlen, lookup_drop.
    f_equal. lia.
Qed.

(** C7. At a valid position [idx], an [insert] that returns leaves the
    value at index [idx], the elements before it in place, and the
    elements from [idx] on one position up, in their order.  On a
    valid range of indices [f, e), an [erase] that returns leaves the
    elements before [f] in place and moves the elements from [e] on
    down by [e - f], in their order; the size decreases by [e - f].
    Neither has undefined behaviour, and without injected faults both
    return. *)
Theorem insert_erase_order (fuel : nat) (this : nat) v xs w :
  objs w !! this = Some v -> owns (heap w) v xs ->
  (forall (idx : nat) (r : cref T) (x : T),
     (idx <= length xs)%nat -> refers (heap w) r = Some x ->
     2 * capacity_ v + 1 < SIZE_MOD ->
     match vector.insert (S fuel) this (ptr_add (data_ v) (Z.of_nat idx)) r w with
     | Ret _ w' =>
         exists v' zs,
           objs w' = <[this := v']> (objs w) /\ owns (heap w') v' zs /\
           size_ v' = size_ v + 1 /\
           zs = take idx xs ++ x :: drop idx xs /\
           (forall j, (j < idx)%nat -> zs !! j = xs !! j) /\
           zs !! idx = Some x /\
           (forall j, (idx <= j)%nat -> zs !! S j = xs !! j)
     | Throw _ => True
     | Abort _ => False
     end /\
     (fault_free w ->
      exists res w',
        vector.insert (S fuel) this (ptr_add (data_ v) (Z.of_nat idx)) r w = Ret res w')) /\
  (forall f e : nat,
     (f <= e <= length xs)%nat ->
     match vector.erase_range this (ptr_add (data_ v) (Z.of_nat f))
                              (ptr_add (data_ v) (Z.of_nat e)) w with
     | Ret _ w' =>
         exists v' zs,
           objs w' = <[this := v']> (objs w) /\ owns (heap w') v' zs /\
           size_ v' = size_ v - Z.of_nat (e - f) /\
           zs = take f xs ++ drop e xs /\
           (forall j, (j < f)%nat -> zs !! j = xs !! j) /\
           (forall j, (f <= j)%nat -> zs !! j = xs !! (j + (e - f))%nat)
     | Throw _ => True
     | Abort _ => False
     end /\
     (fault_free w ->
      exists res w',
        vector.erase_range this (ptr_add (data_ v) (Z.of_nat f))
                           (ptr_add (data_ v) (Z.of_nat e)) w = Ret res w')).
Proof.
  intros Ho Hxs. destruct w as [h o p l k]. simpl in *.
  pose proof Hxs as (Hsz & Hcap & _).
  split.
  - intros idx r x Hidx Hr Hb.
    pose proof (insert_wp fuel this v xs idx r x h o p l k Ho Hxs Hidx Hr Hb) as Hwp.
    split.
    + unfold wp in Hwp.
      destruct (vector.insert _ _ _ _ _) as [res w'|w'|r0]; [|exact I|exact Hwp].
      destruct Hwp as (p' & l' & h' & v' & Hg & _ & ->). simpl.
      destruct (insert_list_spec xs idx x Hidx) as (H1 & H2 & H3).
      exists v', (take idx xs ++ x :: drop idx xs).
      split; [reflexivity|].
      split; [eapply owns_grown; eauto;
              rewrite length_app; simpl; rewrite length_take, length_drop; lia|].
      split; [eapply grown_size; eauto|]. auto.
    + intros Hff. eapply wp_quiet_returns; [exact Hwp|apply quiet_insert|exact Hff].
  - intros f e Hfe.
    pose proof (erase_range_wp this v xs f e h o p l k Ho Hxs Hfe) as Hwp.
    split.
    + unfold wp in Hwp.
      destruct (vector.erase_range _ _ _ _) as [res w'|w'|r0]; [|exact I|exact Hwp].
      destruct Hwp as (_ & p' & l' & ->). simpl.
      destruct (erase_list_spec xs f e Hfe) as (H1 & H2).
      eexists _, (take f xs ++ drop e xs).
      split; [reflexivity|].
      split; [eapply owns_stored; eauto;
              [rewrite length_app, length_take, length_drop|]; lia|].
      split; [reflexivity|]. auto.
    + intros Hff. eapply wp_quiet_returns; [exact Hwp|apply quiet_erase_range|exact Hff].
Qed.

(** C8. [erase] is meant not to throw when the swap of the element type
    does not ([// O(N) nothrow(swap)]), and it does throw.  The element
    type [Z_element] has a swap of its own that cannot throw, and moves
    that can.  On the vector [10; 20; 30], [erase(begin())] and
    [erase(begin(), begin() + 1)] throw when the first move does: the
    qualified [std::swap] of [erase] moves the elements and never calls
    their own swap.  [insert(begin(), 40)], whose [std::iter_swap] does
    call it, returns once the new element is appended, whatever faults
    are planned after that. *)
Theorem erase_throws_with_nothrow_swap :
  nothrow_swap (H := Z_element) = true /\
  objs (spare_world_with [true]) !! 0%nat = Some spare_vec /\
  owns (heap (spare_world_with [true])) spare_vec [10; 20; 30] /\
  (exists u : world Z,
     vector.erase (H := Z_element) 0%nat (ptr_add (data_ spare_vec) 0)
       (spare_world_with [true]) = Throw u) /\
  (exists u : world Z,
     vector.erase_range (H := Z_element) 0%nat (ptr_add (data_ spare_vec) 0)
       (ptr_add (data_ spare_vec) 1) (spare_world_with [true]) = Throw u) /\
  (exists res (u : world Z),
     vector.insert (H := Z_element) 1 0%nat (ptr_add (data_ spare_vec) 0) (RefLocal 40)
       (spare_world_with [false; false; true; true; true]) = Ret res u /\
     plan u = [true; true; true]).
Proof.
  split; [reflexivity|]. split; [reflexivity|].
  split.
  { unfold owns. simpl. split; [reflexivity|]. split; [split; [lia|reflexivity]|].
    split; [reflexivity|]. split; [lia|]. reflexivity. }
  split; [eexists; vm_compute; reflexivity|].
  split; [eexists; vm_compute; reflexivity|].
  eexists _, _. split; vm_compute; reflexivity.
Qed.

(** C9. In every world reachable from one without vectors by calls of
    the public operations within their contracts, returning or
    throwing, every vector object has [size_ <= capacity_], and a
    vector object of capacity 0 has a null data pointer and size 0.
    From such a world every call within its contract has a defined
    outcome, return or throw, so the next world is reachable too. *)
Theorem reachable_invariant w :
  reachable w ->
  (forall (this : nat) v, objs w !! this = Some v ->
     size_ v <= capacity_ v /\
     (capacity_ v = 0 -> data_ v = nullptr /\ size_ v = 0)) /\
  (forall fuel c, pre c w ->
     exists w', (run (S fuel) c w = Ret tt w' \/ run (S fuel) c w = Throw w') /\
                reachable w').
Proof.
  intros Hr. pose proof (reachable_consistent w Hr) as Hc. split.
  - intros this v Hv. destruct Hc as [Hwf _].
    destruct (Hwf this v Hv) as (xs & Hsz & Hcap & Hoff & Hblk).
    split; [lia|]. intros Hzero. split; [|lia].
    destruct v as [[[b|] z] sz cap]; simpl in *.
    + lia.
    + subst z. reflexivity.
  - intros fuel c Hpre. destruct w as [h o p l k].
    pose proof (run_consistent fuel c h o p l k Hc Hpre) as Hwp.
    unfold wp in Hwp.
    destruct (run (S fuel) c _) as [[] w'|w'|r0] eqn:Hrun; [| |contradiction].
    + exists w'. split; [left; reflexivity|]. eapply reach_return; eauto.
    + exists w'. split; [right; reflexivity|]. eapply reach_throw; eauto.
Qed.

Lemma quiet_erase this pos : quiet (vector.erase (T := T) this pos).
Proof. apply quiet_erase_range. Qed.

(** C10. An [insert] that returns gives the iterator [begin() + idx]
    into the storage the container has after the call, where [idx] is
    the index of [pos] before the call; it designates the inserted
    element.  An [erase] that returns gives [begin() + f], the position
    of the first erased element: it designates the first element after
    the erased range when there is one, and is [end()] otherwise.
    Without injected faults the calls return. *)
Theorem insert_erase_result (fuel : nat) (this : nat) v xs w :
  objs w !! this = Some v -> owns (heap w) v xs ->
  (forall (idx : nat) (r : cref T) (x : T),
     (idx <= length xs)%nat -> refers (heap w) r = Some x ->
     2 * capacity_ v + 1 < SIZE_MOD ->
     match vector.insert (S fuel) this (ptr_add (data_ v) (Z.of_nat idx)) r w with
     | Ret res w' =>
         exists v', objs w' !! this = Some v' /\
                    res = ptr_add (data_ v') (Z.of_nat idx) /\
                    deref (heap w') res = Some x
     | Throw _ => True
     | Abort _ => False
     end /\
     (fault_free w ->
      exists res w',
        vector.insert (S fuel) this (ptr_add (data_ v) (Z.of_nat idx)) r w = Ret res w')) /\
  (forall f e : nat,
     (f <= e <= length xs)%nat ->
     match vector.erase_range this (ptr_add (data_ v) (Z.of_nat f))
                              (ptr_add (data_ v) (Z.of_nat e)) w with
     | Ret res w' =>
         exists v', objs w' !! this = Some v' /\
                    res = ptr_add (data_ v') (Z.of_nat f) /\
                    ((e < length xs)%nat -> deref (heap w') res = xs !! e) /\
                    (e = length xs -> res = ptr_add (data_ v') (size_ v'))
     | Throw _ => True
     | Abort _ => False
     end /\
     (fault_free w ->
      exists res w',
        vector.erase_range this (ptr_add (data_ v) (Z.of_nat f))
                           (ptr_add (data_ v) (Z.of_nat e)) w = Ret res w')) /\
  (forall i : nat,
     (i < length xs)%nat ->
     match vector.erase this (ptr_add (data_ v) (Z.of_nat i)) w with
     | Ret res w' =>
         exists v', objs w' !! this = Some v' /\
                    res = ptr_add (data_ v') (Z.of_nat i) /\
                    ((S i < length xs)%nat -> deref (heap w') res = xs !! S i) /\
                    (S i = length xs -> res = ptr_add (data_ v') (size_ v'))
     | Throw _ => True
     | Abort _ => False
     end /\
     (fault_free w ->
      exists res w',
        vector.erase this (ptr_add (data_ v) (Z.of_nat i)) w = Ret res w')).
Proof.
  intros Ho Hxs. destruct w as [h o p l k]. simpl in *.
  pose proof Hxs as (Hsz & Hcap & _).
  assert (Herase : forall f e : nat, (f <= e <= length xs)%nat ->
    forall res w',
      res = ptr_add (data_ v) (Z.of_nat f) /\
      (exists p' l',
         w' = World (stored h v (take f xs ++ drop e xs))
                (<[this := Vec (data_ v) (size_ v - Z.of_nat (e - f)) (capacity_ v)]> o)
                p' l' k) ->
      exists v', objs w' !! this = Some v' /\
                 res = ptr_add (data_ v') (Z.of_nat f) /\
                 ((e < length xs)%nat -> deref (heap w') res = xs !! e) /\
                 (e = length xs -> res = ptr_add (data_ v') (size_ v'))).
  { intros f e Hfe res w' [-> (p' & l' & ->)]. simpl.
    eexists. split; [apply lookup_insert_eq|]. simpl.
    split; [reflexivity|].
    assert (Hown' : owns (stored h v (take f xs ++ drop e xs))
                      (Vec (data_ v) (size_ v - Z.of_nat (e - f)) (capacity_ v))
                      (take f xs ++ drop e xs)).
    { eapply owns_stored; eauto; [rewrite length_app, length_take, length_drop|]; lia. }
    split.
    - intros He. destruct (lookup_lt_is_Some_2 xs e He) as [y Hy]. rewrite Hy.
      apply (deref_owns _ _ _ f y Hown').
      destruct (erase_list_spec xs f e Hfe) as (_ & H2).
      rewrite H2 by lia. rewrite <- Hy. f_equal. lia.
    - intros ->. unfold ptr_add. f_equal. lia. }
  split; [|split].
  - intros idx r x Hidx Hr Hb.
    pose proof (insert_wp fuel this v xs idx r x h o p l k Ho Hxs Hidx Hr Hb) as Hwp.
    split.
    + unfold wp in Hwp.
      destruct (vector.insert _ _ _ _ _) as [res w'|w'|r0]; [|exact I|exact Hwp].
      destruct Hwp as (p' & l' & h' & v' & Hg & -> & ->). simpl.
      exists v'. split; [apply lookup_insert_eq|]. split; [reflexivity|].
      destruct (insert_list_spec xs idx x Hidx) as (_ & H2 & _).
      eapply deref_owns; [|exact H2].
      eapply owns_grown; eauto.
      rewrite length_app; simpl; rewrite length_take, length_drop; lia.
    + intros Hff. eapply wp_quiet_returns; [exact Hwp|apply quiet_insert|exact Hff].
  - intros f e Hfe.
    pose proof (erase_range_wp this v xs f e h o p l k Ho Hxs Hfe) as Hwp.
    split.
    + unfold wp in Hwp.
      destruct (vector.erase_range _ _ _ _) as [res w'|w'|r0]; [|exact I|exact Hwp].
      apply Herase; assumption.
    + intros Hff. eapply wp_quiet_returns; [exact Hwp|apply quiet_erase_range|exact Hff].
  - intros i Hi.
    pose proof (erase_wp this v xs i h o p l k Ho Hxs Hi) as Hwp.
    split.
    + unfold wp in Hwp.
      destruct (vector.erase _ _ _) as [res w'|w'|r0]; [|exact I|exact Hwp].
      apply (Herase i (S i)); [lia|].
      destruct Hwp as [-> (p' & l' & ->)]. split; [reflexivity|].
      exists p', l'. replace (Z.of_nat (S i - i)) with 1 by lia. reflexivity.
    + intros Hff. eapply wp_quiet_returns; [exact Hwp|apply quiet_erase|exact Hff].
Qed.
End Claims.

(** * Further properties *)

(** ** Teardown, with the order of destruction *)

Section TeardownOrder.
Context {T : Type} `{Element T}.
Implicit Types (h : gmap nat (list (option T))) (o : gmap nat vec).
Implicit Types (p : list bool) (l : list event) (k : nat).
Implicit Types (xs : list T).

(** [n] calls of [pop_back] destroy the last [n] elements, last first. *)
Lemma pop_loop_log_eq this b cap n : forall xs i h o p l k,
  (n <= length xs)%nat ->
  o !! this = Some (Vec (Ptr (Some b) 0) (Z.of_nat (length xs)) cap) ->
  h !! b = Some (slots xs cap) ->
  Z.of_nat (length xs) <= cap < SIZE_MOD ->
  for_loop n i (fun _ => vector.pop_back this) (World h o p l k)
  = Ret tt (World (<[b := slots (take (length xs - n) xs) cap]> h)
              (<[this := Vec (Ptr (Some b) 0) (Z.of_nat (length xs - n)) cap]> o)
              p (l ++ (EvDestroy b <$> reverse (seq (length xs - n) n))) k).
Proof.
  induction n as [|n IH]; intros xs i h o p l k Hn Ho Hh Hcap.
  - simpl. unfold ret.
    rewrite Nat.sub_0_r, firstn_all, !insert_id, app_nil_r by eauto. reflexivity.
  - destruct xs as [|x xs' _] using rev_ind; [simpl in Hn; lia|].
    rewrite length_app in *. cbn [length] in *.
    cbn [for_loop].
    erewrite bind_Ret; cycle 1.
    { eapply pop_back_eq; eauto; lia. }
    replace (Z.of_nat (length xs' + 1) - 1) with (Z.of_nat (length xs')) by lia.
    rewrite (IH xs' (wrap (i + 1)) (<[b := slots xs' cap]> h)
                (<[this := Vec (Ptr (Some b) 0) (Z.of_nat (length xs')) cap]> o)
                p (l ++ [EvDestroy b (length xs')]) k);
      [|lia|apply lookup_insert_eq|apply lookup_insert_eq|lia].
    rewrite !insert_insert_eq.
    replace (length xs' + 1 - S n)%nat with (length xs' - n)%nat by lia.
    rewrite take_app_le by lia.
    rewrite seq_S, reverse_app, reverse_singleton.
    replace (length xs' - n + n)%nat with (length xs') by lia.
    rewrite <- app_assoc. reflexivity.
Qed.

Lemma clear_log_eq this v xs h o p l k :
  o !! this = Some v -> owns h v xs ->
  vector.clear this (World h o p l k)
  = Ret tt (World (stored h v []) (<[this := Vec (data_ v) 0 (capacity_ v)]> o) p
              (l ++ destroyed v (length xs)) k).
Proof.
  intros Ho (Hsz & Hcap & Hoff & Hblk).
  destruct v as [[bo z] sz cap]. simpl in *. subst z.
  unfold vector.clear, stored, destroyed. simpl.
  erewrite bind_Ret by (apply size_eq; eauto). simpl.
  unfold for_upto. destruct bo as [b|].
  - destruct Hblk as [Hpos Hh].
    erewrite bind_Ret; cycle 1.
    { apply (pop_loop_log_eq this b cap (Z.to_nat sz) xs 0 h o p l k);
        [lia | rewrite <- Hsz; exact Ho | exact Hh | lia]. }
    erewrite set_size_eq by apply lookup_insert_eq. simpl.
    rewrite insert_insert_eq.
    replace (Z.to_nat sz) with (length xs) by lia.
    rewrite Nat.sub_diag. reflexivity.
  - destruct xs as [|x xs]; [|simpl in *; lia].
    simpl in *. subst sz.
    erewrite bind_Ret by reflexivity.
    erewrite set_size_eq by eauto. rewrite app_nil_r. reflexivity.
Qed.

Lemma destructor_log_eq this v xs h o p l k :
  o !! this = Some v -> owns h v xs ->
  vector.destructor this (World h o p l k)
  = Ret tt (World (released h v) (<[this := Vec nullptr 0 (capacity_ v)]> o) p
              (l ++ destroyed v (length xs) ++ freed v) k).
Proof.
  intros Ho Hown.
  pose proof (clear_log_eq this v xs h o p l k Ho Hown) as Hclear.
  destruct Hown as (Hsz & Hcap & Hoff & Hblk).
  destruct v as [[bo z] sz cap]. simpl in *. subst z.
  unfold vector.destructor, released, stored, destroyed, freed in *. simpl in *.
  erewrite bind_Ret by exact Hclear.
  erewrite bind_Ret by (apply data_eq; apply lookup_insert_eq). simpl.
  destruct bo as [b|].
  - erewrite bind_Ret by (apply operator_delete_eq; apply lookup_insert_eq).
    erewrite set_data_eq by apply lookup_insert_eq. simpl.
    rewrite insert_insert_eq, delete_insert_eq, live_count_slots. simpl.
    rewrite Nat.add_0_r, <- app_assoc. reflexivity.
  - erewrite bind_Ret by (apply operator_delete_null).
    erewrite set_data_eq by apply lookup_insert_eq. simpl.
    rewrite insert_insert_eq, !app_nil_r. reflexivity.
Qed.
End TeardownOrder.

Section Accessors.
Context {T : Type}.
Implicit Types (h : gmap nat (list (option T))) (xs : list T).

(** A pointer [data_ + i] designates the element [i] and nothing beyond
    the last element. *)
Lemma deref_index h v xs (i : nat) :
  owns h v xs -> deref h (ptr_add (data_ v) (Z.of_nat i)) = xs !! i.
Proof.
  intros Hown. destruct (xs !! i) as [x|] eqn:Hx.
  - eapply deref_owns; eauto.
  - apply lookup_ge_None in Hx.
    destruct Hown as (Hsz & Hcap & Hoff & Hblk). unfold deref, ptr_add. simpl.
    destruct (blk (data_ v)) as [b|]; [|reflexivity].
    destruct Hblk as [_ ->]. rewrite Hoff, Z.add_0_l, Nat2Z.id.
    destruct (Z.ltb_spec (Z.of_nat i) 0); [reflexivity|].
    unfold slots. rewrite lookup_app_r by (rewrite length_fmap; lia).
    destruct (replicate _ _ !! _) as [y|] eqn:Hy; [|reflexivity].
    apply lookup_replicate in Hy as [-> _]. reflexivity.
Qed.

Lemma deref_before h q : off q < 0 -> deref h q = None.
Proof.
  intros Hq. unfold deref. destruct (blk q); [|reflexivity].
  destruct (h !! _); [|reflexivity].
  destruct (Z.ltb_spec (off q) 0); [reflexivity|lia].
Qed.
End Accessors.

Section InPlace.
Context {T : Type} `{Element T}.
Implicit Types (h : gmap nat (list (option T))) (o : gmap nat vec).
Implicit Types (p : list bool) (l : list event) (k : nat).
Implicit Types (xs : list T).

(** [push_back] with spare capacity, with the faults it consumes. *)
Lemma push_back_spare_eq fuel this b sz cap xs (value : T) h o p l k :
  o !! this = Some (Vec (Ptr (Some b) 0) sz cap) ->
  h !! b = Some (slots xs cap) ->
  sz = Z.of_nat (length xs) -> sz < cap < SIZE_MOD ->
  vector.push_back fuel this value (World h o p l k)
  = if negb nothrow_move && fires p then Throw (World h o (tail p) l k)
    else Ret tt (World (<[b := slots (xs ++ [value]) cap]> h)
                   (<[this := Vec (Ptr (Some b) 0) (sz + 1) cap]> o)
                   (if nothrow_move then p else tail p)
                   (l ++ [EvConstruct b (length xs)]) k).
Proof.
  intros Ho Hh Hsz Hcap.
  rewrite push_back_unfold.
  erewrite bind_Ret by (apply size_eq; eauto).
  erewrite bind_Ret by (apply capacity_eq; eauto). simpl.
  destruct (Z.ltb_spec sz cap) as [_|?]; [|lia].
  erewrite bind_Ret by (apply data_eq; eauto).
  unfold bind at 1. rewrite move_T_eq.
  destruct (negb nothrow_move && fires p); [reflexivity|].
  unfold ptr_add. simpl. rewrite Z.add_0_l.
  erewrite bind_Ret; cycle 1.
  { eapply construct_at_eq; eauto; [lia|].
    apply slots_lookup_raw; lia. }
  erewrite bind_Ret by (apply size_eq; eauto).
  erewrite set_size_eq by eauto. simpl.
  rewrite wrap_small by lia.
  replace (Z.to_nat sz) with (length xs) by lia.
  rewrite slots_snoc by lia. reflexivity.
Qed.

(** The shape of a vector that has storage. *)
Lemma owns_block h v xs b :
  owns h v xs -> blk (data_ v) = Some b ->
  v = Vec (Ptr (Some b) 0) (Z.of_nat (length xs)) (capacity_ v) /\
  h !! b = Some (slots xs (capacity_ v)).
Proof.
  intros Hown Hb. pose proof (owns_shape _ _ _ Hown) as Hv.
  destruct Hown as (_ & _ & _ & Hblk). rewrite Hb in Hv, Hblk.
  split; [exact Hv|apply Hblk].
Qed.

(** [erase(first, end())]: no element is swapped, the tail is popped. *)
Lemma erase_tail_eq this v xs (f : nat) h o p l k :
  o !! this = Some v -> owns h v xs -> (f <= length xs)%nat ->
  vector.erase_range this (ptr_add (data_ v) (Z.of_nat f))
                     (ptr_add (data_ v) (Z.of_nat (length xs))) (World h o p l k)
  = Ret (ptr_add (data_ v) (Z.of_nat f))
      (World (stored h v (take f xs))
         (<[this := Vec (data_ v) (Z.of_nat f) (capacity_ v)]> o) p
         (l ++ match blk (data_ v) with
               | Some b => EvDestroy b <$> reverse (seq f (length xs - f))
               | None => []
               end) k).
Proof.
  intros Ho Hown Hf.
  pose proof (owns_shape _ _ _ Hown) as Hv.
  pose proof Hown as (Hsz & Hcap & Hoff & Hblk).
  unfold vector.erase_range.
  erewrite bind_Ret by (apply begin_eq; eauto).
  unfold ptr_diff at 1. rewrite bool_decide_eq_true_2 by reflexivity.
  erewrite bind_Ret by reflexivity.
  erewrite bind_Ret by (apply begin_eq; eauto).
  unfold ptr_diff at 1. rewrite bool_decide_eq_true_2 by reflexivity.
  erewrite bind_Ret by reflexivity.
  unfold ptr_diff at 1. rewrite bool_decide_eq_true_2 by reflexivity.
  erewrite bind_Ret by reflexivity.
  erewrite bind_Ret by (apply size_eq; eauto).
  unfold ptr_add. simpl.
  replace (off (data_ v) + Z.of_nat f - off (data_ v)) with (Z.of_nat f) by lia.
  replace (off (data_ v) + Z.of_nat (length xs) - off (data_ v))
    with (Z.of_nat (length xs)) by lia.
  replace (off (data_ v) + Z.of_nat (length xs) - (off (data_ v) + Z.of_nat f))
    with (Z.of_nat (length xs - f)) by lia.
  rewrite !(wrap_small (Z.of_nat _)) by lia.
  rewrite wrap_small by lia.
  unfold for_upto.
  replace (Z.to_nat (size_ v - Z.of_nat (length xs))) with 0%nat by lia.
  rewrite Nat2Z.id. cbn [for_loop].
  erewrite bind_Ret by reflexivity.
  destruct (blk (data_ v)) as [b|] eqn:Hb.
  - destruct Hblk as [Hpos Hh].
    rewrite Hv in Ho.
    erewrite bind_Ret; cycle 1.
    { apply (pop_loop_log_eq this b (capacity_ v) (length xs - f) xs 0 h o p l k);
        [lia|exact Ho|exact Hh|lia]. }
    erewrite bind_Ret by (apply begin_eq; apply lookup_insert_eq).
    unfold ret, stored. rewrite Hb. simpl. rewrite Hv. simpl.
    replace (length xs - (length xs - f))%nat with f by lia.
    reflexivity.
  - assert (Hxs : xs = []) by (destruct xs; [reflexivity|simpl in *; lia]).
    subst xs. simpl in *.
    assert (f = 0%nat) by lia. subst f. simpl.
    erewrite bind_Ret by reflexivity.
    erewrite bind_Ret by (apply begin_eq; eauto).
    unfold ret, stored. rewrite Hb, app_nil_r.
    rewrite <- Hsz, vec_eta, insert_id by exact Ho. rewrite Hsz. reflexivity.
Qed.
End InPlace.

Section Edges.
Context {T : Type} `{Element T}.
Implicit Types (h : gmap nat (list (option T))) (o : gmap nat vec).
Implicit Types (p : list bool) (l : list event) (k : nat).
Implicit Types (xs : list T).

Lemma destroyed_nil v : destroyed v 0 = [].
Proof. unfold destroyed. destruct (blk (data_ v)); reflexivity. Qed.

(** Build-then-swap with a temporary that gets no storage: the old
    contents of [this] are destroyed with the temporary. *)
Lemma replace_by_empty_eq (ctor : nat -> M T unit) this v xs h o p l k :
  o !! this = Some v -> owns h v xs ->
  ctor (fresh (dom o)) (World h (<[fresh (dom o) := vec_default]> o) p l k)
  = Ret tt (World h (<[fresh (dom o) := vec_default]> o) p l k) ->
  vector.with_temp ctor (fun tmp => vector.swap tmp this) (World h o p l k)
  = Ret tt (World (released h v) (<[this := vec_default]> o) p
              (l ++ destroyed v (length xs) ++ freed v) k).
Proof.
  intros Ho Hown Hctor.
  pose proof (fresh_obj_None o) as Hfo.
  pose proof (fresh_obj_ne o this v Ho) as Htmp.
  set (tmp := fresh (dom o)) in *.
  pose proof (destructor_log_eq tmp v xs h
               (<[this := vec_default]> (<[tmp := v]> (<[tmp := vec_default]> o)))
               p l k) as Hd.
  rewrite lookup_insert_ne in Hd by (intros Heq; apply Htmp; symmetry; exact Heq).
  specialize (Hd (lookup_insert_eq _ _ _) Hown).
  erewrite with_temp_eq; [|exact Hctor| |exact Hd].
  - unfold without, set_objs. simpl. fold tmp. do 2 f_equal. map_cases.
  - fold tmp. eapply swap_eq; [exact Htmp|apply lookup_insert_eq|].
    rewrite lookup_insert_ne by exact Htmp. exact Ho.
Qed.

Lemma shrink_to_fit_empty_eq this v h o p l k :
  o !! this = Some v -> owns h v [] -> size_ v <> capacity_ v ->
  vector.shrink_to_fit this (World h o p l k)
  = Ret tt (World (released h v) (<[this := vec_default]> o) p (l ++ freed v) k).
Proof.
  intros Ho Hown Hne. pose proof Hown as (Hsz & _). simpl in Hsz.
  unfold vector.shrink_to_fit.
  erewrite bind_Ret by (apply size_eq; eauto).
  erewrite bind_Ret by (apply capacity_eq; eauto).
  destruct (Z.eqb_spec (size_ v) (capacity_ v)) as [?|_]; [lia|]. simpl.
  erewrite bind_Ret by (apply size_eq; eauto).
  rewrite Hsz.
  erewrite replace_by_empty_eq by (eauto; reflexivity).
  simpl. rewrite destroyed_nil. reflexivity.
Qed.

Lemma vector_copy_empty_eq this other vo (w : world T) :
  objs w !! other = Some vo -> size_ vo = 0 ->
  vector.vector_copy this other w = Ret tt w.
Proof.
  intros Hoo Hsz. destruct w as [h o p l k]. simpl in *.
  unfold vector.vector_copy.
  erewrite bind_Ret by (apply size_eq; eauto).
  rewrite Hsz. reflexivity.
Qed.

Lemma bind_cong {A B} (m : M T A) (k1 k2 : A -> M T B) (w : world T) :
  (forall a w', m w = Ret a w' -> k1 a w' = k2 a w') -> bind m k1 w = bind m k2 w.
Proof. intros Hk. unfold bind. destruct (m w); auto. Qed.

(** The loops of [erase] once the indices are computed. *)
Lemma erase_range_unfold this v xs (f e : nat) h o p l k :
  o !! this = Some v -> owns h v xs -> (f <= e <= length xs)%nat ->
  vector.erase_range this (ptr_add (data_ v) (Z.of_nat f))
                     (ptr_add (data_ v) (Z.of_nat e)) (World h o p l k)
  = (for_loop (length xs - e) 0 (vector.erase_swap this (Z.of_nat f) (Z.of_nat e)) ;;
     for_loop (e - f) 0 (fun _ => vector.pop_back this) ;;
     b <- vector.begin this ;;
     ret (ptr_add b (Z.of_nat f))) (World h o p l k).
Proof.
  intros Ho Hown Hfe.
  pose proof Hown as (Hsz & Hcap & Hoff & Hblk).
  unfold vector.erase_range.
  erewrite bind_Ret by (apply begin_eq; eauto).
  unfold ptr_diff at 1. rewrite bool_decide_eq_true_2 by reflexivity.
  erewrite bind_Ret by reflexivity.
  erewrite bind_Ret by (apply begin_eq; eauto).
  unfold ptr_diff at 1. rewrite bool_decide_eq_true_2 by reflexivity.
  erewrite bind_Ret by reflexivity.
  unfold ptr_diff at 1. rewrite bool_decide_eq_true_2 by reflexivity.
  erewrite bind_Ret by reflexivity.
  erewrite bind_Ret by (apply size_eq; eauto).
  unfold ptr_add at 1 2 3 4. simpl.
  replace (off (data_ v) + Z.of_nat f - off (data_ v)) with (Z.of_nat f) by lia.
  replace (off (data_ v) + Z.of_nat e - off (data_ v)) with (Z.of_nat e) by lia.
  replace (off (data_ v) + Z.of_nat e - (off (data_ v) + Z.of_nat f))
    with (Z.of_nat (e - f)) by lia.
  rewrite !(wrap_small (Z.of_nat _)) by lia.
  rewrite wrap_small by lia.
  unfold for_upto.
  replace (Z.to_nat (size_ v - Z.of_nat e)) with (length xs - e)%nat by lia.
  rewrite Nat2Z.id. reflexivity.
Qed.
Lemma assign_move_log_eq this other v vo xs h o p l k :
  this <> other ->
  o !! this = Some v -> owns h v xs -> o !! other = Some vo ->
  vector.assign_move this other (World h o p l k)
  = Ret tt (World (released h v) (<[this := vo]> (<[other := vec_default]> o)) p
              (l ++ destroyed v (length xs) ++ freed v) k).
Proof.
  intros Hne Ho Hown Hoo.
  pose proof (fresh_obj_None o) as Hfo.
  pose proof (fresh_obj_ne o this v Ho) as Htmp.
  unfold vector.assign_move. rewrite bool_decide_eq_false_2 by congruence.
  set (tmp := fresh (dom o)) in *.
  pose proof (destructor_log_eq tmp v xs h
               (<[this := vec_default]> (<[tmp := v]> (<[tmp := vec_default]> o)))
               p l k) as Hd.
  rewrite lookup_insert_ne in Hd by (intros Heq; apply Htmp; symmetry; exact Heq).
  specialize (Hd (lookup_insert_eq _ _ _) Hown).
  erewrite bind_Ret; cycle 1.
  { eapply with_temp_eq; [reflexivity| |exact Hd].
    fold tmp. eapply swap_eq; [exact Htmp|apply lookup_insert_eq|].
    rewrite lookup_insert_ne by exact Htmp. exact Ho. }
  unfold without, set_objs. simpl.
  erewrite swap_eq with (a := vo) (b := vec_default); [|congruence| |]; fold tmp.
  - do 2 f_equal. map_cases.
  - rewrite lookup_delete_ne by congruence.
    rewrite lookup_insert_ne by congruence.
    rewrite lookup_insert_ne by congruence.
    rewrite lookup_insert_ne by congruence.
    rewrite lookup_insert_ne by congruence. exact Hoo.
  - rewrite lookup_delete_ne by (intros Heq; apply Htmp; exact Heq).
    rewrite lookup_insert_ne by (intros Heq; apply Htmp; exact Heq).
    apply lookup_insert_eq.
Qed.
End Edges.

(** ** Sequences of operations *)

Lemma grown_capacity_bounds (n : nat) :
  Z.of_nat n <= grown_capacity n <= 2 * Z.of_nat n.
Proof.
  unfold grown_capacity. destruct (decide (n = 0%nat)) as [->|Hn]; [simpl; lia|].
  pose proof (Z.log2_spec (Z.of_nat n) ltac:(lia)) as [Hlo Hhi].
  pose proof (Z.log2_nonneg (Z.of_nat n)) as Hk.
  replace (Z.succ (Z.log2 (Z.of_nat n))) with (Z.log2 (Z.of_nat n) + 1) in Hhi by lia.
  rewrite Z.pow_add_r in * by lia. change (2 ^ 1) with 2 in *. lia.
Qed.

Lemma grown_capacity_spare (n : nat) :
  Z.of_nat n < grown_capacity n -> grown_capacity (S n) = grown_capacity n.
Proof.
  unfold grown_capacity. destruct (decide (n = 0%nat)) as [->|Hn]; [simpl; lia|].
  rewrite decide_False by lia. intros Hlt.
  pose proof (Z.log2_spec (Z.of_nat n) ltac:(lia)) as [Hlo Hhi].
  pose proof (Z.log2_nonneg (Z.of_nat n)) as Hk.
  replace (Z.succ (Z.log2 (Z.of_nat n))) with (Z.log2 (Z.of_nat n) + 1) in Hhi by lia.
  rewrite (Z.log2_unique (Z.of_nat (S n)) (Z.log2 (Z.of_nat n))); [reflexivity|lia|].
  replace (Z.succ (Z.log2 (Z.of_nat n))) with (Z.log2 (Z.of_nat n) + 1) by lia.
  lia.
Qed.

Lemma grown_capacity_full (n : nat) :
  Z.of_nat n = grown_capacity n -> grown_capacity (S n) = 2 * grown_capacity n + 1.
Proof.
  unfold grown_capacity. destruct (decide (n = 0%nat)) as [->|Hn]; [reflexivity|].
  rewrite decide_False by lia. intros Heq.
  pose proof (Z.log2_nonneg (Z.of_nat n)) as Hk.
  rewrite (Z.log2_unique (Z.of_nat (S n)) (Z.log2 (Z.of_nat n) + 1)); [|lia|].
  - rewrite (Z.pow_add_r 2 (_ + 1) 1) by lia. change (2 ^ 1) with 2. lia.
  - replace (Z.succ (Z.log2 (Z.of_nat n) + 1)) with (Z.log2 (Z.of_nat n) + 1 + 1) by lia.
    rewrite (Z.pow_add_r 2 (_ + 1) 1) by lia. change (2 ^ 1) with 2.
    pose proof (Z.pow_pos_nonneg 2 (Z.log2 (Z.of_nat n) + 1) ltac:(lia) ltac:(lia)).
    lia.
Qed.

Lemma grown_capacity_least (n : nat) :
  (exists k, 0 <= k /\ grown_capacity n = 2 ^ k - 1) /\
  (forall k, 0 <= k -> Z.of_nat n <= 2 ^ k - 1 -> grown_capacity n <= 2 ^ k - 1).
Proof.
  unfold grown_capacity. destruct (decide (n = 0%nat)) as [->|Hn].
  - split; [exists 0; split; [lia|reflexivity]|].
    intros k Hk _. pose proof (Z.pow_pos_nonneg 2 k ltac:(lia) Hk). lia.
  - pose proof (Z.log2_spec (Z.of_nat n) ltac:(lia)) as [Hlo _].
    pose proof (Z.log2_nonneg (Z.of_nat n)) as Hj.
    split; [exists (Z.log2 (Z.of_nat n) + 1); split; [lia|reflexivity]|].
    intros k Hk Hle.
    assert (Hlt : Z.log2 (Z.of_nat n) < k).
    { apply (Z.pow_lt_mono_r_iff 2); lia. }
    pose proof (Z.pow_le_mono_r 2 (Z.log2 (Z.of_nat n) + 1) k ltac:(lia) ltac:(lia)).
    lia.
Qed.

Section Sequences.
Context {T : Type} `{Element T}.
Implicit Types (h : gmap nat (list (option T))) (o : gmap nat vec).
Implicit Types (p : list bool) (l : list event) (k : nat).
Implicit Types (xs ys zs : list T).

Lemma quiet_push_back_all fuel this xs :
  quiet (T := T) (push_back_all fuel this xs).
Proof.
  induction xs as [|x xs IH]; [apply quiet_ret|].
  apply quiet_bind; [apply quiet_push_back|]. intros _. exact IH.
Qed.

(** A sequence of [push_back]: each call has the strong guarantee, and
    the capacity follows [grown_capacity]. *)
Lemma push_back_all_wp fuel this xs : forall v ys h o p l k,
  o !! this = Some v -> owns h v ys ->
  capacity_ v = grown_capacity (length ys) ->
  Z.of_nat (length ys + length xs) < 2 ^ 62 ->
  wp (push_back_all (S fuel) this xs) (World h o p l k)
    (fun _ w' => exists v',
       objs w' = <[this := v']> o /\ owns (heap w') v' (ys ++ xs) /\
       capacity_ v' = grown_capacity (length (ys ++ xs)) /\ leaked w' = k)
    (fun w' => exists v' zs,
       zs `prefix_of` xs /\ zs <> xs /\
       objs w' = <[this := v']> o /\ owns (heap w') v' (ys ++ zs) /\ leaked w' = k).
Proof.
  induction xs as [|x xs IH]; intros v ys h o p l k Ho Hown Hcap Hlen.
  - apply wp_ret. exists v. simpl. rewrite app_nil_r.
    split; [symmetry; apply insert_id; exact Ho|]. auto.
  - cbn [push_back_all]. simpl in Hlen.
    pose proof (grown_capacity_bounds (length ys)) as Hb.
    assert (Hbound : 2 * capacity_ v + 1 < SIZE_MOD).
    { rewrite Hcap. unfold SIZE_MOD, size_t_bits.
      change (2 ^ 64) with (4 * 2 ^ 62). lia. }
    pose proof Hown as (Hsz & Hc & _).
    apply wp_bind. eapply wp_mono; [apply push_back_wp with (xs := ys); eauto| |].
    + intros [] w1 (p1 & l1 & h1 & v1 & Hg & ->).
      assert (Hown1 : owns h1 v1 (ys ++ [x])).
      { eapply owns_grown; eauto. rewrite length_app. simpl. lia. }
      assert (Hcap1 : capacity_ v1 = grown_capacity (length (ys ++ [x]))).
      { rewrite length_app. simpl. rewrite Nat.add_1_r.
        destruct Hg as [(Hlt & -> & _)|(Hfull & -> & _)]; simpl.
        - rewrite grown_capacity_spare; [exact Hcap|]. lia.
        - rewrite grown_capacity_full; [lia|]. lia. }
      eapply wp_mono.
      { apply (IH v1 (ys ++ [x]) h1 (<[this := v1]> o) p1 l1 k);
          [apply lookup_insert_eq|exact Hown1|exact Hcap1|].
        rewrite length_app. simpl. lia. }
      * intros [] w2 (v2 & Ho2 & Hown2 & Hcap2 & Hk2).
        exists v2. rewrite <- app_assoc in Hown2, Hcap2. simpl in Hown2, Hcap2.
        rewrite insert_insert_eq in Ho2. auto.
      * intros w2 (v2 & zs & Hpre & Hne & Ho2 & Hown2 & Hk2).
        exists v2, (x :: zs). rewrite <- app_assoc in Hown2. simpl in Hown2.
        rewrite insert_insert_eq in Ho2.
        split; [apply prefix_cons; exact Hpre|].
        split; [congruence|]. auto.
    + intros w1 (p1 & l1 & ->). exists v, []. simpl. rewrite app_nil_r.
      split; [apply prefix_nil|]. split; [discriminate|].
      split; [symmetry; apply insert_id; exact Ho|]. auto.
Qed.

(** A sequence of [push_back] within the capacity. *)
Lemma push_back_all_spare_wp fuel this b cap xs : forall ys h o p l k,
  o !! this = Some (Vec (Ptr (Some b) 0) (Z.of_nat (length ys)) cap) ->
  h !! b = Some (slots ys cap) ->
  Z.of_nat (length ys + length xs) <= cap < SIZE_MOD ->
  wp (push_back_all fuel this xs) (World h o p l k)
    (fun _ w' => exists p',
       w' = World (<[b := slots (ys ++ xs) cap]> h)
              (<[this := Vec (Ptr (Some b) 0) (Z.of_nat (length (ys ++ xs))) cap]> o)
              p' (l ++ (EvConstruct b <$> seq (length ys) (length xs))) k)
    (fun w' => nothrow_move = false /\ exists p' zs,
       zs `prefix_of` xs /\ zs <> xs /\
       w' = World (<[b := slots (ys ++ zs) cap]> h)
              (<[this := Vec (Ptr (Some b) 0) (Z.of_nat (length (ys ++ zs))) cap]> o)
              p' (l ++ (EvConstruct b <$> seq (length ys) (length zs))) k).
Proof.
  induction xs as [|x xs IH]; intros ys h o p l k Ho Hh Hcap.
  - apply wp_ret. exists p. simpl. rewrite !app_nil_r, !insert_id by assumption.
    reflexivity.
  - cbn [push_back_all]. simpl in Hcap.
    unfold wp, bind.
    erewrite push_back_spare_eq by (eassumption || lia).
    destruct (negb nothrow_move && fires p) eqn:Hthrow.
    + split; [destruct nothrow_move; [discriminate|reflexivity]|].
      exists (tail p), []. simpl. rewrite !app_nil_r, !insert_id by assumption.
      split; [apply prefix_nil|]. split; [discriminate|reflexivity].
    + specialize (IH (ys ++ [x]) (<[b := slots (ys ++ [x]) cap]> h)
                     (<[this := Vec (Ptr (Some b) 0) (Z.of_nat (length ys) + 1) cap]> o)
                     (if nothrow_move then p else tail p)
                     (l ++ [EvConstruct b (length ys)]) k).
      rewrite length_app in IH. simpl in IH.
      replace (Z.of_nat (length ys + 1)) with (Z.of_nat (length ys) + 1) in IH by lia.
      specialize (IH (lookup_insert_eq _ _ _) (lookup_insert_eq _ _ _) ltac:(lia)).
      unfold wp in IH.
      destruct (push_back_all fuel this xs _) as [[] w2|w2|r0]; [| |exact IH].
      * destruct IH as (p' & ->). exists p'.
        rewrite !insert_insert_eq, <- !app_assoc. simpl.
        rewrite Nat.add_1_r. reflexivity.
      * destruct IH as (Hnm & p' & zs & Hpre & Hne & ->).
        split; [exact Hnm|]. exists p', (x :: zs).
        split; [apply prefix_cons; exact Hpre|]. split; [congruence|].
        rewrite !insert_insert_eq, <- !app_assoc. simpl.
        rewrite Nat.add_1_r. reflexivity.
Qed.

Lemma insert_then_erase_list xs (idx : nat) (x : T) :
  (idx <= length xs)%nat ->
  take idx (take idx xs ++ x :: drop idx xs)
    ++ drop (S idx) (take idx xs ++ x :: drop idx xs) = xs.
Proof.
  intros Hidx.
  assert (Hlen : length (take idx xs) = idx) by (rewrite length_take; lia).
  rewrite take_app_length' by (symmetry; exact Hlen).
  rewrite drop_app_ge by lia. rewrite Hlen.
  replace (S idx - idx)%nat with 1%nat by lia. simpl. rewrite drop_0.
  apply take_drop.
Qed.
End Sequences.

(** ** No storage is lost *)

Section Tight.
Context {T : Type} `{Element T}.
Implicit Types (h : gmap nat (list (option T))) (o : gmap nat vec).
Implicit Types (p : list bool) (l : list event) (k : nat).
Implicit Types (xs ys zs : list T).

Lemma tight_update h o this v h' v' :
  tight h o -> o !! this = Some v ->
  (forall b, is_Some (h' !! b) ->
     (is_Some (h !! b) /\ blk (data_ v) <> Some b) \/ blk (data_ v') = Some b) ->
  tight h' (<[this := v']> o).
Proof.
  intros Ht Ho Hh' b Hb. destruct (Hh' b Hb) as [[Hhb Hne]|Hv'].
  - destruct (Ht b Hhb) as (t & u & Hu & Hub).
    destruct (decide (t = this)) as [->|Htne]; [congruence|].
    exists t, u. rewrite lookup_insert_ne by congruence. auto.
  - exists this, v'. rewrite lookup_insert_eq. auto.
Qed.

Lemma tight_stored h o this v zs v' :
  tight h o -> o !! this = Some v -> blk (data_ v') = blk (data_ v) ->
  tight (stored h v zs) (<[this := v']> o).
Proof.
  intros Ht Ho Hblk. eapply tight_update; eauto. intros b Hb.
  unfold stored in Hb. rewrite Hblk.
  destruct (blk (data_ v)) as [bv|]; [|left; split; [exact Hb|discriminate]].
  destruct (decide (bv = b)) as [->|Hne]; [right; reflexivity|].
  rewrite lookup_insert_ne in Hb by exact Hne. left. split; [exact Hb|congruence].
Qed.

Lemma released_is_Some h v b :
  is_Some (released h v !! b) -> is_Some (h !! b) /\ blk (data_ v) <> Some b.
Proof.
  unfold released. destruct (blk (data_ v)) as [bv|]; [|intros Hb; split; [exact Hb|discriminate]].
  intros Hb. destruct (decide (bv = b)) as [->|Hne].
  - rewrite lookup_delete_eq in Hb. destruct Hb; discriminate.
  - rewrite lookup_delete_ne in Hb by exact Hne. split; [exact Hb|congruence].
Qed.

Lemma tight_reallocated h o this v s v' :
  tight h o -> o !! this = Some v ->
  blk (data_ v') = Some (fresh (dom h)) ->
  tight (released (<[fresh (dom h) := s]> h) v) (<[this := v']> o).
Proof.
  intros Ht Ho Hblk. eapply tight_update; eauto. intros b Hb.
  apply released_is_Some in Hb as [Hb Hne].
  destruct (decide (fresh (dom h) = b)) as [<-|Hfb]; [right; exact Hblk|].
  rewrite lookup_insert_ne in Hb by exact Hfb. left. auto.
Qed.

Lemma tight_emptied h o this v v' :
  tight h o -> o !! this = Some v ->
  tight (released h v) (<[this := v']> o).
Proof.
  intros Ht Ho. eapply tight_update; eauto. intros b Hb.
  apply released_is_Some in Hb. left. exact Hb.
Qed.

Lemma tight_grown h o this v h' v' zs :
  tight h o -> o !! this = Some v -> grown h v h' v' zs ->
  tight h' (<[this := v']> o).
Proof.
  intros Ht Ho [(_ & -> & ->)|(_ & -> & ->)].
  - apply tight_stored; auto.
  - apply tight_reallocated; auto.
Qed.

Lemma tight_new h o this v :
  tight h o -> o !! this = None -> tight h (<[this := v]> o).
Proof.
  intros Ht Ho b Hb. destruct (Ht b Hb) as (t & u & Hu & Hub).
  exists t, u. rewrite lookup_insert_ne by congruence. auto.
Qed.

Lemma tight_delete h o this v :
  tight h o -> o !! this = Some v -> tight (released h v) (delete this o).
Proof.
  intros Ht Ho b Hb. apply released_is_Some in Hb as [Hb Hne].
  destruct (Ht b Hb) as (t & u & Hu & Hub).
  destruct (decide (t = this)) as [->|Htne]; [congruence|].
  exists t, u. rewrite lookup_delete_ne by congruence. auto.
Qed.

Lemma tight_swap h o this other a b :
  tight h o -> this <> other -> o !! this = Some a -> o !! other = Some b ->
  tight h (<[other := a]> (<[this := b]> o)).
Proof.
  intros Ht Hne Ha Hb b0 Hb0. destruct (Ht b0 Hb0) as (t & u & Hu & Hub).
  destruct (decide (t = this)) as [->|Htt].
  { exists other, a. rewrite lookup_insert_eq. split; congruence. }
  destruct (decide (t = other)) as [->|Hto].
  { exists this, b. rewrite lookup_insert_ne by congruence.
    rewrite lookup_insert_eq. split; congruence. }
  exists t, u. rewrite !lookup_insert_ne by congruence. auto.
Qed.

Lemma tight_moved h o this other v vo :
  tight h o -> this <> other -> o !! this = Some v -> o !! other = Some vo ->
  tight (released h v) (<[this := vo]> (<[other := vec_default]> o)).
Proof.
  intros Ht Hne Ho Hoo b Hb. apply released_is_Some in Hb as [Hb Hnb].
  destruct (Ht b Hb) as (t & u & Hu & Hub).
  destruct (decide (t = this)) as [->|Htt]; [congruence|].
  destruct (decide (t = other)) as [->|Hto].
  { exists this, vo. rewrite lookup_insert_eq. split; congruence. }
  exists t, u. rewrite !lookup_insert_ne by congruence. auto.
Qed.

Lemma tight_same_objs h o this v zs :
  tight h o -> o !! this = Some v -> tight (stored h v zs) o.
Proof.
  intros Ht Ho. rewrite <- (insert_id o this v Ho).
  apply tight_stored; auto.
Qed.

(** Every call within its contract keeps the heap tight and the count
    of lost elements as it is, whether it returns or throws. *)
Lemma run_tight fuel c h o p l k :
  consistent h o -> tight h o -> pre c (World h o p l k) ->
  wp (run (S fuel) c) (World h o p l k)
    (fun _ w' => no_orphans w' /\ leaked w' = k)
    (fun w' => no_orphans w' /\ leaked w' = k).
Proof.
  intros Hc Ht Hpre. pose proof Hc as [Hwf Hex].
  pose proof (fresh_obj_None o) as Hfo.
  assert (Hsame : no_orphans (World h o p l k) /\ k = k) by (split; [exact Ht|reflexivity]).
  destruct c as [|other|other|this|this other|this other|this value|this r|this|this n
                |this|this|this other|this index r|this index|this first last|this q];
    simpl in Hpre; unfold run, no_orphans.
  - (* Declare_default *)
    apply wp_bind, declare_wp. apply wp_ret. apply wp_ret. simpl.
    split; [apply tight_new; assumption|reflexivity].
  - (* Declare_copy *)
    destruct Hpre as [vo Hoo]. destruct (Hwf _ _ Hoo) as [ys Hys].
    pose proof (fresh_obj_ne o other vo Hoo) as Htmp.
    pose proof (tight_new h o _ vec_default Ht Hfo) as Ht0.
    apply wp_bind, declare_wp.
    eapply wp_mono.
    { apply vector_copy_wp with (vo := vo) (ys := ys); try assumption.
      - apply lookup_insert_eq.
      - rewrite lookup_insert_ne by exact Htmp. exact Hoo. }
    + intros [] w1 Hw1. apply wp_ret. destruct (decide (ys = [])) as [Hy|Hy].
      * subst w1. simpl. auto.
      * destruct Hw1 as [_ ->]. simpl. split; [|reflexivity].
        apply (tight_reallocated h _ _ vec_default _ _ Ht0 (lookup_insert_eq _ _ _)).
        reflexivity.
    + intros w1 [[_ ->] | (j & Hj & _ & _ & ->)]; unfold without, set_objs; simpl.
      * rewrite delete_insert_id by exact Hfo. auto.
      * rewrite insert_insert_eq, delete_insert_id by exact Hfo. auto.
  - (* Declare_move *)
    destruct Hpre as [vo Hoo].
    pose proof (fresh_obj_ne o other vo Hoo) as Htmp.
    pose proof (tight_new h o _ vec_default Ht Hfo) as Ht0.
    apply wp_bind, declare_wp.
    eapply wp_eq.
    { eapply vector_move_eq; [exact Htmp|apply lookup_insert_eq|].
      rewrite lookup_insert_ne by exact Htmp. exact Hoo. }
    apply wp_ret. simpl. split; [|reflexivity].
    apply (tight_moved h _ _ other vec_default vo Ht0 Htmp).
    + apply lookup_insert_eq.
    + rewrite lookup_insert_ne by exact Htmp. exact Hoo.
  - (* Destroy *)
    destruct Hpre as [v Ho]. destruct (Hwf _ _ Ho) as [xs Hxs].
    destruct (destroy_eq this v xs h o p l k Ho Hxs) as [l' Heq].
    eapply wp_eq; [exact Heq|]. simpl.
    split; [apply tight_delete; assumption|reflexivity].
  - (* Assign_copy *)
    destruct Hpre as [[v Ho] [vo Hoo]].
    destruct (decide (this = other)) as [->|Hne].
    { eapply wp_eq; [apply assign_copy_self_eq|]. exact Hsame. }
    destruct (Hwf _ _ Ho) as [xs Hxs]. destruct (Hwf _ _ Hoo) as [ys Hys].
    eapply wp_mono; [apply assign_copy_wp with (xs := xs) (ys := ys); eauto| |].
    + intros [] w' (p' & l' & ->).
      destruct (decide (ys = [])) as [Hy|Hy]; simpl.
      * split; [apply tight_emptied; assumption|reflexivity].
      * split; [apply tight_reallocated; auto|reflexivity].
    + intros w' (p' & l' & ->). exact Hsame.
  - (* Assign_move *)
    destruct Hpre as [[v Ho] [vo Hoo]].
    destruct (decide (this = other)) as [->|Hne].
    { eapply wp_eq; [apply assign_move_self_eq|]. exact Hsame. }
    destruct (Hwf _ _ Ho) as [xs Hxs].
    destruct (assign_move_eq this other v vo xs h o p l k Hne Ho Hxs Hoo) as [l' Heq].
    eapply wp_eq; [exact Heq|]. simpl.
    split; [apply tight_moved; assumption|reflexivity].
  - (* Push_back *)
    destruct Hpre as (v & Ho & Hb & Hfit). destruct (Hwf _ _ Ho) as [xs Hxs].
    eapply wp_mono; [apply push_back_wp with (xs := xs); eauto| |].
    + intros [] w' (p' & l' & h' & v' & Hg & ->). simpl.
      split; [eapply tight_grown; eauto|reflexivity].
    + intros w' (p' & l' & ->). exact Hsame.
  - (* Push_back_lvalue *)
    destruct Hpre as (v & Ho & Hb & Hfit & [x Hx]). destruct (Hwf _ _ Ho) as [xs Hxs].
    eapply wp_mono; [apply push_back_lvalue_wp with (xs := xs) (x := x); eauto| |].
    + intros [] w' (p' & l' & h' & v' & Hg & ->). simpl.
      split; [eapply tight_grown; eauto|reflexivity].
    + intros w' (p' & l' & ->). exact Hsame.
  - (* Pop_back *)
    destruct Hpre as (v & Ho & Hpos). destruct (Hwf _ _ Ho) as [xs Hxs].
    pose proof Hxs as (Hsz & Hcap & Hoff & Hblk).
    destruct xs as [|x xs' _] using rev_ind; [simpl in *; lia|].
    eapply wp_eq; [eapply pop_back_stored_eq; eauto|]. simpl.
    split; [apply tight_stored; auto|reflexivity].
  - (* Reserve *)
    destruct Hpre as ([v Ho] & Hn & Hfit). destruct (Hwf _ _ Ho) as [xs Hxs].
    pose proof Hxs as (Hsz & Hcap & _).
    destruct (decide (n <= capacity_ v)) as [Hle|Hgt].
    { eapply wp_eq; [eapply reserve_noop_eq; eauto|]. exact Hsame. }
    eapply wp_mono; [apply reserve_wp with (xs := xs); eauto; lia| |].
    + intros [] w' (p' & l' & ->). simpl.
      split; [apply tight_reallocated; auto|reflexivity].
    + intros w' (p' & l' & ->). exact Hsame.
  - (* Shrink_to_fit *)
    destruct Hpre as [v Ho]. destruct (Hwf _ _ Ho) as [xs Hxs].
    pose proof Hxs as (Hsz & Hcap & _).
    destruct (decide (size_ v = capacity_ v)) as [Heq|Hne].
    { eapply wp_eq; [eapply shrink_to_fit_noop_eq; eauto|]. exact Hsame. }
    eapply wp_mono; [apply shrink_to_fit_wp with (xs := xs); eauto| |].
    + intros [] w' (p' & l' & ->).
      destruct (decide (xs = [])) as [Hx|Hx]; simpl.
      * split; [apply tight_emptied; assumption|reflexivity].
      * split; [apply tight_reallocated; auto|reflexivity].
    + intros w' (p' & l' & ->). exact Hsame.
  - (* Clear *)
    destruct Hpre as [v Ho]. destruct (Hwf _ _ Ho) as [xs Hxs].
    destruct (clear_eq this v xs h o p l k Ho Hxs) as [l' Heq].
    eapply wp_eq; [exact Heq|]. simpl.
    split; [apply tight_stored; auto|reflexivity].
  - (* Swap *)
    destruct Hpre as [[v Ho] [vo Hoo]].
    destruct (decide (this = other)) as [->|Hne].
    { eapply wp_eq; [eapply swap_self_eq; eauto|]. exact Hsame. }
    eapply wp_eq; [eapply swap_eq; eauto|]. simpl.
    split; [apply tight_swap; assumption|reflexivity].
  - (* Insert *)
    destruct Hpre as (v & Ho & Hidx & Hb & Hfit & [x Hx]). destruct (Hwf _ _ Ho) as [xs Hxs].
    pose proof Hxs as (Hsz & Hcap & _).
    eapply wp_bind_eq; [apply begin_eq; eauto|].
    apply wp_bind.
    eapply wp_mono; [apply insert_wp with (xs := xs) (x := x); eauto; lia| |].
    + intros res w' (p' & l' & h' & v' & Hg & _ & ->). apply wp_ret. simpl.
      split; [eapply tight_grown; eauto|reflexivity].
    + intros w' [(p' & l' & ->)|(_ & p' & l' & h' & v' & zs & Hzl & Hg & ->)].
      * exact Hsame.
      * simpl. split; [eapply tight_grown; eauto|reflexivity].
  - (* Erase *)
    destruct Hpre as (v & Ho & Hidx). destruct (Hwf _ _ Ho) as [xs Hxs].
    pose proof Hxs as (Hsz & Hcap & _).
    eapply wp_bind_eq; [apply begin_eq; eauto|].
    apply wp_bind.
    eapply wp_mono; [apply erase_wp with (xs := xs); eauto; lia| |].
    + intros res w' (_ & p' & l' & ->). apply wp_ret. simpl.
      split; [apply tight_stored; auto|reflexivity].
    + intros w' (_ & p' & zs & Hzl & ->). simpl.
      split; [eapply tight_same_objs; eauto|reflexivity].
  - (* Erase_range *)
    destruct Hpre as (v & Ho & Hfl & Hl). destruct (Hwf _ _ Ho) as [xs Hxs].
    pose proof Hxs as (Hsz & Hcap & _).
    eapply wp_bind_eq; [apply begin_eq; eauto|].
    apply wp_bind.
    eapply wp_mono; [apply erase_range_wp with (xs := xs); eauto; lia| |].
    + intros res w' (_ & p' & l' & ->). apply wp_ret. simpl.
      split; [apply tight_stored; auto|reflexivity].
    + intros w' (_ & p' & zs & Hzl & ->). simpl.
      split; [eapply tight_same_objs; eauto|reflexivity].
  - (* Observe *)
    destruct Hpre as [v Ho].
    eapply wp_eq; [eapply observe_eq; eauto|]. exact Hsame.
Qed.
End Tight.

(** ** The properties *)

Section Further.
Context {T : Type} `{Element T}.
Implicit Types (xs ys zs : list T) (w : world T) (v : vec).

(** X1. [pop_back] on a vector that holds [xs ++ [x]] always returns,
    whatever faults are planned: it destroys the last element, the one
    at index [length xs], and nothing else; the size drops by one, the
    data pointer and the capacity stay, no storage is allocated or
    released, and the vector holds [xs]. *)
Theorem pop_back_removes_last (this : nat) v xs (x : T) w :
  objs w !! this = Some v -> owns (heap w) v (xs ++ [x]) ->
  exists b, blk (data_ v) = Some b /\
    vector.pop_back this w
    = Ret tt (World (<[b := slots xs (capacity_ v)]> (heap w))
                (<[this := Vec (data_ v) (size_ v - 1) (capacity_ v)]> (objs w))
                (plan w) (log w ++ [EvDestroy b (length xs)]) (leaked w)) /\
    owns (<[b := slots xs (capacity_ v)]> (heap w))
         (Vec (data_ v) (size_ v - 1) (capacity_ v)) xs.
Proof.
  intros Ho Hown. destruct w as [h o p l k]. simpl in *.
  pose proof Hown as (Hsz & Hcap & _).
  rewrite length_app in Hsz. simpl in Hsz.
  destruct (owns_positive _ _ _ Hown) as (b & Hd & Hh); [lia|].
  exists b. split; [rewrite Hd; reflexivity|].
  pose proof (pop_back_stored_eq this v xs x h o p l k Ho Hown) as Heq.
  pose proof (owns_stored h v (xs ++ [x]) xs (size_ v - 1) Hown ltac:(lia) ltac:(lia))
    as Hown'.
  unfold stored in Heq, Hown'. rewrite Hd in Heq, Hown'. simpl in Heq, Hown'.
  split; [rewrite Heq, Hd; reflexivity|rewrite Hd; exact Hown'].
Qed.

(** X2. [pop_back] has no check for an empty vector: [back()] is then the
    slot before the storage, and destroying it has no defined
    behaviour, with or without allocated storage. *)
Theorem pop_back_empty_undefined (this : nat) v w :
  objs w !! this = Some v -> owns (heap w) v [] ->
  vector.pop_back this w
  = Abort (if capacity_ v =? 0 then BadPointer else OutOfBounds).
Proof.
  intros Ho (Hsz & Hcap & Hoff & Hblk). destruct w as [h o p l k]. simpl in *.
  unfold vector.pop_back.
  erewrite bind_Ret by (apply back_eq; eauto).
  unfold bind, destroy_at, locate, bind, ptr_add. simpl.
  destruct (blk (data_ v)) as [b|].
  - destruct Hblk as [Hpos ->].
    destruct (Z.eqb_spec (capacity_ v) 0) as [?|_]; [lia|].
    destruct (Z.ltb_spec (off (data_ v) + size_ v + -1) 0) as [_|?]; [reflexivity|lia].
  - rewrite Hblk. reflexivity.
Qed.

(** X3. [clear] always returns: it destroys every element, the last one
    first, and sets the size to 0; the data pointer and the capacity
    stay and the block is kept, with all its slots raw. *)
Theorem clear_destroys_all (this : nat) v xs w :
  objs w !! this = Some v -> owns (heap w) v xs ->
  vector.clear this w
  = Ret tt (World (stored (heap w) v [])
              (<[this := Vec (data_ v) 0 (capacity_ v)]> (objs w))
              (plan w) (log w ++ destroyed v (length xs)) (leaked w)) /\
  owns (stored (heap w) v []) (Vec (data_ v) 0 (capacity_ v)) [] /\
  (forall b, blk (data_ v) = Some b ->
     stored (heap w) v [] !! b = Some (replicate (Z.to_nat (capacity_ v)) None)).
Proof.
  intros Ho Hown. destruct w as [h o p l k]. simpl in *.
  pose proof Hown as (Hsz & Hcap & _).
  split; [apply clear_log_eq; assumption|].
  split; [eapply owns_stored; eauto; simpl; lia|].
  intros b Hb. unfold stored. rewrite Hb, lookup_insert_eq, slots_nil. reflexivity.
Qed.

(** X4. The destructor always returns: it destroys every element, the last
    one first, then releases the block, so that no live element is lost
    with it, and sets the data pointer to null.  Every other block of
    the heap is untouched. *)
Theorem destructor_releases (this : nat) v xs w :
  objs w !! this = Some v -> owns (heap w) v xs ->
  vector.destructor this w
  = Ret tt (World (released (heap w) v)
              (<[this := Vec nullptr 0 (capacity_ v)]> (objs w))
              (plan w) (log w ++ destroyed v (length xs) ++ freed v) (leaked w)) /\
  (forall b, blk (data_ v) = Some b -> released (heap w) v !! b = None) /\
  (forall b, blk (data_ v) <> Some b -> released (heap w) v !! b = heap w !! b).
Proof.
  intros Ho Hown. destruct w as [h o p l k]. simpl in *.
  split; [apply destructor_log_eq; assumption|].
  split.
  - intros b Hb. unfold released. rewrite Hb. apply lookup_delete_eq.
  - intros b Hb. apply released_lookup_ne. exact Hb.
Qed.

(** X5. [swap] always returns and exchanges the data pointers, the sizes
    and the capacities of the two objects; the heap is untouched: no
    element is copied, moved or destroyed, and nothing is logged.
    Swapping twice, or swapping an object with itself, gives the
    initial world back. *)
Theorem swap_exchanges (this other : nat) (a b : vec) w :
  objs w !! this = Some a -> objs w !! other = Some b ->
  vector.swap this other w
  = Ret tt (set_objs (<[other := a]> (<[this := b]> (objs w))) w) /\
  (vector.swap this other ;; vector.swap this other) w = Ret tt w /\
  (this = other -> vector.swap this other w = Ret tt w).
Proof.
  intros Ha Hb. destruct w as [h o p l k]. unfold set_objs. simpl in *.
  assert (Hself : forall c, o !! this = Some c -> <[this := c]> (<[this := c]> o) = o).
  { intros c Hc. rewrite insert_insert_eq. apply insert_id. exact Hc. }
  destruct (decide (this = other)) as [<-|Hne].
  - assert (b = a) by congruence. subst b.
    rewrite (swap_self_eq this a h o p l k Ha), (Hself a Ha).
    split; [reflexivity|]. split; [|reflexivity].
    erewrite bind_Ret by (eapply swap_self_eq; eauto).
    eapply swap_self_eq; eauto.
  - rewrite (swap_eq this other a b h o p l k Hne Ha Hb).
    split; [reflexivity|]. split; [|intros Heq; contradiction].
    erewrite bind_Ret by (eapply swap_eq; eauto).
    erewrite swap_eq with (a := b) (b := a);
      [|exact Hne
       |rewrite lookup_insert_ne by congruence; apply lookup_insert_eq
       |apply lookup_insert_eq].
    do 2 f_equal. map_cases.
Qed.

(** X6. The move constructor always returns: the new object takes the data
    pointer, the size and the capacity of the source, hence its
    elements, and the source is left with a null data pointer, size 0
    and capacity 0.  The heap is untouched: nothing is allocated and
    no element is constructed, copied or moved. *)
Theorem move_constructor_takes_over (other : nat) vo w :
  objs w !! other = Some vo ->
  vector.declare (fun this => vector.vector_move this other) w
  = Ret (fresh (dom (objs w)))
      (set_objs (<[fresh (dom (objs w)) := vo]> (<[other := vec_default]> (objs w))) w) /\
  objs w !! fresh (dom (objs w)) = None.
Proof.
  intros Hoo. destruct w as [h o p l k]. unfold set_objs. simpl in *.
  pose proof (fresh_obj_None o) as Hfo.
  pose proof (fresh_obj_ne o other vo Hoo) as Htmp.
  split; [|exact Hfo].
  unfold vector.declare.
  rewrite (bind_Ret _ _ _ _ _ (new_obj_eq h o p l k)).
  unfold bind, catch.
  erewrite vector_move_eq; [| exact Htmp | apply lookup_insert_eq |
                             rewrite lookup_insert_ne by exact Htmp; exact Hoo].
  unfold ret. do 2 f_equal. map_cases.
Qed.

(** X7. Move assignment between two distinct vectors always returns: the
    old elements of the left-hand side are destroyed, the last one
    first, and its block is released; the left-hand side then has the
    data pointer, size and capacity of the right-hand side, hence its
    elements, none of which is copied or moved, and the right-hand
    side is left empty without storage.  Move assignment of a vector
    to itself leaves the world as it is. *)
Theorem move_assignment_transfers (this other : nat) v vo xs ys w :
  objs w !! this = Some v -> owns (heap w) v xs ->
  objs w !! other = Some vo -> owns (heap w) vo ys ->
  (this <> other -> forall b, blk (data_ v) = Some b -> blk (data_ vo) <> Some b) ->
  (this = other -> vector.assign_move this other w = Ret tt w) /\
  (this <> other ->
   vector.assign_move this other w
   = Ret tt (World (released (heap w) v)
               (<[this := vo]> (<[other := vec_default]> (objs w)))
               (plan w) (log w ++ destroyed v (length xs) ++ freed v) (leaked w)) /\
   owns (released (heap w) v) vo ys).
Proof.
  intros Ho Hown Hoo Howno Hdisj. destruct w as [h o p l k]. simpl in *.
  split.
  - intros <-. apply assign_move_self_eq.
  - intros Hne. split; [eapply assign_move_log_eq; eauto|].
    eapply owns_frame; [exact Howno|]. intros b Hb.
    apply released_lookup_ne. intros Hvb. eapply (Hdisj Hne); eauto.
Qed.

(** X8. Element access does no bounds check and never changes the world.
    [operator[](i)] designates the element [i] exactly when
    [i < size()], and no element otherwise; [front()] designates the
    first element and [back()] the last one, and on an empty vector
    they designate no element. *)
Theorem element_access (this : nat) v xs w :
  objs w !! this = Some v -> owns (heap w) v xs ->
  (forall i : nat, exists q,
     vector.subscript this (Z.of_nat i) w = Ret q w /\ deref (heap w) q = xs !! i) /\
  (exists q, vector.front this w = Ret q w /\ deref (heap w) q = head xs) /\
  (exists q, vector.back this w = Ret q w /\ deref (heap w) q = last xs).
Proof.
  intros Ho Hown. destruct w as [h o p l k]. simpl in *.
  pose proof Hown as (Hsz & Hcap & Hoff & _).
  split; [|split].
  - intros i. eexists. split; [apply subscript_eq; exact Ho|].
    apply deref_index. exact Hown.
  - eexists. split; [unfold vector.front; apply begin_eq; exact Ho|].
    replace (data_ v) with (ptr_add (data_ v) (Z.of_nat 0)).
    + rewrite (deref_index h v xs 0 Hown). destruct xs; reflexivity.
    + unfold ptr_add. destruct (data_ v) as [bo z]. simpl. f_equal. lia.
  - eexists. split; [apply back_eq; exact Ho|].
    destruct xs as [|x xs' _] using rev_ind.
    + simpl in Hsz. rewrite deref_before; [reflexivity|].
      unfold ptr_add. simpl. lia.
    + rewrite length_app in Hsz. simpl in Hsz.
      replace (ptr_add (ptr_add (data_ v) (size_ v)) (-1))
        with (ptr_add (data_ v) (Z.of_nat (length xs')))
        by (unfold ptr_add; simpl; f_equal; lia).
      rewrite (deref_index h v _ _ Hown), last_snoc.
      rewrite lookup_app_r by lia. rewrite Nat.sub_diag. reflexivity.
Qed.

(** X9. The observers never change the world.  [size()] is the number of
    elements, [empty()] holds exactly when there is none, [data()] is
    [begin()], [end()] is [begin() + size()], so that [end() - begin()]
    is the size, and the pointers of [[begin(), end())] designate the
    elements in order. *)
Theorem iterator_range (this : nat) v xs w :
  objs w !! this = Some v -> owns (heap w) v xs ->
  vector.size this w = Ret (Z.of_nat (length xs)) w /\
  vector.empty this w = Ret (bool_decide (xs = [])) w /\
  vector.capacity this w = Ret (capacity_ v) w /\
  vector.data this w = Ret (data_ v) w /\
  vector.begin this w = Ret (data_ v) w /\
  vector.end_ this w = Ret (ptr_add (data_ v) (Z.of_nat (length xs))) w /\
  (e <- vector.end_ this ;; b <- vector.begin this ;; ptr_diff e b) w
  = Ret (Z.of_nat (length xs)) w /\
  Z.of_nat (length xs) <= capacity_ v /\
  (forall i : nat, (i < length xs)%nat ->
     deref (heap w) (ptr_add (data_ v) (Z.of_nat i)) = xs !! i).
Proof.
  intros Ho Hown. destruct w as [h o p l k]. simpl in *.
  pose proof Hown as (Hsz & Hcap & Hoff & _).
  split; [rewrite <- Hsz; apply size_eq; exact Ho|].
  split.
  { unfold vector.empty. erewrite bind_Ret by (apply size_eq; exact Ho).
    unfold ret. f_equal. rewrite Hsz.
    destruct xs; [reflexivity|].
    rewrite bool_decide_eq_false_2 by discriminate.
    apply Z.eqb_neq. simpl. lia. }
  split; [apply capacity_eq; exact Ho|].
  split; [apply data_eq; exact Ho|].
  split; [apply begin_eq; exact Ho|].
  split; [rewrite <- Hsz; apply end_eq; exact Ho|].
  split.
  { erewrite bind_Ret by (apply end_eq; exact Ho).
    erewrite bind_Ret by (apply begin_eq; exact Ho).
    unfold ptr_diff. rewrite bool_decide_eq_true_2 by reflexivity.
    unfold ret, ptr_add. simpl. f_equal. lia. }
  split; [lia|].
  intros i _. apply deref_index. exact Hown.
Qed.

(** X10. [push_back] with spare capacity works in place: the element is
    constructed in the first raw slot and the size grows by one, while
    the data pointer, the capacity and the old elements stay where they
    are, so that pointers to them remain valid; nothing is allocated.
    Only the move of the new element can throw, and then nothing has
    changed but the consumed fault. *)
Theorem push_back_in_place (fuel : nat) (this : nat) v xs (value : T) w :
  objs w !! this = Some v -> owns (heap w) v xs -> size_ v < capacity_ v ->
  exists b, blk (data_ v) = Some b /\
    vector.push_back fuel this value w
    = (if negb nothrow_move && fires (plan w)
       then Throw (set_plan (tail (plan w)) w)
       else Ret tt (World (<[b := slots (xs ++ [value]) (capacity_ v)]> (heap w))
                      (<[this := Vec (data_ v) (size_ v + 1) (capacity_ v)]> (objs w))
                      (if nothrow_move then plan w else tail (plan w))
                      (log w ++ [EvConstruct b (length xs)]) (leaked w))) /\
    owns (<[b := slots (xs ++ [value]) (capacity_ v)]> (heap w))
         (Vec (data_ v) (size_ v + 1) (capacity_ v)) (xs ++ [value]) /\
    (forall i : nat, (i < length xs)%nat ->
       deref (<[b := slots (xs ++ [value]) (capacity_ v)]> (heap w))
             (ptr_add (data_ v) (Z.of_nat i)) = xs !! i).
Proof.
  intros Ho Hown Hlt. destruct w as [h o p l k]. unfold set_plan. simpl in *.
  pose proof Hown as (Hsz & Hcap & _).
  destruct (owns_spare _ _ _ Hown Hlt) as (b & Hd & Hh).
  exists b. split; [rewrite Hd; reflexivity|].
  assert (Hown' : owns (<[b := slots (xs ++ [value]) (capacity_ v)]> h)
                       (Vec (data_ v) (size_ v + 1) (capacity_ v)) (xs ++ [value])).
  { pose proof (owns_stored h v xs (xs ++ [value]) (size_ v + 1) Hown) as Hs.
    unfold stored in Hs. rewrite Hd in Hs. simpl in Hs. rewrite Hd.
    apply Hs; [rewrite length_app; simpl; lia|lia]. }
  split; [|split; [exact Hown'|]].
  - destruct v as [d sz cap]. simpl in *. subst d.
    apply push_back_spare_eq; assumption || lia.
  - intros i Hi.
    pose proof (deref_index _ _ _ i Hown') as Hdi. simpl in Hdi.
    rewrite Hdi. apply lookup_app_l. exact Hi.
Qed.

(** X11. Pushing elements within the capacity, as after [reserve], never
    reallocates: the data pointer and the capacity stay, the elements
    are constructed in place one after the other, nothing is allocated
    or released, and the elements the vector held stay where they are.
    Only the move of an element can throw; the vector then holds the
    elements pushed before it. *)
Theorem push_back_all_within_capacity (fuel this : nat) v ys xs w :
  objs w !! this = Some v -> owns (heap w) v ys ->
  Z.of_nat (length ys + length xs) <= capacity_ v ->
  match push_back_all fuel this xs w with
  | Ret _ w' =>
      objs w' = <[this := Vec (data_ v) (Z.of_nat (length (ys ++ xs))) (capacity_ v)]>
                  (objs w) /\
      heap w' = stored (heap w) v (ys ++ xs) /\
      log w' = log w ++ constructed v (length ys) (length xs) /\
      leaked w' = leaked w
  | Throw w' =>
      nothrow_move = false /\ exists zs, zs `prefix_of` xs /\ zs <> xs /\
        objs w' = <[this := Vec (data_ v) (Z.of_nat (length (ys ++ zs))) (capacity_ v)]>
                    (objs w) /\
        heap w' = stored (heap w) v (ys ++ zs) /\
        leaked w' = leaked w
  | Abort _ => False
  end.
Proof.
  intros Ho Hown Hlen. destruct w as [h o p l k].
  cbn [heap objs plan log leaked] in *.
  pose proof Hown as (Hsz & Hcap & Hoff & Hblk).
  destruct (blk (data_ v)) as [b|] eqn:Hb.
  - destruct (owns_block _ _ _ _ Hown Hb) as [Hv Hh].
    pose proof (push_back_all_spare_wp fuel this b (capacity_ v) xs ys h o p l k)
      as Hwp.
    rewrite <- Hv in Hwp. specialize (Hwp Ho Hh ltac:(lia)).
    unfold wp in Hwp. unfold stored, constructed. rewrite Hb.
    assert (Hd : data_ v = Ptr (Some b) 0).
    { destruct (data_ v) as [bo z]. simpl in *. subst. reflexivity. }
    rewrite Hd.
    destruct (push_back_all fuel this xs _) as [[] w'|w'|r0]; [| |exact Hwp].
    + destruct Hwp as (p' & ->). simpl. auto.
    + destruct Hwp as (Hnm & p' & zs & Hpre & Hne & ->).
      split; [exact Hnm|]. exists zs. simpl. auto.
  - assert (ys = []) by (destruct ys; [reflexivity|simpl in *; lia]).
    assert (xs = []) by (destruct xs; [reflexivity|simpl in *; lia]).
    subst ys xs. simpl. unfold stored, constructed. rewrite Hb. simpl.
    rewrite app_nil_r. simpl in Hsz. rewrite <- Hsz, vec_eta.
    split; [symmetry; apply insert_id; exact Ho|]. auto.
Qed.

(** X12. Pushing the elements [xs] one by one onto a vector without storage:
    when all calls return the vector holds [xs] and its capacity is
    [grown_capacity (length xs)], the least number of the form
    [2^k - 1] that is at least the size, so at most twice the size;
    when a call throws the vector holds the elements pushed before it.
    Without injected faults every call returns. *)
Theorem push_back_all_capacity (fuel this : nat) xs w :
  objs w !! this = Some vec_default -> Z.of_nat (length xs) < 2 ^ 62 ->
  match push_back_all (S fuel) this xs w with
  | Ret _ w' =>
      exists v', objs w' = <[this := v']> (objs w) /\ owns (heap w') v' xs /\
        capacity_ v' = grown_capacity (length xs) /\
        (exists k, 0 <= k /\ capacity_ v' = 2 ^ k - 1) /\
        (forall k, 0 <= k -> Z.of_nat (length xs) <= 2 ^ k - 1 ->
           capacity_ v' <= 2 ^ k - 1) /\
        Z.of_nat (length xs) <= capacity_ v' <= 2 * Z.of_nat (length xs) /\
        leaked w' = leaked w
  | Throw w' =>
      exists v' zs, zs `prefix_of` xs /\ zs <> xs /\
        objs w' = <[this := v']> (objs w) /\ owns (heap w') v' zs /\
        leaked w' = leaked w
  | Abort _ => False
  end /\
  (fault_free w -> exists w', push_back_all (S fuel) this xs w = Ret tt w').
Proof.
  intros Ho Hlen. destruct w as [h o p l k].
  cbn [heap objs plan log leaked] in *.
  pose proof (push_back_all_wp fuel this xs vec_default [] h o p l k Ho
                (owns_default h) eq_refl Hlen) as Hwp.
  simpl in Hwp. split.
  - unfold wp in Hwp.
    destruct (push_back_all (S fuel) this xs _) as [[] w'|w'|r0]; [| |exact Hwp].
    + destruct Hwp as (v' & Ho' & Hown' & Hcap' & Hk').
      exists v'. pose proof (grown_capacity_bounds (length xs)).
      pose proof (grown_capacity_least (length xs)) as [Hform Hleast].
      rewrite Hcap'. auto 10.
    + exact Hwp.
  - intros Hff.
    destruct (wp_quiet_returns _ _ _ _ Hwp (quiet_push_back_all _ _ _) Hff)
      as ([] & w' & Hrun).
    eauto.
Qed.

(** X13. [shrink_to_fit] returns at once, with the world untouched, when
    the size is the capacity.  On an empty vector with storage it
    always returns, without allocating: the block is released and the
    vector is left without storage.  Otherwise, when it returns the
    capacity is exactly the size and the elements are as before, and
    when the copy throws nothing has changed; without injected faults
    it returns. *)
Theorem shrink_to_fit_exact (this : nat) v xs w :
  objs w !! this = Some v -> owns (heap w) v xs ->
  (size_ v = capacity_ v -> vector.shrink_to_fit this w = Ret tt w) /\
  (size_ v <> capacity_ v -> xs = [] ->
   vector.shrink_to_fit this w
   = Ret tt (World (released (heap w) v) (<[this := vec_default]> (objs w))
               (plan w) (log w ++ freed v) (leaked w))) /\
  (size_ v <> capacity_ v ->
   match vector.shrink_to_fit this w with
   | Ret _ w' =>
       exists v', objs w' = <[this := v']> (objs w) /\
                  capacity_ v' = size_ v /\ size_ v' = size_ v /\
                  owns (heap w') v' xs /\ leaked w' = leaked w
   | Throw w' => heap w' = heap w /\ objs w' = objs w /\ leaked w' = leaked w
   | Abort _ => False
   end /\
   (fault_free w -> exists w', vector.shrink_to_fit this w = Ret tt w')).
Proof.
  intros Ho Hown. destruct w as [h o p l k]. simpl in *.
  pose proof Hown as (Hsz & Hcap & _).
  split; [intros Heq; eapply shrink_to_fit_noop_eq; eauto|].
  split; [intros Hne ->; apply shrink_to_fit_empty_eq; assumption|].
  intros Hne.
  pose proof (shrink_to_fit_wp this v xs h o p l k Ho Hown Hne) as Hwp.
  split.
  - unfold wp in Hwp.
    destruct (vector.shrink_to_fit this _) as [[] w'|w'|r0]; [| |exact Hwp].
    + destruct Hwp as (p' & l' & ->).
      destruct (decide (xs = [])) as [->|Hx]; simpl.
      * simpl in Hsz. exists vec_default. simpl.
        split; [reflexivity|]. split; [lia|]. split; [lia|].
        split; [apply owns_default|reflexivity].
      * assert (0 < length xs)%nat by (destruct xs; [congruence|simpl; lia]).
        eexists. split; [reflexivity|]. simpl.
        split; [reflexivity|]. split; [reflexivity|].
        split; [|reflexivity].
        rewrite Hsz. eapply owns_reallocated; eauto; lia.
    + destruct Hwp as (p' & l' & ->). simpl. auto.
  - intros Hff.
    destruct (wp_quiet_returns _ _ _ _ Hwp (quiet_shrink_to_fit _) Hff)
      as ([] & w' & Hrun).
    eauto.
Qed.

(** X14. Copying an empty vector never allocates and never throws, also
    when the source has storage: the copy constructor gives a vector
    without storage, of capacity 0, and copy assignment destroys the
    old elements of the left-hand side, releases its block and leaves
    it without storage. *)
Theorem copy_of_empty (this other : nat) v vo xs w :
  objs w !! this = Some v -> owns (heap w) v xs ->
  objs w !! other = Some vo -> owns (heap w) vo [] -> this <> other ->
  vector.declare (fun c => vector.vector_copy c other) w
  = Ret (fresh (dom (objs w)))
      (set_objs (<[fresh (dom (objs w)) := vec_default]> (objs w)) w) /\
  vector.assign_copy this other w
  = Ret tt (World (released (heap w) v) (<[this := vec_default]> (objs w))
              (plan w) (log w ++ destroyed v (length xs) ++ freed v) (leaked w)).
Proof.
  intros Ho Hown Hoo Howno Hne. destruct w as [h o p l k].
  unfold set_objs. simpl in *.
  pose proof Howno as (Hsz & _). simpl in Hsz.
  pose proof (fresh_obj_ne o other vo Hoo) as Htmp.
  assert (Hctor : vector.vector_copy (fresh (dom o)) other
                    (World h (<[fresh (dom o) := vec_default]> o) p l k)
                  = Ret tt (World h (<[fresh (dom o) := vec_default]> o) p l k)).
  { eapply vector_copy_empty_eq; [|exact Hsz]. simpl.
    rewrite lookup_insert_ne by exact Htmp. exact Hoo. }
  split.
  - unfold vector.declare.
    rewrite (bind_Ret _ _ _ _ _ (new_obj_eq h o p l k)).
    unfold bind, catch. rewrite Hctor. reflexivity.
  - unfold vector.assign_copy. rewrite bool_decide_eq_false_2 by congruence.
    eapply replace_by_empty_eq; eauto.
Qed.


(** X16. [erase(first, end())] never throws, whatever the element type: no
    element is swapped; the elements from [first] on are destroyed, the
    last one first.  The result is the new [end()]; the capacity and
    the data pointer stay.  [erase(begin(), end())] leaves the world
    [clear()] leaves. *)
Theorem erase_to_end (this : nat) v xs (f : nat) w :
  objs w !! this = Some v -> owns (heap w) v xs -> (f <= length xs)%nat ->
  exists w',
    vector.erase_range this (ptr_add (data_ v) (Z.of_nat f))
                       (ptr_add (data_ v) (Z.of_nat (length xs))) w
    = Ret (ptr_add (data_ v) (Z.of_nat f)) w' /\
    objs w' = <[this := Vec (data_ v) (Z.of_nat f) (capacity_ v)]> (objs w) /\
    heap w' = stored (heap w) v (take f xs) /\
    owns (heap w') (Vec (data_ v) (Z.of_nat f) (capacity_ v)) (take f xs) /\
    plan w' = plan w /\ leaked w' = leaked w /\
    log w' = log w ++ match blk (data_ v) with
                      | Some b => EvDestroy b <$> reverse (seq f (length xs - f))
                      | None => []
                      end /\
    vector.end_ this w' = Ret (ptr_add (data_ v) (Z.of_nat f)) w' /\
    (f = 0%nat -> vector.clear this w = Ret tt w').
Proof.
  intros Ho Hown Hf. destruct w as [h o p l k]. simpl in *.
  pose proof Hown as (Hsz & Hcap & _).
  eexists. split; [apply erase_tail_eq; assumption|]. simpl.
  split; [reflexivity|]. split; [reflexivity|].
  split; [eapply owns_stored; eauto; try rewrite length_take; lia|].
  split; [reflexivity|]. split; [reflexivity|]. split; [reflexivity|].
  split; [erewrite end_eq by apply lookup_insert_eq; reflexivity|].
  intros ->. rewrite (clear_log_eq this v xs h o p l k Ho Hown).
  unfold destroyed. rewrite Nat.sub_0_r. reflexivity.
Qed.

(** X17. [erase(pos, pos)] removes nothing, but still swaps every element
    from [pos] on with itself, through [std::swap]: when it returns the
    vector is as before.  It can throw only when [pos] is not [end()]
    and a move of the element type can throw, and then it does throw as
    soon as a move does, whatever swap of its own the element type has;
    the vector object is as before. *)
Theorem erase_empty_range (this : nat) v xs (f : nat) w :
  objs w !! this = Some v -> owns (heap w) v xs -> (f <= length xs)%nat ->
  match vector.erase_range this (ptr_add (data_ v) (Z.of_nat f))
                           (ptr_add (data_ v) (Z.of_nat f)) w with
  | Ret res w' =>
      res = ptr_add (data_ v) (Z.of_nat f) /\
      heap w' = heap w /\ objs w' = objs w /\ leaked w' = leaked w
  | Throw w' =>
      nothrow_move && nothrow_move_assign = false /\ (f < length xs)%nat /\
      objs w' = objs w
  | Abort _ => False
  end /\
  (nothrow_move && nothrow_move_assign = false -> (f < length xs)%nat ->
   exists w',
     vector.erase_range this (ptr_add (data_ v) (Z.of_nat f))
                        (ptr_add (data_ v) (Z.of_nat f)) (set_plan [true] w)
     = Throw w' /\ objs w' = objs w).
Proof.
  intros Ho Hown Hf. destruct w as [h o p l k]. unfold set_plan.
  cbn [heap objs plan log leaked] in *.
  set (pos := ptr_add (data_ v) (Z.of_nat f)).
  pose proof Hown as (Hsz & Hcap & Hoff & Hblk).
  split.
  - pose proof (erase_range_wp this v xs f f h o p l k Ho Hown ltac:(lia)) as Hwp.
    unfold wp in Hwp. fold pos in Hwp.
    destruct (vector.erase_range this pos pos _) as [res w'|w'|r0] eqn:Hrun;
      [| |exact Hwp].
    + destruct Hwp as (-> & p' & l' & ->). simpl.
      rewrite take_drop, Nat.sub_diag, Z.sub_0_r, vec_eta.
      split; [reflexivity|]. split; [|split; [apply insert_id; exact Ho|reflexivity]].
      unfold stored. destruct (blk (data_ v)) as [b|]; [|reflexivity].
      apply insert_id. apply Hblk.
    + destruct Hwp as (Hns & p' & zs & _ & ->). split; [exact Hns|].
      split; [|reflexivity].
      destruct (decide (f < length xs)%nat) as [Hlt|Hge]; [exact Hlt|].
      assert (f = length xs) by lia. subst f.
      unfold pos in Hrun.
      rewrite (erase_tail_eq this v xs (length xs) h o p l k Ho Hown) in Hrun by lia.
      discriminate.
  - intros Hns Hlt. unfold pos.
    rewrite (erase_range_unfold this v xs f f h o [true] l k Ho Hown) by lia.
    destruct (length xs - f)%nat as [|c] eqn:Hc; [lia|].
    cbn [for_loop].
    destruct (owns_positive _ _ _ Hown) as (b & Hd & Hh); [lia|].
    destruct (lookup_lt_is_Some_2 xs f) as [x Hx]; [lia|].
    destruct (std_swap_throws b (Z.of_nat f) (Z.of_nat f) (slots xs (capacity_ v))
                x x h o l k Hns Hh ltac:(lia) ltac:(lia)) as [h' Hsw];
      try (apply slots_lookup_live; rewrite Nat2Z.id; exact Hx).
    exists (World h' o [] l k). split; [|reflexivity].
    unfold bind at 1. unfold bind at 1. unfold vector.erase_swap.
    erewrite bind_Ret by (apply data_eq; eauto).
    rewrite Hd. unfold ptr_add. simpl. rewrite !Z.add_0_l, Z.add_0_r.
    rewrite wrap_small by lia.
    rewrite Hsw. reflexivity.
Qed.

(** X18. [insert(end(), value)] swaps nothing: it does what
    [push_back(value)] does, whether it returns or throws, and its
    result is [end() - 1], the position of the new last element. *)
Theorem insert_at_end_is_push_back (fuel : nat) (this : nat) v xs (r : cref T) x w :
  objs w !! this = Some v -> owns (heap w) v xs ->
  refers (heap w) r = Some x -> 2 * capacity_ v + 1 < SIZE_MOD ->
  vector.insert (S fuel) this (ptr_add (data_ v) (Z.of_nat (length xs))) r w
  = (vector.push_back_lvalue (S fuel) this r ;;
     e <- vector.end_ this ;;
     ret (ptr_add e (-1))) w.
Proof.
  intros Ho Hown Hr Hbound. destruct w as [h o p l k]. simpl in *.
  pose proof Hown as (Hsz & Hcap & Hoff & _).
  unfold vector.insert.
  erewrite bind_Ret by (apply begin_eq; eauto).
  unfold ptr_diff at 1. rewrite bool_decide_eq_true_2 by reflexivity.
  erewrite bind_Ret by reflexivity.
  unfold ptr_add at 1. simpl.
  replace (off (data_ v) + Z.of_nat (length xs) - off (data_ v))
    with (Z.of_nat (length xs)) by lia.
  rewrite wrap_small by lia.
  pose proof (push_back_lvalue_wp fuel this v xs r x h o p l k Ho Hown Hr Hbound) as Hwp.
  unfold wp in Hwp. apply bind_cong. intros [] w1 Hrun. rewrite Hrun in Hwp.
  destruct Hwp as (p1 & l1 & h1 & v1 & Hg & ->).
  destruct (grown_block _ _ _ _ _ _ Hown Hg) as (b & Hd & Hh1 & Hsz1 & Hcap1 & _).
  erewrite bind_Ret by (apply end_eq; apply lookup_insert_eq).
  erewrite bind_Ret by (apply data_eq; apply lookup_insert_eq).
  erewrite (bind_Ret (vector.end_ this)) by (apply end_eq; apply lookup_insert_eq).
  rewrite Hd. unfold ptr_add. cbn [blk off]. rewrite !Z.add_0_l.
  replace (size_ v1 + -1) with (Z.of_nat (length xs)) by lia.
  cbn [vector.insert_loop]. rewrite bool_decide_eq_true_2 by reflexivity.
  erewrite bind_Ret by reflexivity.
  erewrite bind_Ret by (apply data_eq; apply lookup_insert_eq).
  rewrite Hd. simpl. rewrite Z.add_0_l. reflexivity.
Qed.

(** X19. [insert] before the end has the basic guarantee, not the strong
    one, when the swap of the element type can throw.  When [insert]
    throws, either nothing has changed (the copy of the value or the
    growth threw), or the swap of the element type can throw and a swap
    of the loop did: the vector is then well formed and holds one
    element more than before.  The second case happens: with spare
    capacity and a swap that can throw, some plan of faults makes
    [insert] throw with the size grown by one. *)
Theorem insert_basic_guarantee (fuel : nat) (this : nat) v xs (idx : nat)
    (r : cref T) x w :
  objs w !! this = Some v -> owns (heap w) v xs -> (idx <= length xs)%nat ->
  refers (heap w) r = Some x -> 2 * capacity_ v + 1 < SIZE_MOD ->
  match vector.insert (S fuel) this (ptr_add (data_ v) (Z.of_nat idx)) r w with
  | Ret _ _ => True
  | Throw w' =>
      (heap w' = heap w /\ objs w' = objs w) \/
      (nothrow_swap = false /\ exists v' zs,
         objs w' = <[this := v']> (objs w) /\ owns (heap w') v' zs /\
         length zs = S (length xs) /\ size_ v' = size_ v + 1)
  | Abort _ => False
  end /\
  (nothrow_swap = false -> (idx < length xs)%nat -> size_ v < capacity_ v ->
   exists faults w' v',
     vector.insert (S fuel) this (ptr_add (data_ v) (Z.of_nat idx)) r (set_plan faults w)
     = Throw w' /\
     objs w' !! this = Some v' /\ size_ v' = size_ v + 1).
Proof.
  intros Ho Hown Hidx Hr Hbound. destruct w as [h o p l k]. unfold set_plan.
  cbn [heap objs plan log leaked] in *.
  pose proof Hown as (Hsz & Hcap & Hoff & _).
  split.
  - pose proof (insert_wp fuel this v xs idx r x h o p l k Ho Hown Hidx Hr Hbound) as Hwp.
    unfold wp in Hwp.
    destruct (vector.insert _ _ _ _ _) as [res w'|w'|r0]; [exact I| |exact Hwp].
    destruct Hwp as [(p' & l' & ->)|(Hns & p' & l' & h' & v' & zs & Hzl & Hg & ->)].
    + left. split; reflexivity.
    + right. split; [exact Hns|]. exists v', zs. simpl.
      split; [reflexivity|]. split; [eapply owns_grown; eauto|].
      split; [exact Hzl|]. eapply grown_size; eauto.
  - intros Hns Hlt Hspare.
    assert (Hown_swap : own_swap = false /\ nothrow_move && nothrow_move_assign = false).
    { unfold nothrow_swap in Hns. apply orb_false_iff in Hns. exact Hns. }
    destruct Hown_swap as [Hos Hmv].
    destruct (owns_spare _ _ _ Hown Hspare) as (b & Hd & Hh).
    destruct v as [d sz cap]. simpl in *. subst d.
    destruct (lookup_lt_is_Some_2 xs (length xs - 1)) as [a Ha]; [lia|].
    set (h1 := <[b := slots (xs ++ [x]) cap]> h).
    set (o1 := <[this := Vec (Ptr (Some b) 0) (sz + 1) cap]> o).
    set (l1 := l ++ [EvConstruct b (length xs)]).
    destruct (std_swap_throws b (Z.of_nat (length xs)) (Z.of_nat (length xs) + -1)
                (slots (xs ++ [x]) cap) x a h1 o1 l1 k Hmv)
      as [h' Hsw]; [apply lookup_insert_eq|lia|lia| | |].
    { apply slots_lookup_live. rewrite Nat2Z.id.
      rewrite lookup_app_r by lia. rewrite Nat.sub_diag. reflexivity. }
    { apply slots_lookup_live.
      replace (Z.to_nat (Z.of_nat (length xs) + -1)) with (length xs - 1)%nat by lia.
      rewrite lookup_app_l by lia. exact Ha. }
    exists (false :: (if nothrow_move then [true] else [false; true])),
           (World h' o1 [] l1 k), (Vec (Ptr (Some b) 0) (sz + 1) cap).
    split; [|split; [apply lookup_insert_eq|reflexivity]].
    unfold vector.insert.
    erewrite bind_Ret by (apply begin_eq; eauto).
    unfold ptr_diff at 1. rewrite bool_decide_eq_true_2 by reflexivity.
    erewrite bind_Ret by reflexivity.
    unfold ptr_add at 1. simpl.
    replace (0 + Z.of_nat idx - 0) with (Z.of_nat idx) by lia.
    rewrite wrap_small by lia.
    erewrite bind_Ret; cycle 1.
    { unfold vector.push_back_lvalue. unfold bind at 1.
      rewrite (copy_T_eq r x) by exact Hr. cbn [fires tail].
      erewrite push_back_spare_eq by (eassumption || lia).
      assert (Hnf : negb nothrow_move
                    && fires (if nothrow_move then [true] else [false; true]) = false)
        by (destruct nothrow_move; reflexivity).
      rewrite Hnf. reflexivity. }
    replace (if nothrow_move then if nothrow_move then [true] else [false; true]
             else tail (if nothrow_move then [true] else [false; true]))
      with [true] by (destruct nothrow_move; reflexivity).
    fold h1 o1 l1.
    erewrite bind_Ret by (apply end_eq; apply lookup_insert_eq).
    erewrite bind_Ret by (apply data_eq; apply lookup_insert_eq).
    unfold ptr_add. cbn [blk off data_ size_]. rewrite !Z.add_0_l.
    replace (sz + 1 + -1) with (Z.of_nat (length xs)) by lia.
    cbn [vector.insert_loop].
    rewrite bool_decide_eq_false_2 by (intros Heq; injection Heq; lia).
    unfold bind at 1. unfold bind at 1. unfold ptr_add. cbn [blk off].
    unfold iter_swap. rewrite Hos. rewrite Hsw. reflexivity.
Qed.

(** X20. [push_back] followed by [pop_back] gives the elements back: when
    both return the vector holds the elements it held, with the size it
    had; with spare capacity the object and the heap are exactly as
    before, otherwise the capacity has grown.  When [push_back] throws
    nothing has changed.  Without injected faults the two calls
    return. *)
Theorem push_pop_round_trip (fuel this : nat) v xs (value : T) w :
  objs w !! this = Some v -> owns (heap w) v xs ->
  2 * capacity_ v + 1 < SIZE_MOD ->
  match (vector.push_back (S fuel) this value ;; vector.pop_back this) w with
  | Ret _ w' =>
      exists v', objs w' = <[this := v']> (objs w) /\ owns (heap w') v' xs /\
        size_ v' = size_ v /\ leaked w' = leaked w /\
        (size_ v < capacity_ v -> v' = v /\ heap w' = heap w /\ objs w' = objs w)
  | Throw w' => heap w' = heap w /\ objs w' = objs w /\ leaked w' = leaked w
  | Abort _ => False
  end /\
  (fault_free w ->
   exists w', (vector.push_back (S fuel) this value ;; vector.pop_back this) w
              = Ret tt w').
Proof.
  intros Ho Hown Hbound. destruct w as [h o p l k].
  cbn [heap objs plan log leaked] in *.
  pose proof Hown as (Hsz & Hcap & _).
  assert (Hwp : wp (vector.push_back (S fuel) this value ;; vector.pop_back this)
                  (World h o p l k)
                  (fun _ w' => exists v', objs w' = <[this := v']> o /\
                     owns (heap w') v' xs /\ size_ v' = size_ v /\ leaked w' = k /\
                     (size_ v < capacity_ v -> v' = v /\ heap w' = h /\ objs w' = o))
                  (fun w' => heap w' = h /\ objs w' = o /\ leaked w' = k)).
  { apply wp_bind. eapply wp_mono; [apply push_back_wp with (xs := xs); eauto| |].
    - intros [] w1 (p1 & l1 & h1 & v1 & Hg & ->).
      assert (Hown1 : owns h1 v1 (xs ++ [value])).
      { eapply owns_grown; eauto. rewrite length_app. simpl. lia. }
      pose proof (grown_size _ _ _ _ _ Hg) as Hsz1.
      pose proof Hown1 as (_ & Hc1 & _).
      eapply wp_eq; [eapply pop_back_stored_eq; [apply lookup_insert_eq|exact Hown1]|].
      simpl. eexists. split; [apply insert_insert_eq|].
      split; [eapply owns_stored; eauto; lia|].
      split; [simpl; lia|]. split; [reflexivity|].
      intros Hlt. destruct Hg as [(_ & -> & ->)|(Hfull & _)]; [|lia]. simpl.
      replace (size_ v + 1 - 1) with (size_ v) by lia. rewrite vec_eta.
      assert (Hh : stored (stored h v (xs ++ [value])) v xs = h).
      { unfold stored. destruct (blk (data_ v)) as [b|] eqn:Hb; [|reflexivity].
        rewrite insert_insert_eq. apply insert_id.
        destruct Hown as (_ & _ & _ & Hblk). rewrite Hb in Hblk. apply Hblk. }
      split; [reflexivity|]. split.
      + unfold stored at 1. simpl. exact Hh.
      + rewrite insert_insert_eq. apply insert_id. exact Ho.
    - intros w1 (p1 & l1 & ->). simpl. auto. }
  split.
  - unfold wp in Hwp.
    destruct ((vector.push_back (S fuel) this value ;; vector.pop_back this) _)
      as [[] w'|w'|r0]; exact Hwp.
  - intros Hff.
    assert (Hq : quiet (T := T)
                   (vector.push_back (S fuel) this value ;; vector.pop_back this)).
    { apply quiet_bind; [apply quiet_push_back|].
      intros _. apply silent_quiet, silent_pop_back. }
    destruct (wp_quiet_returns _ _ _ _ Hwp Hq Hff) as ([] & w' & Hrun). eauto.
Qed.

(** X21. [insert] followed by [erase] at the position it returned gives the
    elements back: when both return the vector holds the elements it
    held, in the same order and with the same size, and the result of
    [erase] is the position of the insertion in the storage the vector
    has now.  With an element type whose moves do not throw, an
    exception leaves the heap and the object as they were.  Without
    injected faults the two calls return. *)
Theorem insert_erase_round_trip (fuel this : nat) v xs (idx : nat) (r : cref T) x w :
  objs w !! this = Some v -> owns (heap w) v xs -> (idx <= length xs)%nat ->
  refers (heap w) r = Some x -> 2 * capacity_ v + 1 < SIZE_MOD ->
  match (pos <- vector.insert (S fuel) this (ptr_add (data_ v) (Z.of_nat idx)) r ;;
         vector.erase this pos) w with
  | Ret res w' =>
      exists v', objs w' = <[this := v']> (objs w) /\ owns (heap w') v' xs /\
        size_ v' = size_ v /\ res = ptr_add (data_ v') (Z.of_nat idx) /\
        leaked w' = leaked w
  | Throw w' =>
      nothrow_move && nothrow_move_assign = false \/
      (heap w' = heap w /\ objs w' = objs w)
  | Abort _ => False
  end /\
  (fault_free w ->
   exists res w',
     (pos <- vector.insert (S fuel) this (ptr_add (data_ v) (Z.of_nat idx)) r ;;
      vector.erase this pos) w = Ret res w').
Proof.
  intros Ho Hown Hidx Hr Hbound. destruct w as [h o p l k].
  cbn [heap objs plan log leaked] in *.
  pose proof Hown as (Hsz & Hcap & _).
  assert (Hwp : wp (pos <- vector.insert (S fuel) this
                              (ptr_add (data_ v) (Z.of_nat idx)) r ;;
                    vector.erase this pos)
                  (World h o p l k)
                  (fun res w' => exists v', objs w' = <[this := v']> o /\
                     owns (heap w') v' xs /\ size_ v' = size_ v /\
                     res = ptr_add (data_ v') (Z.of_nat idx) /\ leaked w' = k)
                  (fun w' => nothrow_move && nothrow_move_assign = false \/
                             (heap w' = h /\ objs w' = o))).
  { apply wp_bind.
    eapply wp_mono; [apply insert_wp with (xs := xs) (x := x); eauto| |].
    - intros res w1 (p1 & l1 & h1 & v1 & Hg & -> & ->).
      set (zs := take idx xs ++ x :: drop idx xs) in *.
      assert (Hzl : length zs = S (length xs)).
      { unfold zs. rewrite length_app, length_take. simpl. rewrite length_drop. lia. }
      assert (Hown1 : owns h1 v1 zs) by (eapply owns_grown; eauto).
      pose proof (grown_size _ _ _ _ _ Hg) as Hsz1.
      pose proof Hown1 as (_ & Hc1 & _).
      eapply wp_mono;
        [apply erase_wp with (xs := zs); [apply lookup_insert_eq|exact Hown1|lia]| |].
      + intros res' w2 (-> & p2 & l2 & ->). simpl.
        unfold zs. rewrite insert_then_erase_list by exact Hidx.
        eexists. split; [apply insert_insert_eq|].
        split; [eapply owns_stored; eauto; lia|].
        split; [simpl; lia|]. split; reflexivity.
      + intros w2 (Hns & _). left. exact Hns.
    - intros w1 [(p1 & l1 & ->)|(Hns & _)]; [right; simpl; auto|left].
      unfold nothrow_swap in Hns. apply orb_false_iff in Hns. apply Hns. }
  split.
  - unfold wp in Hwp.
    destruct ((pos <- vector.insert _ _ _ _ ;; vector.erase this pos) _)
      as [res w'|w'|r0]; exact Hwp.
  - intros Hff.
    assert (Hq : quiet (T := T)
                   (pos <- vector.insert (S fuel) this
                             (ptr_add (data_ v) (Z.of_nat idx)) r ;;
                    vector.erase this pos)).
    { apply quiet_bind; [apply quiet_insert|].
      intros pos. apply quiet_erase_range. }
    destruct (wp_quiet_returns _ _ _ _ Hwp Hq Hff) as (res & w' & Hrun). eauto.
Qed.

(** X22. No call of a public operation within its contract loses storage or
    elements, whether it returns or throws: when the vectors are well
    formed and every block of the heap is the storage of one of them
    before the call, the same holds after it, and no block has been
    released with live elements in it.  Hence once every vector is
    destroyed the heap is empty. *)
Theorem no_leak_step (fuel : nat) (c : call T) w :
  consistent_world w -> no_orphans w -> pre c w ->
  match run (S fuel) c w with
  | Ret _ w' | Throw w' =>
      consistent_world w' /\ no_orphans w' /\ leaked w' = leaked w /\
      (objs w' = ∅ -> heap w' = ∅)
  | Abort _ => False
  end.
Proof.
  intros Hc Ht Hpre. destruct w as [h o p l k].
  pose proof (run_tight fuel c h o p l k Hc Ht Hpre) as Hwp.
  pose proof (run_consistent fuel c h o p l k Hc Hpre) as Hwc.
  assert (Hempty : forall w' : world T, no_orphans w' -> objs w' = ∅ -> heap w' = ∅).
  { intros w' Hw' Ho. apply map_empty. intros b.
    destruct (heap w' !! b) as [s|] eqn:Hb; [|reflexivity].
    destruct (Hw' b (mk_is_Some _ _ Hb)) as (t & u & Hu & _).
    rewrite Ho, lookup_empty in Hu. discriminate. }
  unfold wp in Hwp, Hwc. cbn [leaked].
  destruct (run (S fuel) c _) as [[] w'|w'|r0]; [| |exact Hwp];
    destruct Hwp as [Hn Hk]; auto.
Qed.
(** X23. With an element type whose move constructor and move
    assignment cannot throw, [erase] on a valid range, and [erase] of a
    valid position, always return, whatever faults are planned: the
    elements of the range are gone, the others keep their order, and
    the capacity and the data pointer of the container are unchanged. *)
Theorem erase_returns_with_nothrow_moves (this : nat) v xs (f e : nat) w :
  nothrow_move = true -> nothrow_move_assign = true ->
  objs w !! this = Some v -> owns (heap w) v xs ->
  (f <= e <= length xs)%nat ->
  (exists res w' v',
     vector.erase_range this (ptr_add (data_ v) (Z.of_nat f))
                        (ptr_add (data_ v) (Z.of_nat e)) w = Ret res w' /\
     objs w' !! this = Some v' /\ owns (heap w') v' (take f xs ++ drop e xs) /\
     capacity_ v' = capacity_ v /\ data_ v' = data_ v) /\
  ((f < length xs)%nat ->
   exists res w' v',
     vector.erase this (ptr_add (data_ v) (Z.of_nat f)) w = Ret res w' /\
     objs w' !! this = Some v' /\ owns (heap w') v' (take f xs ++ drop (S f) xs) /\
     capacity_ v' = capacity_ v /\ data_ v' = data_ v).
Proof.
  intros Hmc Hma Ho Hxs Hfe. destruct w as [h o p l k]. simpl in *.
  pose proof Hxs as (Hsz & Hcap & _).
  split.
  - pose proof (erase_range_wp this v xs f e h o p l k Ho Hxs Hfe) as Hwp.
    unfold wp in Hwp.
    destruct (vector.erase_range _ _ _ _) as [res w'|w'|r0]; [| |contradiction].
    + destruct Hwp as (_ & p' & l' & ->). eexists res, _, _.
      split; [reflexivity|]. simpl. split; [apply lookup_insert_eq|].
      split; [|split; reflexivity].
      eapply owns_stored; eauto; [rewrite length_app, length_take, length_drop|]; lia.
    + destruct Hwp as (Hfalse & _). rewrite Hmc, Hma in Hfalse. discriminate.
  - intros Hf.
    pose proof (erase_wp this v xs f h o p l k Ho Hxs Hf) as Hwp.
    unfold wp in Hwp.
    destruct (vector.erase _ _ _) as [res w'|w'|r0]; [| |contradiction].
    + destruct Hwp as (_ & p' & l' & ->). eexists res, _, _.
      split; [reflexivity|]. simpl. split; [apply lookup_insert_eq|].
      split; [|split; reflexivity].
      eapply owns_stored; eauto; [rewrite length_app, length_take, length_drop|]; lia.
    + destruct Hwp as (Hfalse & _). rewrite Hmc, Hma in Hfalse. discriminate.
Qed.
End Further.

(** ** The claims on concrete vectors *)

Lemma owns_full_vec plan : owns (heap (full_world plan)) full_vec [10; 20].
Proof.
  unfold owns. simpl. split; [reflexivity|]. split; [split; [lia|reflexivity]|].
  split; [reflexivity|]. split; [lia|]. reflexivity.
Defined.

Lemma owns_spare_vec : owns (heap spare_world) spare_vec [10; 20; 30].
Proof.
  unfold owns. simpl. split; [reflexivity|]. split; [split; [lia|reflexivity]|].
  split; [reflexivity|]. split; [lia|]. reflexivity.
Defined.

Lemma push_back_strong_guarantee_witness :
  objs (full_world []) !! 0%nat = Some full_vec /\
  owns (heap (full_world [])) full_vec [10; 20] /\
  match vector.push_back_lvalue (H := Z_element) 1 0%nat
          (RefSlot (ptr_add (data_ full_vec) (Z.of_nat 0))) (full_world []) with
  | Ret _ w' =>
      exists v', objs w' = <[0%nat := v']> (objs (full_world [])) /\
                 owns (heap w') v' ([10; 20] ++ [10]) /\
                 ([10; 20] ++ [10]) !! length [10; 20] = Some 10 /\
                 size_ v' = size_ full_vec + 1 /\
                 leaked w' = leaked (full_world [])
  | Throw w' => heap w' = heap (full_world []) /\ objs w' = objs (full_world []) /\
                leaked w' = leaked (full_world [])
  | Abort _ => False
  end.
Proof.
  split; [reflexivity|]. split; [apply owns_full_vec|].
  apply (push_back_strong_guarantee (H := Z_element) 0 0 full_vec [10; 20]
           (RefSlot (ptr_add (data_ full_vec) (Z.of_nat 0))) 10 (full_world [])).
  - reflexivity.
  - apply owns_full_vec.
  - reflexivity.
  - right. exists 0%nat. split; reflexivity.
Defined.

Lemma push_back_growth_witness :
  owns (heap (full_world [])) full_vec [10; 20] /\
  size_ full_vec = capacity_ full_vec /\
  exists w' v',
    vector.push_back (H := Z_element) 1 0%nat 7 (full_world []) = Ret tt w' /\
    objs w' !! 0%nat = Some v' /\ capacity_ v' = 5.
Proof.
  split; [apply owns_full_vec|]. split; [reflexivity|].
  destruct (push_back_growth (H := Z_element) 0 0%nat full_vec [10; 20] 7 (full_world []))
    as [Hm Hret]; [reflexivity|apply owns_full_vec|reflexivity|reflexivity|].
  destruct Hret as [w' Hrun]; [constructor|].
  rewrite Hrun in Hm. destruct Hm as (v' & Hv' & _ & Hcap & _).
  exists w', v'. split; [exact Hrun|]. split; [exact Hv'|exact Hcap].
Defined.

Lemma copy_constructor_exact_witness :
  objs (full_world []) !! 0%nat = Some full_vec /\
  exists this w' v',
    vector.declare (fun this => vector.vector_copy this 0%nat) (full_world [])
    = Ret this w' /\
    objs w' !! this = Some v' /\ owns (heap w') v' [10; 20] /\
    size_ v' = 2 /\ capacity_ v' = 2.
Proof.
  split; [reflexivity|].
  destruct (copy_constructor_exact 0%nat full_vec [10; 20] (full_world []))
    as [Hm Hret]; [reflexivity|apply owns_full_vec|].
  destruct Hret as (this & w' & Hrun); [constructor|].
  rewrite Hrun in Hm. destruct Hm as (v' & _ & Hobjs & Hown & Hsz & Hcap & _).
  exists this, w', v'. split; [exact Hrun|].
  split; [rewrite Hobjs; apply lookup_insert_eq|].
  split; [exact Hown|]. split; [exact Hsz|exact Hcap].
Defined.

Lemma copy_constructor_rollback_witness :
  (1 < length [10; 20])%nat /\
  plan (full_world [false; false; true]) !! 2%nat = Some true /\
  exists w',
    vector.declare (fun this => vector.vector_copy this 0%nat)
      (full_world [false; false; true]) = Throw w' /\
    heap w' = heap (full_world [false; false; true]) /\
    objs w' = objs (full_world [false; false; true]) /\
    leaked w' = 0%nat /\
    log w' = [EvNew 1 2; EvConstruct 1 0; EvDestroy 1 0; EvDelete 1].
Proof.
  split; [simpl; lia|]. split; [reflexivity|].
  destruct (copy_constructor_rollback 0%nat full_vec [10; 20] 1
              (full_world [false; false; true]))
    as (w' & Hrun & Hh & Ho & Hk & Hl).
  - reflexivity.
  - apply owns_full_vec.
  - simpl; lia.
  - reflexivity.
  - repeat constructor.
  - exists w'. split; [exact Hrun|]. split; [exact Hh|]. split; [exact Ho|].
    split; [exact Hk|]. rewrite Hl. vm_compute. reflexivity.
Defined.

Lemma copy_assignment_strong_witness :
  objs spare_world !! 1%nat = Some vec_default /\
  objs spare_world !! 0%nat = Some spare_vec /\
  exists w' v',
    vector.assign_copy 1%nat 0%nat spare_world = Ret tt w' /\
    objs w' !! 1%nat = Some v' /\ owns (heap w') v' [10; 20; 30] /\
    objs w' !! 0%nat = Some spare_vec /\ owns (heap w') spare_vec [10; 20; 30].
Proof.
  split; [reflexivity|]. split; [reflexivity|].
  destruct (copy_assignment_strong 1%nat 0%nat vec_default spare_vec
              [] [10; 20; 30] spare_world) as [Hm Hret].
  - reflexivity.
  - apply owns_default.
  - reflexivity.
  - apply owns_spare_vec.
  - intros _ b Hb. discriminate Hb.
  - destruct Hret as [w' Hrun]; [constructor|].
    rewrite Hrun in Hm. simpl in Hm.
    destruct Hm as (v' & Hobjs & Hown & Hsrc & Hkeep & _).
    exists w', v'. split; [exact Hrun|].
    split; [rewrite Hobjs; apply lookup_insert_eq|].
    split; [exact Hown|]. split; [exact Hsrc|exact Hkeep].
Defined.


Lemma insert_erase_order_witness :
  objs spare_world !! 0%nat = Some spare_vec /\
  (exists res w' v',
     vector.insert (H := Z_element) 1 0%nat (ptr_add (data_ spare_vec) (Z.of_nat 1))
       (RefLocal 15) spare_world = Ret res w' /\
     objs w' !! 0%nat = Some v' /\ owns (heap w') v' [10; 15; 20; 30]) /\
  (exists res w' v',
     vector.erase_range (H := Z_element) 0%nat (ptr_add (data_ spare_vec) (Z.of_nat 0))
       (ptr_add (data_ spare_vec) (Z.of_nat 2)) spare_world = Ret res w' /\
     objs w' !! 0%nat = Some v' /\ owns (heap w') v' [30] /\ size_ v' = 1).
Proof.
  split; [reflexivity|].
  destruct (insert_erase_order (H := Z_element) 0 0%nat spare_vec [10; 20; 30] spare_world)
    as [Hins Her]; [reflexivity|apply owns_spare_vec|].
  split.
  - destruct (Hins 1%nat (RefLocal 15) 15) as [Hm Hret];
      [simpl; lia|reflexivity|reflexivity|].
    destruct Hret as (res & w' & Hrun); [constructor|].
    rewrite Hrun in Hm. destruct Hm as (v' & zs & Hobjs & Hown & _ & -> & _).
    exists res, w', v'. split; [exact Hrun|].
    split; [rewrite Hobjs; apply lookup_insert_eq|exact Hown].
  - destruct (Her 0%nat 2%nat) as [Hm Hret]; [simpl; lia|].
    destruct Hret as (res & w' & Hrun); [constructor|].
    rewrite Hrun in Hm. destruct Hm as (v' & zs & Hobjs & Hown & Hsz & -> & _).
    exists res, w', v'. split; [exact Hrun|].
    split; [rewrite Hobjs; apply lookup_insert_eq|]. split; [exact Hown|exact Hsz].
Defined.

Lemma reachable_invariant_witness :
  reachable (H := Z_element) pushed_world /\
  (exists v, objs pushed_world !! 0%nat = Some v /\
             size_ v <= capacity_ v /\
             (capacity_ v = 0 -> data_ v = nullptr /\ size_ v = 0)) /\
  pre (H := Z_element) (Reserve 0%nat 10) pushed_world /\
  (exists w', (run (H := Z_element) 1 (Reserve 0%nat 10) pushed_world = Ret tt w' \/
               run (H := Z_element) 1 (Reserve 0%nat 10) pushed_world = Throw w') /\
              reachable (H := Z_element) w').
Proof.
  assert (Hr : reachable (H := Z_element) pushed_world).
  { apply (reach_return (H := Z_element) declared_world 0 (Push_back 0%nat 7)).
    - apply (reach_return (H := Z_element) start_world 0 Declare_default).
      + apply reach_start.
      + exact I.
      + vm_compute. reflexivity.
    - exists vec_default. split; [vm_compute; reflexivity|]. split; reflexivity.
    - vm_compute. reflexivity. }
  split; [exact Hr|].
  destruct (reachable_invariant (H := Z_element) pushed_world Hr) as [Hinv Hnext].
  split.
  - assert (Hv : exists v, objs pushed_world !! 0%nat = Some v).
    { eexists. vm_compute. reflexivity. }
    destruct Hv as [v Hv]. exists v. split; [exact Hv|]. apply (Hinv 0%nat v Hv).
  - assert (Hpre : pre (H := Z_element) (Reserve 0%nat 10) pushed_world).
    { split; [eexists; vm_compute; reflexivity|].
      split; [split; [lia|reflexivity]|reflexivity]. }
    split; [exact Hpre|]. apply (Hnext 0%nat (Reserve 0%nat 10) Hpre).
Defined.

Lemma insert_erase_result_witness :
  objs spare_world !! 0%nat = Some spare_vec /\
  (exists res w' v',
     vector.insert (H := Z_element) 1 0%nat (ptr_add (data_ spare_vec) (Z.of_nat 1))
       (RefLocal 15) spare_world = Ret res w' /\
     objs w' !! 0%nat = Some v' /\
     res = ptr_add (data_ v') 1 /\ deref (heap w') res = Some 15) /\
  (exists res w' v',
     vector.erase (H := Z_element) 0%nat (ptr_add (data_ spare_vec) (Z.of_nat 1))
       spare_world = Ret res w' /\
     objs w' !! 0%nat = Some v' /\
     res = ptr_add (data_ v') 1 /\ deref (heap w') res = Some 30).
Proof.
  split; [reflexivity|].
  destruct (insert_erase_result (H := Z_element) 0 0%nat spare_vec [10; 20; 30] spare_world)
    as (Hins & _ & Her); [reflexivity|apply owns_spare_vec|].
  split.
  - destruct (Hins 1%nat (RefLocal 15) 15) as [Hm Hret];
      [simpl; lia|reflexivity|reflexivity|].
    destruct Hret as (res & w' & Hrun); [constructor|].
    rewrite Hrun in Hm. destruct Hm as (v' & Hv' & Hres & Hd).
    exists res, w', v'. auto.
  - destruct (Her 1%nat) as [Hm Hret]; [simpl; lia|].
    destruct Hret as (res & w' & Hrun); [constructor|].
    rewrite Hrun in Hm. destruct Hm as (v' & Hv' & Hres & Hd & _).
    exists res, w', v'. split; [exact Hrun|]. split; [exact Hv'|].
    split; [exact Hres|]. apply Hd. simpl. lia.
Defined.

(** ** The further properties on concrete vectors *)

Lemma pop_back_removes_last_witness :
  objs spare_world !! 0%nat = Some spare_vec /\
  owns (heap spare_world) spare_vec ([10; 20] ++ [30]) /\
  exists w',
    vector.pop_back 0%nat spare_world = Ret tt w' /\
    objs w' !! 0%nat = Some (Vec (Ptr (Some 0%nat) 0) 2 4) /\
    owns (heap w') (Vec (Ptr (Some 0%nat) 0) 2 4) [10; 20] /\
    log w' = [EvDestroy 0 2].
Proof.
  split; [reflexivity|]. split; [apply owns_spare_vec|].
  destruct (pop_back_removes_last 0%nat spare_vec [10; 20] 30 spare_world)
    as (b & Hb & Hrun & Hown); [reflexivity|apply owns_spare_vec|].
  injection Hb as <-.
  eexists. split; [exact Hrun|]. split; [apply lookup_insert_eq|].
  split; [exact Hown|reflexivity].
Defined.

Lemma pop_back_empty_undefined_witness :
  objs spare_world !! 1%nat = Some vec_default /\
  owns (heap spare_world) vec_default [] /\
  vector.pop_back 1%nat spare_world = Abort BadPointer.
Proof.
  split; [reflexivity|]. split; [apply owns_default|].
  apply (pop_back_empty_undefined 1%nat vec_default spare_world).
  - reflexivity.
  - apply owns_default.
Defined.

Lemma clear_destroys_all_witness :
  objs spare_world !! 0%nat = Some spare_vec /\
  exists w',
    vector.clear 0%nat spare_world = Ret tt w' /\
    objs w' !! 0%nat = Some (Vec (Ptr (Some 0%nat) 0) 0 4) /\
    heap w' !! 0%nat = Some [None; None; None; None] /\
    log w' = [EvDestroy 0 2; EvDestroy 0 1; EvDestroy 0 0].
Proof.
  split; [reflexivity|].
  destruct (clear_destroys_all 0%nat spare_vec [10; 20; 30] spare_world)
    as (Hrun & Hown & Hraw); [reflexivity|apply owns_spare_vec|].
  eexists. split; [exact Hrun|]. split; [apply lookup_insert_eq|].
  split; [apply (Hraw 0%nat); reflexivity|reflexivity].
Defined.

Lemma destructor_releases_witness :
  objs spare_world !! 0%nat = Some spare_vec /\
  exists w',
    vector.destructor 0%nat spare_world = Ret tt w' /\
    objs w' !! 0%nat = Some (Vec nullptr 0 4) /\
    heap w' !! 0%nat = None /\ leaked w' = 0%nat /\
    log w' = [EvDestroy 0 2; EvDestroy 0 1; EvDestroy 0 0; EvDelete 0].
Proof.
  split; [reflexivity|].
  destruct (destructor_releases 0%nat spare_vec [10; 20; 30] spare_world)
    as (Hrun & Hgone & _); [reflexivity|apply owns_spare_vec|].
  eexists. split; [exact Hrun|]. split; [apply lookup_insert_eq|].
  split; [apply (Hgone 0%nat); reflexivity|]. split; reflexivity.
Defined.

Lemma swap_exchanges_witness :
  objs spare_world !! 0%nat = Some spare_vec /\
  objs spare_world !! 1%nat = Some vec_default /\
  exists w',
    vector.swap 0%nat 1%nat spare_world = Ret tt w' /\
    objs w' !! 0%nat = Some vec_default /\ objs w' !! 1%nat = Some spare_vec /\
    heap w' = heap spare_world /\
    vector.swap 0%nat 1%nat w' = Ret tt spare_world.
Proof.
  split; [reflexivity|]. split; [reflexivity|].
  destruct (swap_exchanges 0%nat 1%nat spare_vec vec_default spare_world)
    as (Hrun & Htwice & _); [reflexivity|reflexivity|].
  eexists. split; [exact Hrun|].
  split; [reflexivity|]. split; [reflexivity|]. split; [reflexivity|].
  unfold bind in Htwice. rewrite Hrun in Htwice. exact Htwice.
Defined.

Lemma move_constructor_takes_over_witness :
  objs spare_world !! 0%nat = Some spare_vec /\
  exists this w',
    vector.declare (fun this => vector.vector_move this 0%nat) spare_world
    = Ret this w' /\
    objs spare_world !! this = None /\
    objs w' !! this = Some spare_vec /\ objs w' !! 0%nat = Some vec_default /\
    heap w' = heap spare_world /\ log w' = [].
Proof.
  split; [reflexivity|].
  destruct (move_constructor_takes_over 0%nat spare_vec spare_world)
    as (Hrun & Hfresh); [reflexivity|].
  eexists _, _. split; [exact Hrun|]. split; [exact Hfresh|].
  split; [apply lookup_insert_eq|]. split; [reflexivity|]. split; reflexivity.
Defined.

Lemma owns_pair_world :
  owns (heap pair_world) spare_vec [10; 20; 30] /\
  owns (heap pair_world) short_vec [7; 8].
Proof.
  split; unfold owns; simpl.
  - split; [reflexivity|]. split; [split; [lia|reflexivity]|].
    split; [reflexivity|]. split; [lia|]. reflexivity.
  - split; [reflexivity|]. split; [split; [lia|reflexivity]|].
    split; [reflexivity|]. split; [lia|]. reflexivity.
Defined.

Lemma move_assignment_transfers_witness :
  objs pair_world !! 0%nat = Some spare_vec /\
  objs pair_world !! 1%nat = Some short_vec /\
  vector.assign_move 0%nat 0%nat pair_world = Ret tt pair_world /\
  exists w',
    vector.assign_move 1%nat 0%nat pair_world = Ret tt w' /\
    objs w' !! 1%nat = Some spare_vec /\ objs w' !! 0%nat = Some vec_default /\
    owns (heap w') spare_vec [10; 20; 30] /\ heap w' !! 1%nat = None /\
    log w' = [EvDestroy 1 1; EvDestroy 1 0; EvDelete 1].
Proof.
  split; [reflexivity|]. split; [reflexivity|].
  destruct owns_pair_world as [Hspare Hshort].
  split.
  - destruct (move_assignment_transfers 0%nat 0%nat spare_vec spare_vec
                [10; 20; 30] [10; 20; 30] pair_world) as (Hself & _).
    + reflexivity.
    + exact Hspare.
    + reflexivity.
    + exact Hspare.
    + intros Hne. contradiction Hne. reflexivity.
    + apply Hself. reflexivity.
  - destruct (move_assignment_transfers 1%nat 0%nat short_vec spare_vec
                [7; 8] [10; 20; 30] pair_world) as (_ & Hmove).
    + reflexivity.
    + exact Hshort.
    + reflexivity.
    + exact Hspare.
    + intros _ b Hb Hc. simpl in Hb, Hc. congruence.
    + destruct Hmove as (Hrun & Hown); [discriminate|].
      eexists. split; [exact Hrun|]. split; [reflexivity|]. split; [reflexivity|].
      split; [exact Hown|]. split; reflexivity.
Defined.

Lemma element_access_witness :
  objs spare_world !! 0%nat = Some spare_vec /\
  (exists q, vector.subscript 0%nat 1 spare_world = Ret q spare_world /\
             deref (heap spare_world) q = Some 20) /\
  (exists q, vector.subscript 0%nat 3 spare_world = Ret q spare_world /\
             deref (heap spare_world) q = None) /\
  (exists q, vector.front 0%nat spare_world = Ret q spare_world /\
             deref (heap spare_world) q = Some 10) /\
  (exists q, vector.back 0%nat spare_world = Ret q spare_world /\
             deref (heap spare_world) q = Some 30).
Proof.
  split; [reflexivity|].
  destruct (element_access 0%nat spare_vec [10; 20; 30] spare_world)
    as (Hsub & Hfront & Hback); [reflexivity|apply owns_spare_vec|].
  split; [exact (Hsub 1%nat)|]. split; [exact (Hsub 3%nat)|].
  split; [exact Hfront|exact Hback].
Defined.

Lemma iterator_range_witness :
  objs spare_world !! 0%nat = Some spare_vec /\
  vector.size 0%nat spare_world = Ret 3 spare_world /\
  vector.empty 0%nat spare_world = Ret false spare_world /\
  (e <- vector.end_ 0%nat ;; b <- vector.begin 0%nat ;; ptr_diff e b) spare_world
  = Ret 3 spare_world.
Proof.
  split; [reflexivity|].
  destruct (iterator_range 0%nat spare_vec [10; 20; 30] spare_world)
    as (Hsize & Hempty & _ & _ & _ & _ & Hdiff & _);
    [reflexivity|apply owns_spare_vec|].
  split; [exact Hsize|]. split; [exact Hempty|exact Hdiff].
Defined.

Lemma push_back_in_place_witness :
  objs spare_world !! 0%nat = Some spare_vec /\
  size_ spare_vec < capacity_ spare_vec /\
  exists w',
    vector.push_back (H := Z_element) 0 0%nat 40 spare_world = Ret tt w' /\
    objs w' !! 0%nat = Some (Vec (Ptr (Some 0%nat) 0) 4 4) /\
    heap w' !! 0%nat = Some [Some 10; Some 20; Some 30; Some 40] /\
    log w' = [EvConstruct 0 3].
Proof.
  split; [reflexivity|]. split; [reflexivity|].
  destruct (push_back_in_place (H := Z_element) 0 0%nat spare_vec [10; 20; 30] 40
              spare_world) as (b & Hb & Hrun & _);
    [reflexivity|apply owns_spare_vec|reflexivity|].
  injection Hb as <-.
  eexists. split; [exact Hrun|]. split; [apply lookup_insert_eq|].
  split; [apply lookup_insert_eq|reflexivity].
Defined.

Lemma push_back_all_within_capacity_witness :
  objs spare_world !! 0%nat = Some spare_vec /\
  Z.of_nat (length [10; 20; 30] + length [40]) <= capacity_ spare_vec /\
  exists w',
    push_back_all (H := Z_element) 0 0%nat [40] spare_world = Ret tt w' /\
    objs w' !! 0%nat = Some (Vec (Ptr (Some 0%nat) 0) 4 4) /\
    heap w' !! 0%nat = Some [Some 10; Some 20; Some 30; Some 40] /\
    log w' = [EvConstruct 0 3].
Proof.
  split; [reflexivity|]. split; [simpl; lia|].
  pose proof (push_back_all_within_capacity (H := Z_element) 0 0%nat spare_vec
                [10; 20; 30] [40] spare_world) as Hm.
  assert (Hrun : exists w', push_back_all (H := Z_element) 0 0%nat [40] spare_world
                            = Ret tt w').
  { eexists. vm_compute. reflexivity. }
  destruct Hrun as [w' Hrun]. rewrite Hrun in Hm.
  destruct Hm as (Hobjs & Hheap & Hlog & _);
    [reflexivity|apply owns_spare_vec|simpl; lia|].
  exists w'. split; [exact Hrun|].
  split; [rewrite Hobjs; apply lookup_insert_eq|].
  split; [rewrite Hheap; apply lookup_insert_eq|exact Hlog].
Defined.

Lemma push_back_all_capacity_witness :
  objs declared_world !! 0%nat = Some vec_default /\
  exists w' v',
    push_back_all (H := Z_element) 1 0%nat [1; 3; 5; 7; 9] declared_world = Ret tt w' /\
    objs w' !! 0%nat = Some v' /\ owns (heap w') v' [1; 3; 5; 7; 9] /\
    capacity_ v' = 7.
Proof.
  split; [reflexivity|].
  destruct (push_back_all_capacity (H := Z_element) 0 0%nat [1; 3; 5; 7; 9]
              declared_world) as [Hm Hret]; [reflexivity|reflexivity|].
  destruct Hret as [w' Hrun]; [constructor|].
  rewrite Hrun in Hm. destruct Hm as (v' & Hobjs & Hown & Hcap & _).
  exists w', v'. split; [exact Hrun|].
  split; [rewrite Hobjs; apply lookup_insert_eq|]. split; [exact Hown|exact Hcap].
Defined.

Lemma shrink_to_fit_exact_witness :
  objs spare_world !! 0%nat = Some spare_vec /\
  objs spare_world !! 1%nat = Some vec_default /\
  vector.shrink_to_fit 1%nat spare_world = Ret tt spare_world /\
  exists w' v',
    vector.shrink_to_fit 0%nat spare_world = Ret tt w' /\
    objs w' !! 0%nat = Some v' /\ capacity_ v' = 3 /\ size_ v' = 3 /\
    owns (heap w') v' [10; 20; 30].
Proof.
  split; [reflexivity|]. split; [reflexivity|].
  split.
  - destruct (shrink_to_fit_exact 1%nat vec_default [] spare_world)
      as (Hnoop & _); [reflexivity|apply owns_default|].
    apply Hnoop. reflexivity.
  - destruct (shrink_to_fit_exact 0%nat spare_vec [10; 20; 30] spare_world)
      as (_ & _ & Hfit); [reflexivity|apply owns_spare_vec|].
    destruct Hfit as [Hm Hret]; [discriminate|].
    destruct Hret as [w' Hrun]; [constructor|].
    rewrite Hrun in Hm. destruct Hm as (v' & Hobjs & Hcap & Hsz & Hown & _).
    exists w', v'. split; [exact Hrun|].
    split; [rewrite Hobjs; apply lookup_insert_eq|].
    split; [exact Hcap|]. split; [exact Hsz|exact Hown].
Defined.

Lemma copy_of_empty_witness :
  objs (spare_world_with [true]) !! 0%nat = Some spare_vec /\
  objs (spare_world_with [true]) !! 1%nat = Some vec_default /\
  (exists this w',
     vector.declare (fun c => vector.vector_copy c 1%nat) (spare_world_with [true])
     = Ret this w' /\
     objs w' !! this = Some vec_default /\ heap w' = heap spare_world) /\
  (exists w',
     vector.assign_copy 0%nat 1%nat (spare_world_with [true]) = Ret tt w' /\
     objs w' !! 0%nat = Some vec_default /\ heap w' !! 0%nat = None /\
     plan w' = [true]).
Proof.
  split; [reflexivity|]. split; [reflexivity|].
  destruct (copy_of_empty 0%nat 1%nat spare_vec vec_default [10; 20; 30]
              (spare_world_with [true])) as (Hctor & Hassign).
  - reflexivity.
  - apply owns_spare_vec.
  - reflexivity.
  - apply owns_default.
  - discriminate.
  - split.
    + eexists _, _. split; [exact Hctor|]. split; [apply lookup_insert_eq|reflexivity].
    + eexists. split; [exact Hassign|]. split; [apply lookup_insert_eq|].
      split; [apply lookup_delete_eq|reflexivity].
Defined.


Lemma erase_to_end_witness :
  objs (spare_world_with [true]) !! 0%nat = Some spare_vec /\
  exists w',
    vector.erase_range (H := Z_throwing_swap) 0%nat
      (ptr_add (data_ spare_vec) (Z.of_nat 1)) (ptr_add (data_ spare_vec) (Z.of_nat 3))
      (spare_world_with [true])
    = Ret (ptr_add (data_ spare_vec) (Z.of_nat 1)) w' /\
    objs w' !! 0%nat = Some (Vec (Ptr (Some 0%nat) 0) 1 4) /\
    owns (heap w') (Vec (Ptr (Some 0%nat) 0) 1 4) [10] /\
    plan w' = [true] /\ log w' = [EvDestroy 0 2; EvDestroy 0 1].
Proof.
  split; [reflexivity|].
  destruct (erase_to_end (H := Z_throwing_swap) 0%nat spare_vec [10; 20; 30] 1
              (spare_world_with [true]))
    as (w' & Hrun & Hobjs & _ & Hown & Hplan & _ & Hlog & _);
    [reflexivity|apply owns_spare_vec|simpl; lia|].
  exists w'. split; [exact Hrun|].
  split; [rewrite Hobjs; apply lookup_insert_eq|].
  split; [exact Hown|]. split; [exact Hplan|exact Hlog].
Defined.

Lemma erase_empty_range_witness :
  objs spare_world !! 0%nat = Some spare_vec /\
  nothrow_swap (H := Z_element) = true /\
  (exists res w',
     vector.erase_range (H := Z_element) 0%nat
       (ptr_add (data_ spare_vec) (Z.of_nat 1)) (ptr_add (data_ spare_vec) (Z.of_nat 1))
       spare_world = Ret res w' /\
     heap w' = heap spare_world /\ objs w' = objs spare_world) /\
  (exists w',
     vector.erase_range (H := Z_element) 0%nat
       (ptr_add (data_ spare_vec) (Z.of_nat 1)) (ptr_add (data_ spare_vec) (Z.of_nat 1))
       (spare_world_with [true]) = Throw w' /\
     objs w' = objs spare_world).
Proof.
  split; [reflexivity|]. split; [reflexivity|].
  destruct (erase_empty_range (H := Z_element) 0%nat spare_vec [10; 20; 30] 1
              spare_world) as (Hm & Hthrow);
    [reflexivity|apply owns_spare_vec|simpl; lia|].
  split.
  - assert (E : exists res w',
               vector.erase_range (H := Z_element) 0%nat
                 (ptr_add (data_ spare_vec) (Z.of_nat 1))
                 (ptr_add (data_ spare_vec) (Z.of_nat 1)) spare_world = Ret res w')
      by (eexists _, _; vm_compute; reflexivity).
    destruct E as (res & w' & E). rewrite E in Hm.
    destruct Hm as (_ & Hh & Ho & _).
    exists res, w'. split; [exact E|]. split; [exact Hh|exact Ho].
  - apply Hthrow; [reflexivity|simpl; lia].
Defined.

Lemma insert_at_end_is_push_back_witness :
  objs spare_world !! 0%nat = Some spare_vec /\
  refers (heap spare_world) (RefLocal 40) = Some 40 /\
  vector.insert (H := Z_throwing_swap) 1 0%nat
    (ptr_add (data_ spare_vec) (Z.of_nat (length [10; 20; 30]))) (RefLocal 40)
    spare_world
  = (vector.push_back_lvalue (H := Z_throwing_swap) 1 0%nat (RefLocal 40) ;;
     e <- vector.end_ 0%nat ;; ret (ptr_add e (-1))) spare_world.
Proof.
  split; [reflexivity|]. split; [reflexivity|].
  apply (insert_at_end_is_push_back (H := Z_throwing_swap) 0 0%nat spare_vec
           [10; 20; 30] (RefLocal 40) 40 spare_world).
  - reflexivity.
  - apply owns_spare_vec.
  - reflexivity.
  - reflexivity.
Defined.

Lemma insert_basic_guarantee_witness :
  objs spare_world !! 0%nat = Some spare_vec /\
  nothrow_swap (H := Z_throwing_swap) = false /\
  exists faults w' v',
    vector.insert (H := Z_throwing_swap) 1 0%nat
      (ptr_add (data_ spare_vec) (Z.of_nat 1)) (RefLocal 15)
      (set_plan faults spare_world)
    = Throw w' /\
    objs w' !! 0%nat = Some v' /\ size_ v' = size_ spare_vec + 1.
Proof.
  split; [reflexivity|]. split; [reflexivity|].
  destruct (insert_basic_guarantee (H := Z_throwing_swap) 0 0%nat spare_vec
              [10; 20; 30] 1 (RefLocal 15) 15 spare_world)
    as (_ & Hthrow);
    [reflexivity|apply owns_spare_vec|simpl; lia|reflexivity|reflexivity|].
  apply Hthrow; [reflexivity|simpl; lia|reflexivity].
Defined.

Lemma push_pop_round_trip_witness :
  objs spare_world !! 0%nat = Some spare_vec /\
  exists w',
    (vector.push_back (H := Z_element) 1 0%nat 40 ;; vector.pop_back 0%nat) spare_world
    = Ret tt w' /\
    heap w' = heap spare_world /\ objs w' = objs spare_world.
Proof.
  split; [reflexivity|].
  destruct (push_pop_round_trip (H := Z_element) 0 0%nat spare_vec [10; 20; 30] 40
              spare_world) as [Hm Hret];
    [reflexivity|apply owns_spare_vec|reflexivity|].
  destruct Hret as [w' Hrun]; [constructor|].
  rewrite Hrun in Hm. destruct Hm as (v' & _ & _ & _ & _ & Hsame).
  destruct Hsame as (_ & Hh & Ho); [reflexivity|].
  exists w'. split; [exact Hrun|]. split; [exact Hh|exact Ho].
Defined.

Lemma insert_erase_round_trip_witness :
  objs spare_world !! 0%nat = Some spare_vec /\
  exists res w' v',
    (pos <- vector.insert (H := Z_element) 1 0%nat
              (ptr_add (data_ spare_vec) (Z.of_nat 1)) (RefLocal 15) ;;
     vector.erase (H := Z_element) 0%nat pos) spare_world = Ret res w' /\
    objs w' !! 0%nat = Some v' /\ owns (heap w') v' [10; 20; 30] /\
    res = ptr_add (data_ v') 1.
Proof.
  split; [reflexivity|].
  destruct (insert_erase_round_trip (H := Z_element) 0 0%nat spare_vec [10; 20; 30] 1
              (RefLocal 15) 15 spare_world) as [Hm Hret];
    [reflexivity|apply owns_spare_vec|simpl; lia|reflexivity|reflexivity|].
  destruct Hret as (res & w' & Hrun); [constructor|].
  rewrite Hrun in Hm. destruct Hm as (v' & Hobjs & Hown & _ & Hres & _).
  exists res, w', v'. split; [exact Hrun|].
  split; [rewrite Hobjs; apply lookup_insert_eq|]. split; [exact Hown|exact Hres].
Defined.

Lemma no_leak_step_witness :
  consistent_world start_world /\ no_orphans start_world /\
  run (H := Z_element) 1 Declare_default start_world = Ret tt declared_world /\
  run (H := Z_element) 1 (Push_back 0%nat 7) declared_world = Ret tt pushed_world /\
  no_orphans pushed_world /\
  exists w',
    run (H := Z_element) 1 (Destroy 0%nat) pushed_world = Ret tt w' /\
    leaked w' = 0%nat /\ heap w' = ∅.
Proof.
  assert (Hc0 : consistent_world start_world) by apply consistent_empty.
  assert (Hn0 : no_orphans start_world).
  { intros b [s Hs]. simpl in Hs. rewrite lookup_empty in Hs. discriminate Hs. }
  assert (E1 : run (H := Z_element) 1 Declare_default start_world = Ret tt declared_world)
    by (vm_compute; reflexivity).
  assert (E2 : run (H := Z_element) 1 (Push_back 0%nat 7) declared_world
               = Ret tt pushed_world) by (vm_compute; reflexivity).
  assert (E3 : exists w', run (H := Z_element) 1 (Destroy 0%nat) pushed_world = Ret tt w'
                          /\ objs w' = ∅).
  { eexists. split; vm_compute; reflexivity. }
  destruct E3 as (w' & E3 & Ho3).
  split; [exact Hc0|]. split; [exact Hn0|]. split; [exact E1|]. split; [exact E2|].
  pose proof (no_leak_step (H := Z_element) 0 Declare_default start_world Hc0 Hn0 I)
    as H1.
  rewrite E1 in H1. destruct H1 as (Hc1 & Hn1 & Hk1 & _).
  assert (Hp1 : pre (H := Z_element) (Push_back 0%nat 7) declared_world).
  { exists vec_default. split; [vm_compute; reflexivity|]. split; reflexivity. }
  pose proof (no_leak_step (H := Z_element) 0 (Push_back 0%nat 7) declared_world
                Hc1 Hn1 Hp1) as H2.
  rewrite E2 in H2. destruct H2 as (Hc2 & Hn2 & Hk2 & _).
  assert (Hp2 : pre (H := Z_element) (Destroy 0%nat) pushed_world).
  { eexists. vm_compute. reflexivity. }
  pose proof (no_leak_step (H := Z_element) 0 (Destroy 0%nat) pushed_world
                Hc2 Hn2 Hp2) as H3.
  rewrite E3 in H3. destruct H3 as (_ & _ & Hk3 & Hempty).
  split; [exact Hn2|]. exists w'. split; [exact E3|].
  split; [rewrite Hk3, Hk2, Hk1; reflexivity|apply Hempty; exact Ho3].
Defined.

Lemma erase_returns_with_nothrow_moves_witness :
  objs (spare_world_with [true]) !! 0%nat = Some spare_vec /\
  (exists res w' v',
     vector.erase_range (H := Z_nothrow_move) 0%nat
       (ptr_add (data_ spare_vec) (Z.of_nat 0)) (ptr_add (data_ spare_vec) (Z.of_nat 2))
       (spare_world_with [true]) = Ret res w' /\
     objs w' !! 0%nat = Some v' /\ owns (heap w') v' [30] /\
     capacity_ v' = 4 /\ data_ v' = Ptr (Some 0%nat) 0) /\
  (exists res w' v',
     vector.erase (H := Z_nothrow_move) 0%nat (ptr_add (data_ spare_vec) (Z.of_nat 0))
       (spare_world_with [true]) = Ret res w' /\
     objs w' !! 0%nat = Some v' /\ owns (heap w') v' [20; 30] /\
     capacity_ v' = 4 /\ data_ v' = Ptr (Some 0%nat) 0).
Proof.
  split; [reflexivity|].
  destruct (erase_returns_with_nothrow_moves (H := Z_nothrow_move) 0%nat spare_vec
              [10; 20; 30] 0 2 (spare_world_with [true]))
    as [Hrange Hone];
    [reflexivity|reflexivity|reflexivity|apply owns_spare_vec|simpl; lia|].
  split; [exact Hrange|]. apply Hone. simpl. lia.
Defined.

(** ** The model on small programs *)

(** Five pushes from the empty vector: the capacity goes 1, 3, 7. *)
Example run_five_pushes :
  snapshot (after (run_all five_pushes start_world) start_world) 0
  = Some (Vec (Ptr (Some 2%nat) 0) 5 7,
          [Some 1; Some 3; Some 5; Some 7; Some 9; None; None]).
Proof. vm_compute. reflexivity. Qed.

(** [a.push_back(a[0])] on a full vector. *)
Example run_push_from_self :
  snapshot (after (run_all [Declare_default; Push_back 0%nat 42;
                            Push_back_lvalue 0%nat (RefSlot (Ptr (Some 0%nat) 0))]
                     start_world) start_world) 0
  = Some (Vec (Ptr (Some 1%nat) 0) 2 3, [Some 42; Some 42; None]).
Proof. vm_compute. reflexivity. Qed.

(** [a.erase(a.begin() + 1, a.begin() + 3)] *)
Example run_erase_middle :
  snapshot (after (run_all (five_pushes ++ [Erase_range 0%nat 1 3]) start_world)
              start_world) 0
  = Some (Vec (Ptr (Some 2%nat) 0) 3 7,
          [Some 1; Some 7; Some 9; None; None; None; None]).
Proof. vm_compute. reflexivity. Qed.

(** [a.insert(a.begin() + 2, a[4])]: the value is an element of [a]. *)
Example run_insert_from_self :
  snapshot (after (run_all (five_pushes ++
                            [Insert 0%nat 2 (RefSlot (Ptr (Some 2%nat) 4))])
                     start_world) start_world) 0
  = Some (Vec (Ptr (Some 2%nat) 0) 6 7,
          [Some 1; Some 3; Some 9; Some 5; Some 7; Some 9; None]).
Proof. vm_compute. reflexivity. Qed.

(** [reserve(10); shrink_to_fit(); clear();] keeps the capacity 5 of the
    shrunk block. *)
Example run_reserve_shrink_clear :
  snapshot (after (run_all (five_pushes ++
                            [Reserve 0%nat 10; Shrink_to_fit 0%nat; Clear 0%nat])
                     start_world) start_world) 0
  = Some (Vec (Ptr (Some 4%nat) 0) 0 5, [None; None; None; None; None]).
Proof. vm_compute. reflexivity. Qed.

(** A push on a full vector whose second element copy fails: the
    exception leaves the vector and the heap as they were, after the new
    block was rolled back. *)
Example run_push_back_rollback :
  match run (H := Z_element) 1 (Push_back 0%nat 30) (full_world [false; false; true]) with
  | Throw w =>
      snapshot w 0 = Some (full_vec, [Some 10; Some 20]) /\
      heap w = heap (full_world []) /\
      log w = [EvNew 1 5; EvConstruct 1 0; EvDestroy 1 0; EvDelete 1]
  | _ => False
  end.
Proof. vm_compute. repeat split; reflexivity. Qed.

(** [pop_back()] on an empty vector is outside the contract. *)
Example run_pop_back_empty :
  run (H := Z_element) 1 (Pop_back 0%nat) declared_world = Abort BadPointer.
Proof. vm_compute. reflexivity. Qed.

(** [vector<T> b = a; a = std::move(b);] and the end of [b]: one vector,
    one block, nothing leaked. *)
Example run_copy_move_destroy :
  match run_all (five_pushes ++ [Declare_copy 0%nat; Assign_move 0%nat 1%nat;
                                 Destroy 1%nat]) start_world with
  | Ret _ w =>
      map_to_list (objs w) = [(0%nat, Vec (Ptr (Some 3%nat) 0) 5 5)] /\
      map_to_list (heap w) = [(3%nat, [Some 1; Some 3; Some 5; Some 7; Some 9])] /\
      leaked w = 0%nat
  | _ => False
  end.
Proof. vm_compute. repeat split; reflexivity. Qed.

(** [a.erase(a.begin())] on [10; 20; 30] when the third move of the
    first [std::swap] throws: the first element has been moved over the
    second one. *)
Example run_erase_third_move_throws :
  match vector.erase (H := Z_element) 0%nat (ptr_add (data_ spare_vec) 0)
          (spare_world_with [false; false; true]) with
  | Throw w => snapshot w 0 = Some (spare_vec, [Some 10; Some 10; Some 30; None])
  | _ => False
  end.
Proof. vm_compute. reflexivity. Qed.

(** The same call when the move assignment of the first [std::swap]
    throws, for a type whose moves leave 0 behind: the second element
    has been moved out. *)
Example run_erase_move_assignment_throws :
  match vector.erase (H := Z_throwing_swap) 0%nat (ptr_add (data_ spare_vec) 0)
          (spare_world_with [true]) with
  | Throw w => snapshot w 0 = Some (spare_vec, [Some 10; Some 0; Some 30; None])
  | _ => False
  end.
Proof. vm_compute. reflexivity. Qed.

(** [a.insert(a.begin(), 40)] for the same type when the second swap of
    the loop throws: the new element is on its way down. *)
Example run_insert_second_swap_throws :
  match vector.insert (H := Z_throwing_swap) 1 0%nat (ptr_add (data_ spare_vec) 0)
          (RefLocal 40) (spare_world_with [false; false; false; true]) with
  | Throw w =>
      snapshot w 0 = Some (Vec (Ptr (Some 0%nat) 0) 4 4,
                           [Some 10; Some 20; Some 0; Some 30])
  | _ => False
  end.
Proof. vm_compute. reflexivity. Qed.
